(** * code-challenge: sum_to_n (problem 4), the user service's pagination
      (problem 5) and the real-time scoreboard design (problem 6)

    Numbers of the TypeScript sources are modelled as mathematical integers
    ([Z]): every statement below is about exact integer arithmetic, not about
    IEEE doubles. *)

From Stdlib Require Import ZArith QArith Qround Lia OrderedTypeEx.
From Equations Require Import Equations.
From stdpp Require Import gmap strings list fin_maps sorting.

Open Scope Z_scope.

Set Warnings "-clear-no-such-hyp".

(* ===================================================================== *)
(** * Part I: definitions                                                 *)
(* ===================================================================== *)

(** ** Problem 4: src/problem4/sum_to_n.ts *)

Module Problem4.

(** The [for (let i = 1; i <= n; i++) sum += i] loop of [sum_to_n_a], as a
    function of the loop state [(i, sum)].  The loop runs while [i <= n];
    the distance [n + 1 - i] shrinks at each iteration. *)
Equations? sum_loop (n i sum : Z) : Z by wf (Z.to_nat (n + 1 - i)) lt :=
  sum_loop n i sum with decide (i <= n) := {
    | left _ => sum_loop n (i + 1) (sum + i)
    | right _ => sum }.
Proof. lia. Qed.

(** [let sum = 0; for (let i = 1; ...) ...; return sum]. *)
Definition sum_to_n_a (n : Z) : Z := sum_loop n 1 0.

(** [return (n * (n + 1)) / 2].  The product of two consecutive integers is
    even, so the real division of the source is exact on integers. *)
Definition sum_to_n_b (n : Z) : Z := (n * (n + 1)) / 2.

(** [if (n <= 1) return n; return n + sum_to_n_c(n - 1)], as a total
    function; [sum_to_n_c_fuel] below is the same code with the depth of
    the call stack made explicit. *)
Equations? sum_to_n_c (n : Z) : Z by wf (Z.to_nat n) lt :=
  sum_to_n_c n with decide (n <= 1) := {
    | left _ => n
    | right _ => n + sum_to_n_c (n - 1) }.
Proof. lia. Qed.

(** The recursion of [sum_to_n_c] run with a bound on the number of nested
    calls: [None] when [fuel] calls are not enough to come back. *)
Fixpoint sum_to_n_c_fuel (fuel : nat) (n : Z) : option Z :=
  match fuel with
  | O => None
  | S fuel' =>
      if decide (n <= 1) then Some n
      else match sum_to_n_c_fuel fuel' (n - 1) with
           | Some r => Some (n + r)
           | None => None
           end
  end.

(** Number of nested calls [sum_to_n_c n] makes: one for [n <= 1], and one
    more for each unit of distance from [n] down to [1]. *)
Definition sum_to_n_c_calls (n : Z) : nat := S (Z.to_nat (n - 1)).

End Problem4.

(** ** Problem 5: src/problem5/src/services/user.service.ts and the user model

    The queries of the model go to PostgreSQL through node-postgres, which
    sends every parameter as text; the server reads each one with the input
    function of the type the statement gives it, and refuses the statement
    when one cannot be read.  Strings are sequences of code units below
    256.  Numbers are integers; what the code computes with them is computed
    exactly, which is what IEEE doubles do as long as every value stays
    within the safe integers (below 2^53 in absolute value). *)

From Stdlib Require Import Ascii.

Module Problem5.

(** [interface User] of types/user.types; dates are instants. *)
Record User := {
  id : Z;
  name : string;
  email : string;
  age : option Z;
  role : string;
  status : string;
  deleted_at : option Z;
  created_at : Z;
  updated_at : Z
}.

Inductive SortColumn :=
  | by_id | by_name | by_email | by_age | by_role | by_created_at | by_updated_at.

Inductive SortOrder := ASC | DESC.

(** An optional property of an object: the key may be absent, or present
    with the value [undefined], or hold a value.  [Object.keys] and the
    spread [{...o}] see the difference between the first two. *)
Inductive Field (A : Type) :=
  | Absent
  | Undefined
  | Value (a : A).

Arguments Absent {A}.
Arguments Undefined {A}.
Arguments Value {A} a.

(** What reading the property gives: a value, or [undefined]. *)
Definition val {A : Type} (x : Field A) : option A :=
  match x with
  | Value a => Some a
  | _ => None
  end.

Definition has_key {A : Type} (x : Field A) : bool :=
  match x with
  | Absent => false
  | _ => true
  end.

(** [interface UserFilters]: every property is optional. *)
Record UserFilters := {
  f_role : Field string;
  f_status : Field string;
  minAge : Field Z;
  maxAge : Field Z;
  includeDeleted : Field bool;
  sortBy : Field SortColumn;
  sortOrder : Field SortOrder;
  page : Field Z;
  limit : Field Z
}.

(** [filters?.property], for a [filters] that may itself be undefined. *)
Definition opt {A : Type} (property : UserFilters → Field A) (filters : option UserFilters)
  : option A :=
  filters ≫= (λ f, val (property f)).

Record PaginationMeta := {
  currentPage : Z;
  pageSize : Z;
  totalCount : Z;
  totalPages : Z;
  hasNextPage : bool;
  hasPreviousPage : bool
}.

Record PaginatedResponse := {
  success : bool;
  data : list User;
  pagination : PaginationMeta;
  filters : option UserFilters
}.

(** *** What the database refuses *)

Inductive IntType := int4 | int8.

(** The errors of PostgreSQL that the statements of the model can meet,
    with their SQLSTATE. *)
Inductive PgFault :=
  | out_of_range (t : IntType)          (* 22003 *)
  | invalid_input_syntax (t : IntType)  (* 22P02 *)
  | invalid_byte_sequence               (* 22021 *)
  | value_too_long                      (* 22001 *)
  | users_pkey                          (* 23505 *)
  | users_email_key                     (* 23505 *)
  | sequence_exhausted                  (* 2200H *)
  | negative_limit                      (* 2201W *)
  | negative_offset.                    (* 2201X *)

(** What a call can throw: an [Error] of the service with its message, or
    an error of the database. *)
Inductive Thrown :=
  | JsError (message : string)
  | PgError (fault : PgFault).

(** A parameter of a statement: a string, a number where the statement
    expects an [integer] or a [bigint], or [null]. *)
Inductive Param :=
  | text (s : string)
  | integer (t : IntType) (z : Z)
  | null.

Definition int_min (t : IntType) : Z :=
  match t with
  | int4 => -2147483648
  | int8 => -9223372036854775808
  end.

Definition int_max (t : IntType) : Z :=
  match t with
  | int4 => 2147483647
  | int8 => 9223372036854775807
  end.

Definition in_range (t : IntType) (z : Z) : Prop := int_min t <= z <= int_max t.

#[global] Instance in_range_dec (t : IntType) (z : Z) : Decision (in_range t z).
Proof. unfold in_range. apply _. Defined.

(** A string with the code unit 0 in it is no text for the server. *)
Definition has_nul (s : string) : bool :=
  existsb (λ a, bool_decide (a = Ascii.zero)) (String.list_ascii_of_string s).

(** Reading one parameter.  A number is printed in decimal digits up to
    10^21 and refused when out of the type's range; from 10^21 on it is
    printed with an exponent, which is no integer syntax. *)
Definition bind_param (p : Param) : option PgFault :=
  match p with
  | text s => if has_nul s then Some invalid_byte_sequence else None
  | integer t z =>
      if decide (in_range t z) then None
      else if decide (Z.abs z < 10 ^ 21) then Some (out_of_range t)
      else Some (invalid_input_syntax t)
  | null => None
  end.

(** Reading the parameters, in order: the first one refused decides. *)
Definition bind (params : list Param) : option PgFault :=
  head (omap bind_param params).

(** *** The queries *)

(** JavaScript truthiness of an optional string: defined and not empty. *)
Definition truthy_string (o : option string) : option string :=
  match o with
  | Some s => if decide (s = EmptyString) then None else Some s
  | None => None
  end.

(** The [WHERE] clause built by [UserModel.count] and [UserModel.findAll]:
    soft-deleted rows are kept only when [includeDeleted] is true; a
    comparison with a [NULL] age selects nothing. *)
Definition matches (f : option UserFilters) (u : User) : bool :=
  (match opt includeDeleted f with
   | Some true => true
   | _ => bool_decide (deleted_at u = None)
   end)
  && (match truthy_string (opt f_role f) with
      | Some r => bool_decide (role u = r)
      | None => true
      end)
  && (match truthy_string (opt f_status f) with
      | Some s => bool_decide (status u = s)
      | None => true
      end)
  && (match opt minAge f with
      | Some a => match age u with Some x => bool_decide (a <= x) | None => false end
      | None => true
      end)
  && (match opt maxAge f with
      | Some a => match age u with Some x => bool_decide (x <= a) | None => false end
      | None => true
      end).

(** The parameters that go with the [WHERE] clause, in the order in which
    the code pushes them; [age] is an [INTEGER] column. *)
Definition where_params (f : option UserFilters) : list Param :=
  from_option (λ r, [text r]) [] (truthy_string (opt f_role f))
  ++ from_option (λ s, [text s]) [] (truthy_string (opt f_status f))
  ++ from_option (λ a, [integer int4 a]) [] (opt minAge f)
  ++ from_option (λ a, [integer int4 a]) [] (opt maxAge f).

(** [LIMIT $n OFFSET $m] of [UserModel.findAll]: the limit, and the offset
    [(filters.page - 1) * limit], when both properties are defined. *)
Definition paging (f : option UserFilters) : option (Z * Z) :=
  match opt limit f, opt page f with
  | Some l, Some p => Some (l, (p - 1) * l)
  | _, _ => None
  end.

Definition paging_params (q : option (Z * Z)) : list Param :=
  match q with
  | Some (l, o) => [integer int8 l; integer int8 o]
  | None => []
  end.

Section Database.

(** The rows of table [users], and the database's [ORDER BY column
    direction], which the repository delegates to PostgreSQL.  Rows with
    equal sort keys come in an order of the database's choosing, and that
    choice may change with the [LIMIT] and [OFFSET] of the query: they are
    an argument of the sort. *)
Variable users : list User.
Variable order_by : SortColumn → SortOrder → option (Z * Z) → list User → list User.

(** [UserModel.count]: [SELECT COUNT( * ) FROM users WHERE ...]. *)
Definition count (f : option UserFilters) : Thrown + Z :=
  match bind (where_params f) with
  | Some e => inl (PgError e)
  | None => inr (Z.of_nat (length (filter (λ u, matches f u = true) users)))
  end.

(** [UserModel.findAll]: filter, sort ([id DESC] by default), and apply
    [LIMIT limit OFFSET (page - 1) * limit] when both are defined.  The
    server refuses a negative offset, then a negative limit, when it runs
    the statement. *)
Definition findAll (f : option UserFilters) : Thrown + list User :=
  match bind (where_params f ++ paging_params (paging f)) with
  | Some e => inl (PgError e)
  | None =>
      let rows := filter (λ u, matches f u = true) users in
      let sorted :=
        order_by (default by_id (opt sortBy f)) (default DESC (opt sortOrder f))
                 (paging f) rows in
      match paging f with
      | Some (l, o) =>
          if decide (o < 0) then inl (PgError negative_offset)
          else if decide (l < 0) then inl (PgError negative_limit)
          else inr (take (Z.to_nat l) (drop (Z.to_nat o) sorted))
      | None => inr sorted
      end
  end.

(** [Math.ceil(totalCount / limit)]: real division, then ceiling. *)
Definition ceil_div (a b : Z) : Z := Qceiling (inject_Z a / inject_Z b).

(** [{ ...filters, page, limit }] *)
Definition sanitized (f : UserFilters) (page limit : Z) : UserFilters :=
  {| f_role := f_role f; f_status := f_status f;
     minAge := minAge f; maxAge := maxAge f;
     includeDeleted := includeDeleted f;
     sortBy := sortBy f; sortOrder := sortOrder f;
     page := Value page; limit := Value limit |}.

(** [const { page: _, limit: __, ...responseFilters } = sanitizedFilters]
    followed by [Object.keys(responseFilters).length > 0 ? ... : undefined]:
    every other key of the filters counts, also one that holds
    [undefined]. *)
Definition responseFilters (f : UserFilters) : option UserFilters :=
  let rest := {| f_role := f_role f; f_status := f_status f;
                 minAge := minAge f; maxAge := maxAge f;
                 includeDeleted := includeDeleted f;
                 sortBy := sortBy f; sortOrder := sortOrder f;
                 page := Absent; limit := Absent |} in
  if has_key (f_role f) || has_key (f_status f) || has_key (minAge f)
     || has_key (maxAge f) || has_key (includeDeleted f) || has_key (sortBy f)
     || has_key (sortOrder f)
  then Some rest else None.

(** [UserService.getAllUsers]: a plain array without pagination
    parameters, a [PaginatedResponse] when both are defined.  The two
    queries of [Promise.all] are refused together when a parameter of the
    [WHERE] clause is: the call throws what either throws. *)
Definition getAllUsers (f : option UserFilters)
  : Thrown + (list User + PaginatedResponse) :=
  match opt page f, opt limit f, f with
  | Some p0, Some l0, Some fs =>
      let page := Z.max 1 p0 in
      let limit := Z.max 1 (Z.min 100 l0) in
      let sanitizedFilters := sanitized fs page limit in
      match count (Some sanitizedFilters), findAll (Some sanitizedFilters) with
      | inr totalCount, inr users =>
          let totalPages := ceil_div totalCount limit in
          let pagination :=
            {| currentPage := page;
               pageSize := limit;
               totalCount := totalCount;
               totalPages := totalPages;
               hasNextPage := bool_decide (page < totalPages);
               hasPreviousPage := bool_decide (page > 1) |} in
          inr (inr {| success := true;
                      data := users;
                      pagination := pagination;
                      filters := responseFilters sanitizedFilters |})
      | inl e, _ => inl e
      | _, inl e => inl e
      end
  | _, _, _ =>
      match findAll f with
      | inr users => inr (inl users)
      | inl e => inl e
      end
  end.

End Database.

(** Three rows, one of them soft-deleted, and a request for page -4 with
    250 rows per page. *)
Definition example_users : list User :=
  [{| id := 1; name := "Ann"; email := "ann@example.com"; age := Some 31;
      role := "Developer"; status := "active"; deleted_at := None;
      created_at := 0; updated_at := 0 |};
   {| id := 2; name := "Bao"; email := "bao@example.com"; age := None;
      role := "Designer"; status := "active"; deleted_at := Some 9;
      created_at := 1; updated_at := 9 |};
   {| id := 3; name := "Chi"; email := "chi@example.com"; age := Some 45;
      role := "Manager"; status := "inactive"; deleted_at := None;
      created_at := 2; updated_at := 2 |}].

Definition example_filters : UserFilters :=
  {| f_role := Absent; f_status := Absent; minAge := Absent; maxAge := Absent;
     includeDeleted := Absent; sortBy := Absent; sortOrder := Absent;
     page := Value (-4); limit := Value 250 |}.

End Problem5.

(** ** Problem 6: the real-time scoreboard (README of problem 6)

    The README gives the design and three code sketches: the Redis rate
    limiter, [updateScoreboard] and the data schemas.  The sketches are
    embedded as they are written; the engine around them (guard, ranking
    store, snapshot cache) has no code in the repository and is modelled
    from the specification, each such definition saying so. *)

Module Scoreboard.

(** *** Redis, as far as the sketches use it: integer keys with an
        optional expiry instant (seconds) *)

Record RedisEntry := {
  value : Z;
  expireAt : option Z
}.

(** A key is gone once its expiry instant has passed. *)
Definition expired (now : Z) (e : RedisEntry) : bool :=
  match expireAt e with
  | Some t => bool_decide (t < now)
  | None => false
  end.

Definition redis_get (now : Z) (redis : gmap string RedisEntry) (key : string)
  : option RedisEntry :=
  match redis !! key with
  | Some e => if expired now e then None else Some e
  | None => None
  end.

(** [INCR key]: a missing (or expired) key counts from 0 and gets no
    expiry; a live key keeps its expiry. *)
Definition redis_incr (now : Z) (redis : gmap string RedisEntry) (key : string)
  : gmap string RedisEntry * Z :=
  match redis_get now redis key with
  | Some e =>
      (<[key := {| value := value e + 1; expireAt := expireAt e |}]> redis, value e + 1)
  | None =>
      (<[key := {| value := 1; expireAt := None |}]> redis, 1)
  end.

(** [EXPIRE key seconds]. *)
Definition redis_expire (now : Z) (redis : gmap string RedisEntry) (key : string)
    (seconds : Z) : gmap string RedisEntry :=
  match redis_get now redis key with
  | Some e => <[key := {| value := value e; expireAt := Some (now + seconds) |}]> redis
  | None => redis
  end.

(** *** Rate limiting (README, "c) Rate Limiting", the Redis sketch) *)

Inductive Limited := Allowed | RateLimitExceeded.

(** [const key = `rate_limit:${userId}`] *)
Definition rate_limit_key (userId : string) : string :=
  String.append "rate_limit:" userId.

(** [[
    const count = await redis.incr(key);
    if (count === 1) await redis.expire(key, 60);
    if (count > 10) throw new Error("Rate limit exceeded");
    ]] *)
Definition rate_limit (userId : string) (now : Z) (redis : gmap string RedisEntry)
  : gmap string RedisEntry * Limited :=
  let key := rate_limit_key userId in
  let '(redis1, count) := redis_incr now redis key in
  let redis2 := if decide (count = 1) then redis_expire now redis1 key 60 else redis1 in
  if decide (count > 10) then (redis2, RateLimitExceeded) else (redis2, Allowed).

(** The limiter run over the arrivals [(userId, now)] of the commands that
    passed the guard, in order. *)
Fixpoint rate_limit_run (redis : gmap string RedisEntry) (arrivals : list (string * Z))
  : gmap string RedisEntry * list Limited :=
  match arrivals with
  | [] => (redis, [])
  | (userId, now) :: rest =>
      let '(redis1, r) := rate_limit userId now redis in
      let '(redis2, rs) := rate_limit_run redis1 rest in
      (redis2, r :: rs)
  end.

(** The outcomes of one user's commands, in order. *)
Definition outcomes_of (userId : string) (arrivals : list (string * Z))
    (outcomes : list Limited) : list Limited :=
  snd <$> filter (λ p, fst (fst p) = userId) (zip arrivals outcomes).

(** *** Data model *)

(** Modelled from the spec: the configuration surface of section 6, as far
    as the engine reads it: top-K size, snapshot TTL and score ceiling (the
    score floor is zero; the rate limit is the README's 10 per 60 seconds). *)
Record Config := {
  topKSize : nat;
  snapshotTTL : Z;
  scoreCeiling : Z
}.

(** Modelled from the spec: a participant of section 3, stored under its
    id: current score, last applied command sequence number, last update. *)
Record Participant := {
  score : Z;
  lastSeq : Z;
  lastUpdate : Z
}.

(** Modelled from the spec: the ScoreDelta command of sections 3 and 6;
    the command id is the per-participant sequence number. *)
Record Command := {
  participantId : string;
  delta : Z;
  commandId : Z;
  submittedAt : Z
}.

(** Modelled from the spec: the RankEntry of section 3, the ordering key
    of a participant: the score, and the id, which breaks ties (4.3). *)
Record RankEntry := {
  entryScore : Z;
  entryId : string
}.

#[global] Instance RankEntry_eq_dec : EqDecision RankEntry.
Proof. solve_decision. Defined.

(** Modelled from the spec: the Snapshot of section 3. *)
Record Snapshot := {
  entries : list RankEntry;
  generation : Z;
  createdAt : Z
}.

(** The [scoreboard_updated] broadcast of the README,
    [{ leaderboard: currentTop10, timestamp: new Date() }].  It is what the
    sketch publishes, the ChangeEvent of the engine; the payload has no
    generation number and no set of affected participants. *)
Record ChangeEvent := {
  leaderboard : list RankEntry;
  timestamp : Z
}.

(** The [user_rank_changed] message sent to the updated user's room. *)
Record RankNotice := {
  noticeUser : string;
  oldRank : option nat;
  newRank : option nat;
  noticeScore : Z
}.

(** Modelled from the spec: the answers to an inbound command (section 6). *)
Inductive Result :=
  | Applied (newScore : Z) (rank : option nat)
  | RejectedDuplicate
  | RejectedRateLimited
  | RejectedInvalid.

(** *** Ranking Store *)

(** Modelled from the spec: the total order of the Ranking Store, which has
    no code in the repository (4.3: score descending, and for equal scores
    ascending participant id).  [rank_ltb a b] holds when [a] ranks
    strictly before [b]. *)
Definition rank_ltb (a b : RankEntry) : bool :=
  bool_decide (entryScore b < entryScore a)
  || (bool_decide (entryScore a = entryScore b) && String.ltb (entryId a) (entryId b)).

Definition rank_lt (a b : RankEntry) : Prop := rank_ltb a b = true.

(** Modelled from the spec: the Ranking Store's state, the participants by
    id and the ordered structure of their keys. *)
Record RankingStore := {
  participants : gmap string Participant;
  order : list RankEntry
}.

(** Modelled from the spec: insertion of a key into the ordered structure
    (4.3), kept here as a list in rank order. *)
Fixpoint rank_insert (e : RankEntry) (l : list RankEntry) : list RankEntry :=
  match l with
  | [] => [e]
  | x :: xs => if rank_ltb e x then e :: l else x :: rank_insert e xs
  end.

(** Modelled from the spec: deletion of a key from the ordered structure. *)
Fixpoint rank_delete (e : RankEntry) (l : list RankEntry) : list RankEntry :=
  match l with
  | [] => []
  | x :: xs => if decide (x = e) then xs else x :: rank_delete e xs
  end.

(** Modelled from the spec: [topK(k)], the first [k] entries in rank order
    (4.3; the README names the query [getTop10] and gives no body). *)
Definition topK (k : nat) (s : RankingStore) : list RankEntry :=
  take k (order s).

(** Position of a participant's key in a list of keys, from 0. *)
Fixpoint index_of (userId : string) (l : list RankEntry) : option nat :=
  match l with
  | [] => None
  | x :: xs => if decide (entryId x = userId) then Some O else S <$> index_of userId xs
  end.

(** Modelled from the spec: [rankOf(participantId)], 1-based, or not found
    (the README's [getUserRank]). *)
Definition rankOf (userId : string) (s : RankingStore) : option nat :=
  S <$> index_of userId (order s).

(** Modelled from the spec: the boundary score, the score of the Kth
    entry (glossary); there is none while fewer than K participants exist. *)
Definition boundary (k : nat) (s : RankingStore) : option Z :=
  match k with
  | O => None
  | S k' => entryScore <$> order s !! k'
  end.

(** The entries of all participants, one per participant. *)
Definition entries_of (m : gmap string Participant) : list RankEntry :=
  (λ kv, {| entryScore := score (snd kv); entryId := fst kv |}) <$> map_to_list m.

(** *** Idempotency Guard *)

Inductive GuardResult := Accepted | DuplicateCommand | StaleCommand.

(** Modelled from the spec: the Idempotency Guard's check (4.1), which has
    no code in the repository: a command passes iff its sequence number is
    strictly greater than the participant's last applied one; the first
    command of an unseen participant always passes. *)
Definition guard (s : RankingStore) (cmd : Command) : GuardResult :=
  match participants s !! participantId cmd with
  | None => Accepted
  | Some p =>
      if decide (lastSeq p < commandId cmd) then Accepted
      else if decide (commandId cmd = lastSeq p) then DuplicateCommand
      else StaleCommand
  end.

(** Modelled from the spec: the numeric policy of 4.3: a result below zero
    is clamped to zero, a result above the ceiling is an invalid delta. *)
Definition nextScore (cfg : Config) (old : option Participant) (d : Z) : option Z :=
  let raw := from_option score 0 old + d in
  if decide (scoreCeiling cfg < raw) then None else Some (Z.max 0 raw).

(** Modelled from the spec: the store's write ([db.updateUserScore] in the
    README, no body there): delete the old key, insert the new one, and
    record the sequence number in the same step (4.3). *)
Definition updateUserScore (s : RankingStore) (userId : string) (newScore seq now : Z)
  : RankingStore :=
  let order1 :=
    match participants s !! userId with
    | Some p => rank_delete {| entryScore := score p; entryId := userId |} (order s)
    | None => order s
    end in
  {| participants :=
       <[userId := {| score := newScore; lastSeq := seq; lastUpdate := now |}]>
         (participants s);
     order := rank_insert {| entryScore := newScore; entryId := userId |} order1 |}.

Inductive ApplyResult :=
  | NewScore (newScore : Z)
  | AlreadyApplied
  | InvalidDelta.

(** Modelled from the spec: [applyDelta] (4.3), the sequence check, the
    score update and the recording of the sequence number as one step. *)
Definition applyDelta (cfg : Config) (s : RankingStore) (cmd : Command) (now : Z)
  : RankingStore * ApplyResult :=
  match guard s cmd with
  | Accepted =>
      match nextScore cfg (participants s !! participantId cmd) (delta cmd) with
      | Some n =>
          (updateUserScore s (participantId cmd) n (commandId cmd) now, NewScore n)
      | None => (s, InvalidDelta)
      end
  | _ => (s, AlreadyApplied)
  end.

(** *** Snapshot Cache *)

(** Modelled from the spec: the cache holds at most one snapshot, and the
    last generation stamped. *)
Record SnapshotCache := {
  cached : option Snapshot;
  lastGeneration : Z
}.

(** Modelled from the spec: [invalidate()] ([redis.del("leaderboard:global")]
    in the README). *)
Definition invalidate (c : SnapshotCache) : SnapshotCache :=
  {| cached := None; lastGeneration := lastGeneration c |}.

(** Modelled from the spec: the rebuild of 4.4, from [topK(K)], with a new
    generation. *)
Definition rebuild (cfg : Config) (s : RankingStore) (c : SnapshotCache) (now : Z)
  : SnapshotCache * Snapshot :=
  let snap := {| entries := topK (topKSize cfg) s;
                 generation := lastGeneration c + 1;
                 createdAt := now |} in
  ({| cached := Some snap; lastGeneration := lastGeneration c + 1 |}, snap).

(** Modelled from the spec: [get()] of 4.4 (the README has the sequence
    diagram only: cache hit, or query and cache with a TTL). *)
Definition get (cfg : Config) (s : RankingStore) (c : SnapshotCache) (now : Z)
  : SnapshotCache * Snapshot :=
  match cached c with
  | Some snap =>
      if decide (now - createdAt snap < snapshotTTL cfg) then (c, snap)
      else rebuild cfg s c now
  | None => rebuild cfg s c now
  end.

(** *** Change Notifier and engine *)

(** Modelled from the spec: an engine instance (section 9): the store,
    the limiter's Redis keys, the cache, and the events published to the
    Fan-out Bus so far, oldest first. *)
Record Engine := {
  ranking : RankingStore;
  limiter : gmap string RedisEntry;
  cache : SnapshotCache;
  bus : list ChangeEvent
}.

(** [top.some((u) => u.userId === userId)] *)
Definition inTop (top : list RankEntry) (userId : string) : bool :=
  existsb (λ u, bool_decide (entryId u = userId)) top.

Fixpoint dedup_ids (l : list string) : list string :=
  match l with
  | [] => []
  | x :: xs => if decide (x ∈ xs) then dedup_ids xs else x :: dedup_ids xs
  end.

(** Modelled from the spec: the participants whose rank in the top-K
    changed (entered, left or moved), from the two top-K lists. *)
Definition affected (previousTop currentTop : list RankEntry) : list string :=
  filter (λ u, index_of u previousTop ≠ index_of u currentTop)
         (dedup_ids (entryId <$> (previousTop ++ currentTop))).

(** [updateScoreboard(userId, newScore)] of the README ("Update Logic"):
    write the score, invalidate the cache, read the current top-K, broadcast
    iff the user was or is in the top-K, and notify the user of its rank.
    [previousTop10] and [previousRank] are the top-K and the rank before the
    write; [now] is the clock read by [new Date()].  The broadcast goes to
    the Fan-out Bus. *)
Definition updateScoreboard (cfg : Config) (st : Engine) (userId : string)
    (newScore seq now : Z) : Engine * option ChangeEvent * RankNotice :=
  let previousTop10 := topK (topKSize cfg) (ranking st) in
  let previousRank := rankOf userId (ranking st) in
  (* 1. Update database *)
  let db := updateUserScore (ranking st) userId newScore seq now in
  (* 2. Invalidate cache *)
  let cache1 := invalidate (cache st) in
  (* 3. Check if top 10 affected *)
  let '(cache2, snap) := get cfg db cache1 now in
  let currentTop10 := entries snap in
  let wasInTop10 := inTop previousTop10 userId in
  let isInTop10 := inTop currentTop10 userId in
  (* 4. Broadcast if top 10 changed *)
  let event :=
    if wasInTop10 || isInTop10 then
      Some {| leaderboard := currentTop10; timestamp := now |}
    else None in
  (* 5. Notify user of rank change *)
  let notice := {| noticeUser := userId;
                   oldRank := previousRank;
                   newRank := rankOf userId db;
                   noticeScore := newScore |} in
  ({| ranking := db;
      limiter := limiter st;
      cache := cache2;
      bus := bus st ++ from_option (λ e, [e]) [] event |},
   event, notice).

(** Modelled from the spec: the write path of section 2, Idempotency Guard,
    then Rate Limiter, then the store update with its invalidation and
    notification, and the results of section 6. *)
Definition process (cfg : Config) (st : Engine) (cmd : Command) (now : Z)
  : Engine * Result * option ChangeEvent :=
  match guard (ranking st) cmd with
  | Accepted =>
      let '(limiter1, allowed) := rate_limit (participantId cmd) now (limiter st) in
      let st1 := {| ranking := ranking st; limiter := limiter1;
                    cache := cache st; bus := bus st |} in
      match allowed with
      | RateLimitExceeded => (st1, RejectedRateLimited, None)
      | Allowed =>
          match nextScore cfg (participants (ranking st) !! participantId cmd)
                          (delta cmd) with
          | None => (st1, RejectedInvalid, None)
          | Some n =>
              let '(st2, event, notice) :=
                updateScoreboard cfg st1 (participantId cmd) n (commandId cmd) now in
              (st2, Applied n (newRank notice), event)
          end
      end
  | _ => (st, RejectedDuplicate, None)
  end.

(** Modelled from the spec: the read path of section 2, a top-K query
    served from the Snapshot Cache. *)
Definition query (cfg : Config) (st : Engine) (now : Z) : Engine * Snapshot :=
  let '(cache1, snap) := get cfg (ranking st) (cache st) now in
  ({| ranking := ranking st; limiter := limiter st; cache := cache1; bus := bus st |},
   snap).

(** The operations on an engine: a command arriving at [now], or a top-K
    query at [now]. *)
Inductive Op :=
  | Submit (cmd : Command) (now : Z)
  | Query (now : Z).

Inductive Response :=
  | Outcome (r : Result)
  | Leaderboard (snap : Snapshot).

Definition step (cfg : Config) (st : Engine) (op : Op) : Engine * Response :=
  match op with
  | Submit cmd now => let '(st1, r, _) := process cfg st cmd now in (st1, Outcome r)
  | Query now => let '(st1, snap) := query cfg st now in (st1, Leaderboard snap)
  end.

Fixpoint run (cfg : Config) (st : Engine) (ops : list Op) : Engine * list Response :=
  match ops with
  | [] => (st, [])
  | op :: rest =>
      let '(st1, r) := step cfg st op in
      let '(st2, rs) := run cfg st1 rest in
      (st2, r :: rs)
  end.

(** Modelled from the spec: an engine instance right after construction
    (section 9): no participant, nothing cached, nothing published. *)
Definition init : Engine :=
  {| ranking := {| participants := ∅; order := [] |};
     limiter := ∅;
     cache := {| cached := None; lastGeneration := 0 |};
     bus := [] |}.

(** The Ranking Store's invariant (spec section 3, invariant 1): the
    ordered structure is in strict rank order, and holds exactly one key
    per participant, carrying the participant's current score. *)
Definition store_wf (s : RankingStore) : Prop :=
  StronglySorted rank_lt (order s)
  ∧ ∀ e, e ∈ order s ↔
         ∃ p, participants s !! entryId e = Some p ∧ score p = entryScore e.

(** The four ways a command leaves [process]. *)
Inductive process_case (cfg : Config) (st : Engine) (cmd : Command) (now : Z)
  : Engine → Result → option ChangeEvent → Prop :=
  | case_duplicate :
      guard (ranking st) cmd ≠ Accepted →
      process_case cfg st cmd now st RejectedDuplicate None
  | case_limited (limiter1 : gmap string RedisEntry) :
      guard (ranking st) cmd = Accepted →
      rate_limit (participantId cmd) now (limiter st) = (limiter1, RateLimitExceeded) →
      process_case cfg st cmd now
        {| ranking := ranking st; limiter := limiter1;
           cache := cache st; bus := bus st |}
        RejectedRateLimited None
  | case_invalid (limiter1 : gmap string RedisEntry) :
      guard (ranking st) cmd = Accepted →
      rate_limit (participantId cmd) now (limiter st) = (limiter1, Allowed) →
      nextScore cfg (participants (ranking st) !! participantId cmd) (delta cmd) = None →
      process_case cfg st cmd now
        {| ranking := ranking st; limiter := limiter1;
           cache := cache st; bus := bus st |}
        RejectedInvalid None
  | case_applied (limiter1 : gmap string RedisEntry) (n : Z) (st2 : Engine)
      (event : option ChangeEvent) (notice : RankNotice) :
      guard (ranking st) cmd = Accepted →
      rate_limit (participantId cmd) now (limiter st) = (limiter1, Allowed) →
      nextScore cfg (participants (ranking st) !! participantId cmd) (delta cmd) = Some n →
      updateScoreboard cfg
        {| ranking := ranking st; limiter := limiter1;
           cache := cache st; bus := bus st |}
        (participantId cmd) n (commandId cmd) now = (st2, event, notice) →
      process_case cfg st cmd now st2 (Applied n (newRank notice)) event.

(** Whether an operation submits command [cid] of participant [pid]. *)
Definition submits (pid : string) (cid : Z) (op : Op) : bool :=
  match op with
  | Submit cmd _ => bool_decide (participantId cmd = pid ∧ commandId cmd = cid)
  | Query _ => false
  end.

Definition is_applied (r : Response) : bool :=
  match r with
  | Outcome (Applied _ _) => true
  | _ => false
  end.

(** How often command [cid] of [pid] is submitted in [ops], and how many of
    these submissions are answered [Applied]. *)
Definition occurrences (pid : string) (cid : Z) (ops : list Op) : nat :=
  length (filter (λ op, submits pid cid op = true) ops).

Definition applied_count (pid : string) (cid : Z) (ops : list Op) (rs : list Response)
  : nat :=
  length (filter (λ p, submits pid cid (fst p) = true ∧ is_applied (snd p) = true)
                 (zip ops rs)).

(** The exactly-once reading of the duplicate rule: a command submitted
    more than once is answered [Applied] exactly once. *)
Definition applied_exactly_once (cfg : Config) (ops : list Op) : Prop :=
  ∀ pid cid, (1 < occurrences pid cid ops)%nat →
             applied_count pid cid ops (run cfg init ops).2 = 1%nat.

(** Participant [pid] has applied a command numbered [seq] or later. *)
Definition seen (s : RankingStore) (pid : string) (seq : Z) : Prop :=
  ∃ p, participants s !! pid = Some p ∧ seq <= lastSeq p.

(** Every participant's score is at least zero. *)
Definition scores_nonneg (s : RankingStore) : Prop :=
  ∀ pid p, participants s !! pid = Some p → 0 <= score p.

(** The time at which an operation reaches the engine. *)
Definition op_time (op : Op) : Z :=
  match op with
  | Submit _ now => now
  | Query now => now
  end.

(** The events published so far are stamped in the order of the clock,
    none later than [t]. *)
Definition bus_wf (t : Z) (st : Engine) : Prop :=
  StronglySorted Z.le (timestamp <$> bus st)
  ∧ Forall (λ e, timestamp e <= t) (bus st).

(** The reading of a generation number off the events: [gen] numbers the
    events of [events] in strictly increasing order. *)
Definition generations_increase (gen : ChangeEvent → Z) (events : list ChangeEvent)
  : Prop :=
  StronglySorted Z.lt (gen <$> events).

(** Every event carries a generation number, strictly above that of every
    event published before it: some number read off an event orders the
    events of every run. *)
Definition carries_generations (cfg : Config) : Prop :=
  ∃ gen : ChangeEvent → Z,
    ∀ ops, generations_increase gen (bus (run cfg init ops).1).

(** *** The accepted deltas of a run *)

(** The participant and the delta of the command an operation submits,
    when the engine answers [Applied]. *)
Definition accepted (op : Op) (r : Response) : option (string * Z) :=
  match op with
  | Submit cmd _ => if is_applied r then Some (participantId cmd, delta cmd) else None
  | Query _ => None
  end.

(** The accepted deltas of a run, oldest first, each with its participant. *)
Definition accepted_deltas (ops : list Op) (rs : list Response) : list (string * Z) :=
  omap (λ p, accepted p.1 p.2) (zip ops rs).

(** The accepted deltas of one participant, oldest first. *)
Definition deltas_of (pid : string) (ds : list (string * Z)) : list Z :=
  snd <$> filter (λ d, d.1 = pid) ds.

(** Modelled from the spec: the score that a sequence of accepted deltas
    gives a participant who starts at zero, each sum below zero being
    clamped to zero (4.3). *)
Definition score_after (ds : list Z) : Z :=
  foldl (λ s d, Z.max 0 (s + d)) 0 ds.

(** The participants of a run, those with an accepted delta (section 3,
    lifecycle), each once, and the entry the accepted deltas give each. *)
Definition participants_of (ds : list (string * Z)) : list string :=
  remove_dups (fst <$> ds).

(** A participant's score in the store, if the participant exists, and the
    score after further accepted deltas of a participant who has score [o],
    or does not exist yet. *)
Definition score_of (s : RankingStore) (pid : string) : option Z :=
  score <$> participants s !! pid.

Definition replay (o : option Z) (ds : list Z) : option Z :=
  foldl (λ o d, Some (Z.max 0 (default 0 o + d))) o ds.

Definition expected_entries (ds : list (string * Z)) : list RankEntry :=
  (λ pid, {| entryScore := score_after (deltas_of pid ds); entryId := pid |})
    <$> participants_of ds.

(** A cached snapshot is the current top-K (every write invalidates), and
    its generation is not above the generation counter. *)
Definition cache_coherent (cfg : Config) (st : Engine) : Prop :=
  ∀ snap, cached (cache st) = Some snap →
          entries snap = topK (topKSize cfg) (ranking st)
          ∧ generation snap <= lastGeneration (cache st).

(** *** The scenario of the specification (section 8): A (100), B (90),
        C (80) and D (10) on a top-2 board *)

Definition example_cfg : Config :=
  {| topKSize := 2; snapshotTTL := 5; scoreCeiling := 9007199254740991 |}.

Definition command (pid : string) (d seq at_time : Z) : Command :=
  {| participantId := pid; delta := d; commandId := seq; submittedAt := at_time |}.

Definition example_ops : list Op :=
  [Submit (command "A" 100 1 0) 0; Submit (command "B" 90 1 1) 1;
   Submit (command "C" 80 1 2) 2; Submit (command "D" 10 1 3) 3].

Definition example_board : Engine := (run example_cfg init example_ops).1.

(** amy gains 40; bob gains 60 and loses 20; cat gains 5, loses 30 (to
    zero, not to -25), and a stale command of cat is rejected. *)
Definition example_clamped : list Op :=
  [Submit (command "amy" 40 1 0) 0; Submit (command "bob" 60 1 1) 1;
   Submit (command "cat" 5 2 2) 2; Submit (command "bob" (-20) 2 3) 3;
   Submit (command "cat" (-30) 3 4) 4; Query 5; Submit (command "cat" 70 1 6) 6].

(** Two updates of A that reach the engine at the same instant, the second
    with a delta of zero. *)
Definition example_same_instant : list Op :=
  [Submit (command "A" 100 1 5) 5; Submit (command "A" 0 2 5) 5].

(** Eleven commands of alice within a minute, one of bob in between. *)
Definition example_arrivals : list (string * Z) :=
  ("bob", 102) :: ((λ i, ("alice", 100 + Z.of_nat i)) <$> seq 1 10).

End Scoreboard.

(** ** Problem 5: the pages of [UserService.getAllUsers] *)

Module UserPages.
Import Problem5.

(** The filters with [page] and [limit] replaced. *)
Definition with_page (f : UserFilters) (p l : Field Z) : UserFilters :=
  {| f_role := f_role f; f_status := f_status f;
     minAge := minAge f; maxAge := maxAge f;
     includeDeleted := includeDeleted f;
     sortBy := sortBy f; sortOrder := sortOrder f;
     page := p; limit := l |}.

(** The users in an answer of [getAllUsers], array or paginated; none when
    the call throws. *)
Definition rows_of (r : Thrown + (list User + PaginatedResponse)) : list User :=
  match r with
  | inr (inl us) => us
  | inr (inr resp) => data resp
  | inl _ => []
  end.

(** The users on page [p] when [l] per page are asked for. *)
Definition page_rows (users : list User)
    (order_by : SortColumn → SortOrder → option (Z * Z) → list User → list User)
    (f : UserFilters) (p l : Z) : list User :=
  rows_of (getAllUsers users order_by (Some (with_page f (Value p) (Value l)))).

(** [ORDER BY id ASC] and [ORDER BY id DESC] on two rows. *)
Definition id_ordered (o : SortOrder) (u v : User) : Prop :=
  match o with
  | ASC => id u <= id v
  | DESC => id v <= id u
  end.

#[global] Instance id_ordered_dec (o : SortOrder) (u v : User) : Decision (id_ordered o u v).
Proof. destruct o; simpl; apply _. Defined.

(** What [ORDER BY id] promises, whatever the rest of the query: the rows
    it was given, in the order of their ids. *)
Definition sorts_by_id
    (order_by : SortColumn → SortOrder → option (Z * Z) → list User → list User) : Prop :=
  ∀ o q rows,
    order_by by_id o q rows ≡ₚ rows
    ∧ StronglySorted (id_ordered o) (order_by by_id o q rows).

(** The filters ask for the sort by id: no [sortBy], or [sortBy: "id"]. *)
Definition sorted_by_id (f : UserFilters) : Prop :=
  default by_id (val (sortBy f)) = by_id.

(** The safe integers of JavaScript. *)
Definition safe_integer (z : Z) : Prop := Z.abs z <= 9007199254740991.

(** A database for the examples: it sorts by id, and leaves the rows in
    any other order as they are in a query without [LIMIT] and reversed in
    a query with one. *)
Definition example_order (c : SortColumn) (o : SortOrder) (q : option (Z * Z))
    (rows : list User) : list User :=
  match c with
  | by_id => merge_sort (id_ordered o) rows
  | _ => match q with Some _ => reverse rows | None => rows end
  end.

(** A paginated query for the users aged 40 and above, and the
    one row of [example_users] in its answer. *)
Definition example_age_filters : UserFilters :=
  {| f_role := Absent; f_status := Value EmptyString; minAge := Value 40;
     maxAge := Undefined;
     includeDeleted := Value true; sortBy := Absent; sortOrder := Absent;
     page := Value 1; limit := Value 2 |}.

Definition example_chi : User :=
  {| id := 3; name := "Chi"; email := "chi@example.com"; age := Some 45;
     role := "Manager"; status := "inactive"; deleted_at := None;
     created_at := 2; updated_at := 2 |}.

(** A request whose offset is beyond [bigint]: page 10^17 of 100 rows. *)
Definition example_far_page : UserFilters :=
  {| f_role := Absent; f_status := Absent; minAge := Absent; maxAge := Absent;
     includeDeleted := Absent; sortBy := Absent; sortOrder := Absent;
     page := Value (10 ^ 17); limit := Value 100 |}.

End UserPages.

(** ** Problem 5: the user table and the user service
    (models/user.model.ts, services/user.service.ts)

    The table is a list of rows with the sequence behind [id SERIAL]; the
    constraints are those of the migration shown in the README: primary
    key, [email UNIQUE], the [VARCHAR] lengths and [age INTEGER].  A
    statement is refused as a whole when one of its parameters cannot be
    read, then when a value does not fit its column, both before any row
    or the sequence is touched; the unique keys are checked when the row
    is written. *)

Module UserStore.
Import Problem5.

Record Db := {
  rows : list User;
  next_id : Z
}.

(** [interface CreateUserDTO] and [interface UpdateUserDTO]. *)
Record CreateUserDTO := {
  c_name : string;
  c_email : string;
  c_age : option Z;
  c_role : string;
  c_status : option string
}.

Record UpdateUserDTO := {
  u_name : option string;
  u_email : option string;
  u_age : option Z;
  u_role : option string;
  u_status : option string
}.

(** [AND deleted_at IS NULL], unless deleted rows are asked for. *)
Definition visible (includeDeleted : bool) (u : User) : bool :=
  includeDeleted || bool_decide (deleted_at u = None).

(** [SELECT * FROM users WHERE id = $1], with [AND deleted_at IS NULL]
    unless deleted rows are asked for, then [result.rows[0] || null]. *)
Definition select_by_id (db : Db) (i : Z) (includeDeleted : bool) : option User :=
  head (filter (λ u, id u = i ∧ visible includeDeleted u = true) (rows db)).

(** [UserModel.findById]; [id] is an [INTEGER] column. *)
Definition findById (db : Db) (i : Z) (includeDeleted : bool) : Thrown + option User :=
  match bind [integer int4 i] with
  | Some e => inl (PgError e)
  | None => inr (select_by_id db i includeDeleted)
  end.

Definition select_by_email (db : Db) (e : string) (includeDeleted : bool) : option User :=
  head (filter (λ u, email u = e ∧ visible includeDeleted u = true) (rows db)).

(** [UserModel.findByEmail]. *)
Definition findByEmail (db : Db) (e : string) (includeDeleted : bool)
  : Thrown + option User :=
  match bind [text e] with
  | Some t => inl (PgError t)
  | None => inr (select_by_email db e includeDeleted)
  end.

(** Storing a string in a [VARCHAR(n)] column: a string of at most [n]
    characters is stored as it is; a longer one is cut to [n] characters
    when all that is cut is spaces, and refused otherwise. *)
Definition varchar (n : nat) (s : string) : option string :=
  let l := String.list_ascii_of_string s in
  if forallb (λ a, bool_decide (a = " "%char)) (drop n l)
  then Some (String.string_of_list_ascii (take n l))
  else None.

(** [data.age || null] *)
Definition age_or_null (a : option Z) : option Z :=
  match a with
  | Some a => if decide (a = 0) then None else Some a
  | None => None
  end.

(** [data.status || "active"] *)
Definition status_or_active (s : option string) : string :=
  match s with
  | Some s => if decide (s = EmptyString) then "active"%string else s
  | None => "active"%string
  end.

Definition int4_or_null (a : option Z) : Param :=
  match a with
  | Some a => integer int4 a
  | None => null
  end.

(** The sequence behind [id SERIAL] gives the integers from 1 to the
    largest [INTEGER], each once. *)
Definition sequence_live (db : Db) : Prop := 1 <= next_id db <= int_max int4.

(** [UserModel.create]: [INSERT ... RETURNING *] with
    [data.age || null] and [data.status || "active"].  The id comes from
    the sequence, which has advanced when a unique key refuses the row. *)
Definition create (db : Db) (data : CreateUserDTO) (now : Z) : Db * (Thrown + User) :=
  let values := [text (c_name data); text (c_email data);
                 int4_or_null (age_or_null (c_age data));
                 text (c_role data); text (status_or_active (c_status data))] in
  match bind values with
  | Some e => (db, inl (PgError e))
  | None =>
      match varchar 255 (c_name data), varchar 255 (c_email data),
            varchar 100 (c_role data), varchar 50 (status_or_active (c_status data)) with
      | Some n, Some e, Some r, Some s =>
          if decide (¬ sequence_live db)
          then (db, inl (PgError sequence_exhausted))
          else
            let row :=
              {| id := next_id db; name := n; email := e;
                 age := age_or_null (c_age data); role := r; status := s;
                 deleted_at := None; created_at := now; updated_at := now |} in
            let db1 := {| rows := rows db; next_id := next_id db + 1 |} in
            if bool_decide (id row ∈ id <$> rows db)
            then (db1, inl (PgError users_pkey))
            else if bool_decide (email row ∈ email <$> rows db)
            then (db1, inl (PgError users_email_key))
            else ({| rows := rows db ++ [row]; next_id := next_id db + 1 |}, inr row)
      | _, _, _, _ => (db, inl (PgError value_too_long))
      end
  end.

(** The [SET] list of [UserModel.update]: the fields that are defined, and
    [updated_at = CURRENT_TIMESTAMP]. *)
Definition set_fields (data : UpdateUserDTO) (now : Z) (u : User) : User :=
  {| id := id u;
     name := default (name u) (u_name data);
     email := default (email u) (u_email data);
     age := match u_age data with Some a => Some a | None => age u end;
     role := default (role u) (u_role data);
     status := default (status u) (u_status data);
     deleted_at := deleted_at u;
     created_at := created_at u;
     updated_at := now |}.

(** [fields.length === 0] *)
Definition no_fields (data : UpdateUserDTO) : bool :=
  match u_name data, u_email data, u_age data, u_role data, u_status data with
  | None, None, None, None, None => true
  | _, _, _, _, _ => false
  end.

(** The parameters of the [UPDATE]: the defined fields in the order of the
    code, then the id. *)
Definition update_params (data : UpdateUserDTO) (i : Z) : list Param :=
  from_option (λ s, [text s]) [] (u_name data)
  ++ from_option (λ s, [text s]) [] (u_email data)
  ++ from_option (λ a, [integer int4 a]) [] (u_age data)
  ++ from_option (λ s, [text s]) [] (u_role data)
  ++ from_option (λ s, [text s]) [] (u_status data)
  ++ [integer int4 i].

Definition varchar_field (n : nat) (o : option string) : option (option string) :=
  match o with
  | Some s => Some <$> varchar n s
  | None => Some None
  end.

(** The values of an update as the columns store them, if they all fit. *)
Definition stored (data : UpdateUserDTO) : option UpdateUserDTO :=
  n ← varchar_field 255 (u_name data);
  e ← varchar_field 255 (u_email data);
  r ← varchar_field 100 (u_role data);
  s ← varchar_field 50 (u_status data);
  Some {| u_name := n; u_email := e; u_age := u_age data; u_role := r; u_status := s |}.

(** [UserModel.update]: with no field to set, [findById]; otherwise
    [UPDATE users SET ... WHERE id = $n RETURNING *], whatever
    [deleted_at] is. *)
Definition update (db : Db) (i : Z) (data : UpdateUserDTO) (now : Z)
  : Db * (Thrown + option User) :=
  if no_fields data then (db, findById db i false)
  else
    match bind (update_params data i) with
    | Some e => (db, inl (PgError e))
    | None =>
        match stored data with
        | None => (db, inl (PgError value_too_long))
        | Some values =>
            match head (filter (λ u, id u = i) (rows db)) with
            | None => (db, inr None)
            | Some old =>
                let new := set_fields values now old in
                if bool_decide (email new ∈ email <$> filter (λ u, id u ≠ i) (rows db))
                then (db, inl (PgError users_email_key))
                else
                  ({| rows := (λ u, if decide (id u = i) then set_fields values now u
                                    else u) <$> rows db;
                      next_id := next_id db |},
                   inr (Some new))
            end
        end
    end.

Definition set_deleted_at (d : option Z) (u : User) : User :=
  {| id := id u; name := name u; email := email u; age := age u; role := role u;
     status := status u; deleted_at := d;
     created_at := created_at u; updated_at := updated_at u |}.

(** [UserModel.delete]: [UPDATE users SET deleted_at = CURRENT_TIMESTAMP
    WHERE id = $1 AND deleted_at IS NULL]; true iff a row was updated. *)
Definition delete (db : Db) (i : Z) (now : Z) : Db * (Thrown + bool) :=
  match bind [integer int4 i] with
  | Some e => (db, inl (PgError e))
  | None =>
      ({| rows := (λ u, if decide (id u = i ∧ deleted_at u = None)
                        then set_deleted_at (Some now) u else u) <$> rows db;
          next_id := next_id db |},
       inr (bool_decide (Exists (λ u, id u = i ∧ deleted_at u = None) (rows db))))
  end.

(** [UserModel.restore]: [UPDATE users SET deleted_at = NULL WHERE id = $1
    AND deleted_at IS NOT NULL RETURNING *]. *)
Definition restore (db : Db) (i : Z) : Db * (Thrown + option User) :=
  match bind [integer int4 i] with
  | Some e => (db, inl (PgError e))
  | None =>
      ({| rows := (λ u, if decide (id u = i ∧ deleted_at u ≠ None)
                        then set_deleted_at None u else u) <$> rows db;
          next_id := next_id db |},
       inr (set_deleted_at None
              <$> head (filter (λ u, id u = i ∧ deleted_at u ≠ None) (rows db))))
  end.

(** [UserModel.hardDelete]: [DELETE FROM users WHERE id = $1]. *)
Definition hardDelete (db : Db) (i : Z) : Db * (Thrown + bool) :=
  match bind [integer int4 i] with
  | Some e => (db, inl (PgError e))
  | None =>
      ({| rows := filter (λ u, id u ≠ i) (rows db); next_id := next_id db |},
       inr (bool_decide (Exists (λ u, id u = i) (rows db))))
  end.

(** *** The service's validation *)

(** White space of [trim()] and of [\s], among the code units below 256. *)
Definition is_space (a : Ascii.ascii) : bool :=
  bool_decide (Ascii.nat_of_ascii a ∈ [9; 10; 11; 12; 13; 32; 160]%nat).

(** [!s || s.trim().length === 0] *)
Definition blank (s : string) : bool :=
  forallb is_space (String.list_ascii_of_string s).

(** The class [[^\s@]]. *)
Definition atom (a : Ascii.ascii) : bool :=
  negb (is_space a) && negb (bool_decide (a = "@"%char)).

(** What [/^[^\s@]+@[^\s@]+\.[^\s@]+$/] accepts: three non-empty runs of
    atoms, separated by an at sign and by a dot. *)
Definition email_shape (l : list Ascii.ascii) : Prop :=
  ∃ a b c, l = a ++ ["@"%char] ++ b ++ ["."%char] ++ c
           ∧ a ≠ [] ∧ b ≠ [] ∧ c ≠ []
           ∧ forallb atom a = true ∧ forallb atom b = true ∧ forallb atom c = true.

(** A dot with at least one character after it. *)
Fixpoint dot_then_more (l : list Ascii.ascii) : bool :=
  match l with
  | [] => false
  | x :: r =>
      (bool_decide (x = "."%char) && negb (bool_decide (r = []))) || dot_then_more r
  end.

(** The text up to the first at sign, and the text after it. *)
Fixpoint split_at (l : list Ascii.ascii) : option (list Ascii.ascii * list Ascii.ascii) :=
  match l with
  | [] => None
  | x :: r =>
      if bool_decide (x = "@"%char) then Some ([], r)
      else match split_at r with
           | Some (a, d) => Some (x :: a, d)
           | None => None
           end
  end.

(** [emailRegex.test(email)], computed: a non-empty run of atoms, the at
    sign, then atoms only with a dot that is neither first nor last. *)
Definition emailRegex_test (s : string) : bool :=
  match split_at (String.list_ascii_of_string s) with
  | Some (a, d) =>
      negb (bool_decide (a = [])) && forallb atom a && forallb atom d
      && match d with
         | [] => false
         | _ :: r => dot_then_more r
         end
  | None => false
  end.

(** [UserService.validateCreateData]: the message of the first check that
    fails, in the order of the source. *)
Definition validateCreateData (data : CreateUserDTO) : option string :=
  if blank (c_name data) then Some "Name is required"%string
  else if blank (c_email data) then Some "Email is required"%string
  else if negb (emailRegex_test (c_email data)) then Some "Invalid email format"%string
  else if match c_age data with
          | Some a => bool_decide (a < 0) || bool_decide (a > 150)
          | None => false
          end
       then Some "Age must be between 0 and 150"%string
  else if blank (c_role data) then Some "Role is required"%string
  else None.

(** [UserService.createUser]. *)
Definition createUser (db : Db) (data : CreateUserDTO) (now : Z) : Db * (Thrown + User) :=
  match validateCreateData data with
  | Some msg => (db, inl (JsError msg))
  | None =>
      match findByEmail db (c_email data) false with
      | inl e => (db, inl e)
      | inr (Some _) => (db, inl (JsError "Email already exists"))
      | inr None => create db data now
      end
  end.

(** [data.email && data.email !== existing.email]: the new e-mail that
    the service looks up before an update, if any. *)
Definition email_to_check (data : UpdateUserDTO) (existing : User) : option string :=
  match u_email data with
  | Some e => if bool_decide (e ≠ EmptyString ∧ e ≠ email existing) then Some e else None
  | None => None
  end.

(** [UserService.updateUser]. *)
Definition updateUser (db : Db) (i : Z) (data : UpdateUserDTO) (now : Z)
  : Db * (Thrown + option User) :=
  match findById db i false with
  | inl e => (db, inl e)
  | inr None => (db, inr None)
  | inr (Some existing) =>
      match email_to_check data existing with
      | Some e =>
          match findByEmail db e false with
          | inl t => (db, inl t)
          | inr (Some _) => (db, inl (JsError "Email already exists"))
          | inr None => update db i data now
          end
      | None => update db i data now
      end
  end.

Definition getUserById (db : Db) (i : Z) : Thrown + option User := findById db i false.
Definition deleteUser (db : Db) (i : Z) (now : Z) : Db * (Thrown + bool) :=
  delete db i now.
Definition restoreUser (db : Db) (i : Z) : Db * (Thrown + option User) := restore db i.
Definition hardDeleteUser (db : Db) (i : Z) : Db * (Thrown + bool) := hardDelete db i.

(** The calls of the service that write the table. *)
Inductive Call :=
  | CreateUser (data : CreateUserDTO) (now : Z)
  | UpdateUser (i : Z) (data : UpdateUserDTO) (now : Z)
  | DeleteUser (i : Z) (now : Z)
  | RestoreUser (i : Z)
  | HardDeleteUser (i : Z).

Definition call (db : Db) (c : Call) : Db :=
  match c with
  | CreateUser data now => (createUser db data now).1
  | UpdateUser i data now => (updateUser db i data now).1
  | DeleteUser i now => (deleteUser db i now).1
  | RestoreUser i => (restoreUser db i).1
  | HardDeleteUser i => (hardDeleteUser db i).1
  end.

(** The state the primary key, the unique e-mail and the sequence keep: no
    id twice, no e-mail twice, every id below the next one. *)
Definition db_wf (db : Db) : Prop :=
  NoDup (id <$> rows db)
  ∧ NoDup (email <$> rows db)
  ∧ Forall (λ u, id u < next_id db) (rows db).

Definition empty_db : Db := {| rows := []; next_id := 1 |}.

(** A string that a [VARCHAR(n)] column takes as it is: no code unit 0,
    at most [n] characters. *)
Definition fits (n : nat) (s : string) : Prop :=
  has_nul s = false ∧ (String.length s <= n)%nat.

(** The values of a new user are stored as they are: the strings fit
    their columns. *)
Definition dto_fits (data : CreateUserDTO) : Prop :=
  fits 255 (c_name data)
  ∧ fits 255 (c_email data)
  ∧ fits 100 (c_role data)
  ∧ from_option (fits 50) True (c_status data).

(** The values of an update are stored as they are: the strings fit their
    columns and the age is an [INTEGER]. *)
Definition update_fits (data : UpdateUserDTO) : Prop :=
  from_option (fits 255) True (u_name data)
  ∧ from_option (fits 255) True (u_email data)
  ∧ from_option (in_range int4) True (u_age data)
  ∧ from_option (fits 100) True (u_role data)
  ∧ from_option (fits 50) True (u_status data).

(** What a [VARCHAR(n)] column holds after an [UPDATE] that sets it to
    the string given, if one is given. *)
Definition column_set (n : nat) (given : option string) (old new : string) : Prop :=
  match given with
  | Some s => varchar n s = Some new
  | None => new = old
  end.

(** A table for the examples: Ann is live, Bao was soft-deleted at 9. *)
Definition example_db : Db :=
  {| rows :=
       [{| id := 1; name := "Ann"; email := "ann@example.com"; age := Some 31;
           role := "Developer"; status := "active"; deleted_at := None;
           created_at := 0; updated_at := 0 |};
        {| id := 2; name := "Bao"; email := "bao@example.com"; age := None;
           role := "Designer"; status := "active"; deleted_at := Some 9;
           created_at := 1; updated_at := 9 |}];
     next_id := 3 |}.

Definition example_dto (n e : string) (a : option Z) : CreateUserDTO :=
  {| c_name := n; c_email := e; c_age := a; c_role := "Developer";
     c_status := None |}.

(** An update of the e-mail and the age only. *)
Definition example_update (e : string) (a : Z) : UpdateUserDTO :=
  {| u_name := None; u_email := Some e; u_age := Some a; u_role := None;
     u_status := None |}.

Definition ann : User :=
  {| id := 1; name := "Ann"; email := "ann@example.com"; age := Some 31;
     role := "Developer"; status := "active"; deleted_at := None;
     created_at := 0; updated_at := 0 |}.

Definition bao : User :=
  {| id := 2; name := "Bao"; email := "bao@example.com"; age := None;
     role := "Designer"; status := "active"; deleted_at := Some 9;
     created_at := 1; updated_at := 9 |}.

(** A name of 255 letters followed by three spaces, and a name with the
    code unit 0 in it. *)
Definition example_padded_name : string :=
  String.string_of_list_ascii (replicate 255 "a"%char ++ replicate 3 " "%char).

Definition example_nul_name : string :=
  String "A" (String Ascii.zero (String "n" EmptyString)).

End UserStore.

(** ** Problem 6: counting what the rate limiter lets through *)

Module RateLimitCount.
Import Scoreboard.

#[global] Instance Limited_eq_dec : EqDecision Limited.
Proof. solve_decision. Defined.

(** The number of commands allowed among some outcomes. *)
Definition count_allowed (outcomes : list Limited) : nat :=
  length (filter (λ o, o = Allowed) outcomes).

(** A counter of the limiter, where there is one for the user, is at
    least 1: [INCR] creates it at 1 and only adds to it. *)
Definition counter_ok (redis : gmap string RedisEntry) (userId : string) : Prop :=
  ∀ e, redis !! rate_limit_key userId = Some e → 1 <= value e.

(** One command of carol at 0, nine at 60 and ten at 61. *)
Definition example_burst : list (string * Z) :=
  replicate 9 ("carol"%string, 60) ++ replicate 10 ("carol"%string, 61).

End RateLimitCount.

(* ===================================================================== *)
(** * Part II: properties                                                 *)
(* ===================================================================== *)

(** ** Problem 4 *)

Section Problem4Facts.
Import Problem4.

(** Loop invariant of [sum_to_n_a]: entering the loop with counter [i]
    and accumulator [sum], it returns [sum + i + (i+1) + ... + n]. *)
Lemma sum_loop_spec (n i sum : Z) :
  i <= n + 1 → 2 * sum_loop n i sum = 2 * sum + n * (n + 1) - (i - 1) * i.
Proof.
  funelim (sum_loop n i sum); intros Hi.
  - match goal with IH : _ → 2 * sum_loop _ _ _ = _ |- _ => rewrite IH by lia end.
    lia.
  - assert (i = n + 1) as -> by lia. lia.
Qed.

Lemma sum_loop_skip (n i sum : Z) : n < i → sum_loop n i sum = sum.
Proof.
  intros Hi. rewrite sum_loop_equation_1.
  destruct (decide (i <= n)); [lia | reflexivity].
Qed.

Lemma sum_to_n_c_base (n : Z) : n <= 1 → sum_to_n_c n = n.
Proof.
  intros Hn. rewrite sum_to_n_c_equation_1.
  destruct (decide (n <= 1)); [reflexivity | lia].
Qed.

Lemma sum_to_n_c_rec (n : Z) : 1 < n → sum_to_n_c n = n + sum_to_n_c (n - 1).
Proof.
  intros Hn. rewrite sum_to_n_c_equation_1.
  destruct (decide (n <= 1)); [lia | reflexivity].
Qed.

Lemma sum_to_n_c_spec (n : Z) : 0 <= n → 2 * sum_to_n_c n = n * (n + 1).
Proof.
  intros Hn. revert n Hn.
  apply (natlike_ind (λ n, 2 * sum_to_n_c n = n * (n + 1))).
  - rewrite sum_to_n_c_base; lia.
  - intros n Hn IH. destruct (decide (n = 0)) as [-> | Hne].
    + rewrite sum_to_n_c_base; lia.
    + rewrite sum_to_n_c_rec by lia.
      replace (Z.succ n - 1) with n by lia. lia.
Qed.

Lemma half_exact (n s : Z) : 2 * s = n * (n + 1) → s = n * (n + 1) / 2.
Proof. intros <-. rewrite Z.mul_comm, Z.div_mul; lia. Qed.

Lemma sum_to_n_b_exact (n : Z) : 2 * sum_to_n_b n = n * (n + 1).
Proof.
  unfold sum_to_n_b.
  assert (n * (n + 1) mod 2 = 0) as Hev.
  { destruct (Z.even n) eqn:He.
    - apply Z.even_spec in He as [k ->].
      rewrite <- Z.mul_assoc, Z.mul_comm, Z.mod_mul; lia.
    - assert (Z.odd n = true) as Ho by (rewrite <- Z.negb_even, He; done).
      apply Z.odd_spec in Ho as [k ->].
      replace ((2 * k + 1) * (2 * k + 1 + 1)) with ((2 * k + 1) * (k + 1) * 2) by lia.
      apply Z.mod_mul; lia. }
  pose proof (Z.div_mod (n * (n + 1)) 2 ltac:(lia)). lia.
Qed.

(** C8. On every natural number [n >= 0] the iterative, closed-form and
    recursive implementations return the same value, [n * (n + 1) / 2],
    and the division is exact; on a negative input they do not agree: the
    loop returns [0], the formula [n * (n + 1) / 2] and the recursion [n]
    itself. *)
Theorem sum_to_n_equivalence (n : Z) :
  (0 <= n →
     sum_to_n_a n = n * (n + 1) / 2
     ∧ sum_to_n_b n = n * (n + 1) / 2
     ∧ sum_to_n_c n = n * (n + 1) / 2
     ∧ 2 * (n * (n + 1) / 2) = n * (n + 1))
  ∧ (n < 0 →
     sum_to_n_a n = 0
     ∧ sum_to_n_b n = n * (n + 1) / 2
     ∧ sum_to_n_c n = n
     ∧ sum_to_n_a n ≠ sum_to_n_c n).
Proof.
  split; intros Hn.
  - repeat split.
    + apply half_exact. unfold sum_to_n_a. rewrite sum_loop_spec; lia.
    + apply half_exact, sum_to_n_c_spec, Hn.
    + apply (sum_to_n_b_exact n).
  - assert (sum_to_n_a n = 0) as Ha by (apply sum_loop_skip; lia).
    assert (sum_to_n_c n = n) as Hc by (apply sum_to_n_c_base; lia).
    repeat split; [done | done | lia].
Qed.

Lemma sum_to_n_equivalence_witness :
  0 <= 5
  ∧ (sum_to_n_a 5 = 5 * (5 + 1) / 2
     ∧ sum_to_n_b 5 = 5 * (5 + 1) / 2
     ∧ sum_to_n_c 5 = 5 * (5 + 1) / 2
     ∧ 2 * (5 * (5 + 1) / 2) = 5 * (5 + 1))
  ∧ -3 < 0
  ∧ (sum_to_n_a (-3) = 0
     ∧ sum_to_n_b (-3) = -3 * (-3 + 1) / 2
     ∧ sum_to_n_c (-3) = -3
     ∧ sum_to_n_a (-3) ≠ sum_to_n_c (-3)).
Proof.
  split; [lia |]. split; [apply (sum_to_n_equivalence 5); lia |].
  split; [lia |]. apply (sum_to_n_equivalence (-3)). lia.
Defined.

Lemma sum_to_n_c_fuel_enough (fuel : nat) (n : Z) :
  (sum_to_n_c_calls n <= fuel)%nat → sum_to_n_c_fuel fuel n = Some (sum_to_n_c n).
Proof.
  revert n. induction fuel as [| fuel IH]; intros n Hf; unfold sum_to_n_c_calls in *.
  - lia.
  - simpl. destruct (decide (n <= 1)).
    + by rewrite sum_to_n_c_base.
    + rewrite IH by (unfold sum_to_n_c_calls; lia).
      by rewrite (sum_to_n_c_rec n) by lia.
Qed.

Lemma sum_to_n_c_fuel_short (fuel : nat) (n : Z) :
  (fuel < sum_to_n_c_calls n)%nat → sum_to_n_c_fuel fuel n = None.
Proof.
  revert n. induction fuel as [| fuel IH]; intros n Hf; unfold sum_to_n_c_calls in *.
  - reflexivity.
  - simpl. destruct (decide (n <= 1)); [lia |].
    rewrite IH; [done | unfold sum_to_n_c_calls; lia].
Qed.

(** C9. [sum_to_n_c] returns on every integer input: [n <= 1] returns [n]
    at once (one call), and a call on [n > 1] makes exactly one recursive
    call, on [n - 1]; the recursion comes back after [1 + (n - 1)] nested
    calls for [n >= 1] and after one call for [n <= 1], with the value of
    the total function, and no smaller depth suffices. *)
Theorem sum_to_n_c_terminates (n : Z) :
  (∀ fuel, (sum_to_n_c_calls n <= fuel)%nat →
           sum_to_n_c_fuel fuel n = Some (sum_to_n_c n))
  ∧ (∀ fuel, (fuel < sum_to_n_c_calls n)%nat → sum_to_n_c_fuel fuel n = None)
  ∧ (n <= 1 → sum_to_n_c_calls n = 1%nat ∧ sum_to_n_c_fuel 1 n = Some n)
  ∧ (1 < n → sum_to_n_c_calls n = S (sum_to_n_c_calls (n - 1))
             ∧ sum_to_n_c n = n + sum_to_n_c (n - 1)).
Proof.
  split; [| split; [| split]].
  - intros fuel. apply sum_to_n_c_fuel_enough.
  - intros fuel. apply sum_to_n_c_fuel_short.
  - intros Hn. unfold sum_to_n_c_calls. split; [lia |].
    simpl. destruct (decide (n <= 1)); [done | lia].
  - intros Hn. unfold sum_to_n_c_calls. split; [lia |].
    by apply sum_to_n_c_rec.
Qed.

Lemma sum_to_n_c_terminates_witness :
  (sum_to_n_c_calls 4 <= 4)%nat
  ∧ sum_to_n_c_fuel 4 4 = Some (sum_to_n_c 4)
  ∧ (3 < sum_to_n_c_calls 4)%nat
  ∧ sum_to_n_c_fuel 3 4 = None
  ∧ -7 <= 1
  ∧ sum_to_n_c_fuel 1 (-7) = Some (-7)
  ∧ 1 < 4
  ∧ sum_to_n_c 4 = 4 + sum_to_n_c (4 - 1).
Proof.
  destruct (sum_to_n_c_terminates 4) as (Hup & Hlow & _ & Hrec).
  destruct (sum_to_n_c_terminates (-7)) as (_ & _ & Hbase & _).
  assert (sum_to_n_c_calls 4 = 4%nat) as Hcalls by reflexivity.
  split; [lia |]. split; [apply Hup; lia |].
  split; [lia |]. split; [apply Hlow; lia |].
  split; [lia |]. split; [apply Hbase; lia |].
  split; [lia |]. apply Hrec. lia.
Defined.

End Problem4Facts.

(** ** Problem 5 *)

Section Problem5Facts.
Import Problem5 UserPages.

(** [Math.ceil] of a quotient by a positive integer is the least integer
    whose product with the divisor reaches the dividend. *)
Lemma ceil_div_spec (a b : Z) :
  0 < b → (ceil_div a b - 1) * b < a <= ceil_div a b * b.
Proof.
  intros Hb. unfold ceil_div.
  set (x := (inject_Z a / inject_Z b)%Q).
  assert (0 < inject_Z b)%Q as HbQ.
  { change 0%Q with (inject_Z 0). rewrite <- Zlt_Qlt. exact Hb. }
  assert (x * inject_Z b == inject_Z a)%Q as Hx.
  { unfold x. rewrite Qmult_comm. apply Qmult_div_r. intros Heq.
    rewrite Heq in HbQ. by apply Qlt_irrefl in HbQ. }
  pose proof (Qle_ceiling x) as Hle.
  pose proof (Qceiling_lt x) as Hlt.
  split.
  - rewrite Zlt_Qlt, inject_Z_mult, <- Hx.
    apply Qmult_lt_compat_r; [exact HbQ | exact Hlt].
  - rewrite Zle_Qle, inject_Z_mult, <- Hx.
    apply Qmult_le_compat_r; [exact Hle | by apply Qlt_le_weak].
Qed.

Lemma ceil_div_unique (a b t : Z) :
  0 < b → (t - 1) * b < a <= t * b → t = ceil_div a b.
Proof.
  intros Hb Ht. pose proof (ceil_div_spec a b Hb). nia.
Qed.

Lemma bind_app (ps qs : list Param) :
  bind (ps ++ qs) = match bind ps with Some e => Some e | None => bind qs end.
Proof.
  unfold bind. rewrite omap_app. by destruct (omap bind_param ps).
Qed.

Lemma bind_integer (t : IntType) (z : Z) :
  bind_param (integer t z) = None ↔ in_range t z.
Proof. simpl. repeat case_decide; naive_solver. Qed.

(** The [WHERE] clause does not look at [page] and [limit]. *)
Lemma sanitized_where (f : UserFilters) (p l : Z) :
  where_params (Some (sanitized f p l)) = where_params (Some f)
  ∧ ∀ u, matches (Some (sanitized f p l)) u = matches (Some f) u.
Proof. split; [reflexivity | intros u; reflexivity]. Qed.

(** A refused filter parameter is refused in both queries. *)
Lemma findAll_where_fault (users : list User)
    (order_by : SortColumn → SortOrder → option (Z * Z) → list User → list User)
    (f : option UserFilters) (e : PgFault) :
  bind (where_params f) = Some e →
  count users f = inl (PgError e) ∧ findAll users order_by f = inl (PgError e).
Proof.
  intros He. unfold count, findAll. by rewrite bind_app, He.
Qed.

(** The paginated branch of [getAllUsers], written out. *)
Lemma getAllUsers_paged (users : list User)
    (order_by : SortColumn → SortOrder → option (Z * Z) → list User → list User)
    (f : UserFilters) (p l : Z) :
  val (page f) = Some p →
  val (limit f) = Some l →
  let P := Z.max 1 p in
  let L := Z.max 1 (Z.min 100 l) in
  getAllUsers users order_by (Some f)
  = match bind (where_params (Some f)) with
    | Some e => inl (PgError e)
    | None =>
        match bind_param (integer int8 ((P - 1) * L)) with
        | Some e => inl (PgError e)
        | None =>
            let rows := filter (λ u, matches (Some f) u = true) users in
            let total := Z.of_nat (length rows) in
            inr (inr {| success := true;
                        data := take (Z.to_nat L)
                                  (drop (Z.to_nat ((P - 1) * L))
                                     (order_by (default by_id (val (sortBy f)))
                                               (default DESC (val (sortOrder f)))
                                               (Some (L, (P - 1) * L)) rows));
                        pagination :=
                          {| currentPage := P;
                             pageSize := L;
                             totalCount := total;
                             totalPages := ceil_div total L;
                             hasNextPage := bool_decide (P < ceil_div total L);
                             hasPreviousPage := bool_decide (P > 1) |};
                        filters := responseFilters (sanitized f P L) |})
        end
    end.
Proof.
  intros Hp Hl P L. unfold getAllUsers.
  change (opt page (Some f)) with (val (page f)).
  change (opt limit (Some f)) with (val (limit f)).
  rewrite Hp, Hl. cbv zeta. fold P L.
  unfold count, findAll.
  destruct (sanitized_where f P L) as [-> Hm].
  rewrite bind_app.
  destruct (bind (where_params (Some f))) as [e |]; [done |].
  change (paging (Some (sanitized f P L))) with (Some (L, (P - 1) * L)).
  cbn [paging_params].
  assert (bind [integer int8 L; integer int8 ((P - 1) * L)]
          = bind_param (integer int8 ((P - 1) * L))) as ->.
  { assert (bind_param (integer int8 L) = None) as HL
      by (apply bind_integer; unfold in_range; simpl; lia).
    unfold bind. cbn [omap list_omap]. rewrite HL.
    by destruct (bind_param (integer int8 ((P - 1) * L))). }
  destruct (bind_param (integer int8 ((P - 1) * L))) as [e |] eqn:Hoff; [done |].
  assert (1 <= P ∧ 1 <= L) as [HP HL] by lia.
  rewrite decide_False by nia. rewrite decide_False by lia.
  change (opt sortBy (Some (sanitized f P L))) with (val (sortBy f)).
  change (opt sortOrder (Some (sanitized f P L))) with (val (sortOrder f)).
  rewrite (list_filter_iff _ (λ u, matches (Some f) u = true))
    by (intros u; by rewrite Hm).
  reflexivity.
Qed.

(** C10. When both [page] and [limit] are defined, every response of
    [getAllUsers] is a paginated one whose metadata are: the requested page
    raised to at least 1; the requested limit forced into 1..100; the
    number of matching users; the ceiling of count over page size (the
    least number of pages that holds all rows); a next page iff the
    current page is before the last; a previous page iff the current page
    is after the first.  The response is there whenever the database
    accepts the filters' parameters and the page is a safe integer; the
    call throws when a filter parameter is refused, and when the offset
    [(currentPage - 1) * pageSize] is beyond [bigint]. *)
Theorem getAllUsers_pagination (users : list User)
    (order_by : SortColumn → SortOrder → option (Z * Z) → list User → list User)
    (f : UserFilters) (p l : Z) :
  val (page f) = Some p →
  val (limit f) = Some l →
  (∀ resp : PaginatedResponse,
     getAllUsers users order_by (Some f) = inr (inr resp) →
     currentPage (pagination resp) = Z.max 1 p
     ∧ pageSize (pagination resp) = Z.max 1 (Z.min 100 l)
     ∧ 1 <= pageSize (pagination resp) <= 100
     ∧ count users (Some f) = inr (totalCount (pagination resp))
     ∧ totalPages (pagination resp)
       = ceil_div (totalCount (pagination resp)) (pageSize (pagination resp))
     ∧ (totalPages (pagination resp) - 1) * pageSize (pagination resp)
         < totalCount (pagination resp)
         <= totalPages (pagination resp) * pageSize (pagination resp)
     ∧ hasNextPage (pagination resp)
       = bool_decide (currentPage (pagination resp) < totalPages (pagination resp))
     ∧ hasPreviousPage (pagination resp)
       = bool_decide (currentPage (pagination resp) > 1))
  ∧ (∀ us : list User, getAllUsers users order_by (Some f) ≠ inr (inl us))
  ∧ (bind (where_params (Some f)) = None → safe_integer p →
     ∃ resp : PaginatedResponse, getAllUsers users order_by (Some f) = inr (inr resp))
  ∧ (∀ e, bind (where_params (Some f)) = Some e →
          getAllUsers users order_by (Some f) = inl (PgError e))
  ∧ (int_max int8 < (Z.max 1 p - 1) * Z.max 1 (Z.min 100 l) →
     ∃ e, getAllUsers users order_by (Some f) = inl (PgError e)).
Proof.
  intros Hp Hl. rewrite (getAllUsers_paged users order_by f p l Hp Hl). cbv zeta.
  set (P := Z.max 1 p). set (L := Z.max 1 (Z.min 100 l)).
  split; [| split; [| split; [| split]]].
  - intros resp. unfold count.
    destruct (bind (where_params (Some f))) as [e |]; [done |].
    destruct (bind_param (integer int8 ((P - 1) * L))) as [e |]; [done |].
    intros [= <-]. simpl.
    repeat split; try lia; apply ceil_div_spec; lia.
  - intros us.
    destruct (bind (where_params (Some f))) as [e |]; [done |].
    by destruct (bind_param (integer int8 ((P - 1) * L))) as [e |].
  - intros -> Hsafe.
    assert (bind_param (integer int8 ((P - 1) * L)) = None) as ->.
    { apply bind_integer. unfold in_range, safe_integer in *. simpl. nia. }
    eauto.
  - by intros e ->.
  - intros Hfar.
    destruct (bind (where_params (Some f))) as [e |]; [eauto |].
    destruct (bind_param (integer int8 ((P - 1) * L))) as [e |] eqn:Hoff; [eauto |].
    apply bind_integer in Hoff. unfold in_range in Hoff. lia.
Qed.

Lemma getAllUsers_pagination_witness :
  val (page example_filters) = Some (-4)
  ∧ val (limit example_filters) = Some 250
  ∧ bind (where_params (Some example_filters)) = None
  ∧ safe_integer (-4)
  ∧ ∃ resp : PaginatedResponse,
      getAllUsers example_users (λ _ _ _ rows, rows) (Some example_filters)
      = inr (inr resp)
      ∧ currentPage (pagination resp) = 1
      ∧ pageSize (pagination resp) = 100
      ∧ totalCount (pagination resp) = 2
      ∧ totalPages (pagination resp) = 1
      ∧ hasNextPage (pagination resp) = false
      ∧ hasPreviousPage (pagination resp) = false.
Proof.
  assert (safe_integer (-4)) as Hsafe by (unfold safe_integer; lia).
  split; [reflexivity |]. split; [reflexivity |]. split; [reflexivity |].
  split; [exact Hsafe |].
  destruct (getAllUsers_pagination example_users (λ _ _ _ rows, rows)
              example_filters (-4) 250 eq_refl eq_refl)
    as (Hmeta & _ & Hthere & _).
  destruct (Hthere eq_refl Hsafe) as [resp Hresp].
  destruct (Hmeta resp Hresp)
    as (Hpage & Hsize & _ & Hcount & Hpages & Hceil & Hnext & Hprev).
  exists resp. split; [exact Hresp |].
  assert (currentPage (pagination resp) = 1) as Hp1 by (rewrite Hpage; reflexivity).
  assert (pageSize (pagination resp) = 100) as Hs1 by (rewrite Hsize; reflexivity).
  assert (totalCount (pagination resp) = 2) as Hc1
    by (vm_compute in Hcount; by injection Hcount).
  assert (totalPages (pagination resp) = 1) as Ht1 by (rewrite Hs1, Hc1 in Hceil; lia).
  split; [exact Hp1 |]. split; [exact Hs1 |]. split; [exact Hc1 |].
  split; [exact Ht1 |].
  split.
  - rewrite Hnext, Hp1, Ht1. reflexivity.
  - rewrite Hprev, Hp1. reflexivity.
Defined.

(** Page 10^17 of 100 rows: the offset does not fit [bigint], and the call
    throws. *)
Example getAllUsers_far_page :
  getAllUsers example_users (λ _ _ _ rows, rows) (Some example_far_page)
  = inl (PgError (out_of_range int8)).
Proof. vm_compute. reflexivity. Qed.

End Problem5Facts.

(** ** Problem 6: the rank order and the Ranking Store *)

Section RankOrder.
Import Scoreboard.

Lemma string_ltb_irrefl (s : string) : String.ltb s s = false.
Proof.
  unfold String.ltb.
  pose proof (proj2 (String_as_OT.cmp_eq s s) eq_refl) as H.
  unfold String_as_OT.cmp in H. by rewrite H.
Qed.

Lemma string_ltb_trans (a b c : string) :
  String.ltb a b = true → String.ltb b c = true → String.ltb a c = true.
Proof.
  unfold String.ltb. intros Hab Hbc.
  destruct (String.compare a b) eqn:Eab; try discriminate.
  destruct (String.compare b c) eqn:Ebc; try discriminate.
  apply String_as_OT.cmp_lt in Eab, Ebc.
  pose proof (String_as_OT.lt_trans _ _ _ Eab Ebc) as Hac.
  apply String_as_OT.cmp_lt in Hac. unfold String_as_OT.cmp in Hac.
  by rewrite Hac.
Qed.

Lemma string_ltb_trichotomy (a b : string) :
  String.ltb a b = true ∨ a = b ∨ String.ltb b a = true.
Proof.
  unfold String.ltb. rewrite (String.compare_antisym a b).
  destruct (String.compare b a) eqn:E; simpl; auto.
  apply String.compare_eq_iff in E. auto.
Qed.

Lemma rank_lt_spec (a b : RankEntry) :
  rank_lt a b ↔
  entryScore b < entryScore a
  ∨ (entryScore a = entryScore b ∧ String.ltb (entryId a) (entryId b) = true).
Proof.
  unfold rank_lt, rank_ltb.
  rewrite orb_true_iff, andb_true_iff, !bool_decide_eq_true. tauto.
Qed.

Lemma rank_lt_irrefl (a : RankEntry) : ¬ rank_lt a a.
Proof.
  rewrite rank_lt_spec, string_ltb_irrefl. intros [? | [_ ?]]; [lia | done].
Qed.

#[local] Instance rank_lt_trans : Transitive rank_lt.
Proof.
  intros a b c. rewrite !rank_lt_spec.
  intros [Hab | [Hab Hab']] [Hbc | [Hbc Hbc']]; try (left; lia).
  right. split; [lia | by eapply string_ltb_trans].
Qed.

Lemma rank_lt_trichotomy (a b : RankEntry) : rank_lt a b ∨ a = b ∨ rank_lt b a.
Proof.
  rewrite !rank_lt_spec. destruct a as [sa ia], b as [sb ib]; simpl.
  destruct (Z.lt_trichotomy sa sb) as [? | [-> | ?]]; [auto | | auto].
  destruct (string_ltb_trichotomy ia ib) as [? | [-> | ?]]; auto.
Qed.

Lemma rank_lt_asym (a b : RankEntry) : rank_lt a b → ¬ rank_lt b a.
Proof.
  intros Hab Hba. apply (rank_lt_irrefl a). by etrans.
Qed.

Lemma rank_sorted_NoDup (l : list RankEntry) : StronglySorted rank_lt l → NoDup l.
Proof.
  induction 1 as [| a l Hl IH Ha]; constructor; [| done].
  intros Hin. rewrite Forall_forall in Ha.
  by apply (rank_lt_irrefl a), Ha.
Qed.

Lemma elem_of_rank_insert (e x : RankEntry) (l : list RankEntry) :
  x ∈ rank_insert e l ↔ x = e ∨ x ∈ l.
Proof.
  induction l as [| y l IH]; simpl.
  - set_solver.
  - destruct (rank_ltb e y); set_solver.
Qed.

Lemma rank_insert_sorted (e : RankEntry) (l : list RankEntry) :
  StronglySorted rank_lt l → e ∉ l → StronglySorted rank_lt (rank_insert e l).
Proof.
  induction 1 as [| y l Hl IH Hy]; intros Hnin; simpl.
  - repeat constructor.
  - destruct (rank_ltb e y) eqn:Hey.
    + constructor; [by constructor |].
      constructor; [done |].
      eapply Forall_impl; [exact Hy |]. intros z Hz. by trans y.
    + assert (rank_lt y e) as Hye.
      { destruct (rank_lt_trichotomy e y) as [H | [-> | H]]; [| | done].
        - unfold rank_lt in H. congruence.
        - exfalso. apply Hnin. by left. }
      constructor.
      * apply IH. intros Hin. apply Hnin. by right.
      * rewrite Forall_forall. intros z Hz.
        apply elem_of_rank_insert in Hz as [-> | Hz]; [done |].
        rewrite Forall_forall in Hy. by apply Hy.
Qed.

Lemma elem_of_rank_delete (e x : RankEntry) (l : list RankEntry) :
  NoDup l → x ∈ rank_delete e l ↔ x ∈ l ∧ x ≠ e.
Proof.
  induction 1 as [| y l Hy Hl IH]; simpl.
  - set_solver.
  - destruct (decide (y = e)) as [-> | Hne].
    + split.
      * intros Hx. split; [by right |]. by intros ->.
      * intros [[-> | Hx]%elem_of_cons Hxe]; done.
    + rewrite elem_of_cons, IH, elem_of_cons. naive_solver.
Qed.

Lemma rank_delete_sorted (e : RankEntry) (l : list RankEntry) :
  StronglySorted rank_lt l → StronglySorted rank_lt (rank_delete e l).
Proof.
  induction 1 as [| y l Hl IH Hy]; simpl; [constructor |].
  destruct (decide (y = e)); [done |].
  constructor; [done |].
  rewrite Forall_forall in *. intros z Hz. apply Hy.
  apply elem_of_rank_delete in Hz as [? _]; [done | by apply rank_sorted_NoDup].
Qed.

Lemma store_wf_init : store_wf (ranking init).
Proof.
  split; simpl; [constructor |].
  intros e. split; [by intros ?%elem_of_nil |].
  intros (p & Hp & _). by rewrite lookup_empty in Hp.
Qed.

(** The store's write keeps the invariant: the old key leaves, the new key
    enters at its place. *)
Lemma updateUserScore_wf (s : RankingStore) (userId : string) (newScore seq now : Z) :
  store_wf s → store_wf (updateUserScore s userId newScore seq now).
Proof.
  intros [Hsorted Hiff]. unfold updateUserScore.
  set (e := {| entryScore := newScore; entryId := userId |}).
  set (order1 := match participants s !! userId with
                 | Some p => rank_delete {| entryScore := score p; entryId := userId |} (order s)
                 | None => order s
                 end).
  assert (StronglySorted rank_lt order1) as Hsorted1.
  { unfold order1. destruct (participants s !! userId); [| done].
    by apply rank_delete_sorted. }
  assert (∀ x, x ∈ order1 ↔ x ∈ order s ∧ entryId x ≠ userId) as Hin1.
  { intros x. unfold order1. destruct (participants s !! userId) as [p |] eqn:Hp.
    - rewrite elem_of_rank_delete by (by apply rank_sorted_NoDup).
      split; intros [Hx Hne]; (split; [done |]).
      + intros Hid. apply Hne. apply Hiff in Hx as (q & Hq & Hsc).
        rewrite Hid, Hp in Hq. injection Hq as <-.
        destruct x as [sx ix]; simpl in *. by subst.
      + intros ->. by apply Hne.
    - split; [| by intros [? _]].
      intros Hx. split; [done |]. intros Hid.
      apply Hiff in Hx as (q & Hq & _). rewrite Hid, Hp in Hq. done. }
  split; simpl.
  - apply rank_insert_sorted; [done |].
    intros He%Hin1. by destruct He as [_ []].
  - intros x. rewrite elem_of_rank_insert, Hin1, Hiff.
    destruct (decide (entryId x = userId)) as [Hid | Hid].
    + rewrite Hid, lookup_insert_eq. split.
      * intros [-> | [_ []]]; [| done]. eexists. split; [done |]. done.
      * intros (p & [= <-] & Hsc). left.
        destruct x as [sx ix]; simpl in *. unfold e. by subst.
    + rewrite lookup_insert_ne by done. split.
      * intros [-> | [Hx _]]; [done | done].
      * intros Hx. right. done.
Qed.

(** In a well-formed store the order holds the participants' entries, each
    once. *)
Lemma store_wf_Permutation (s : RankingStore) :
  store_wf s → order s ≡ₚ entries_of (participants s).
Proof.
  intros [Hsorted Hiff]. apply NoDup_Permutation.
  - by apply rank_sorted_NoDup.
  - unfold entries_of. apply NoDup_fmap_2_strong; [| apply NoDup_map_to_list].
    intros [k1 p1] [k2 p2] H1 H2 [= Hs Hk]. simpl in *. subst k2.
    apply elem_of_map_to_list in H1, H2. congruence.
  - intros x. rewrite Hiff. unfold entries_of. rewrite list_elem_of_fmap. split.
    + intros (p & Hp & Hsc). exists (entryId x, p). split.
      * destruct x; simpl in *. by subst.
      * by apply elem_of_map_to_list.
    + intros ([k p] & -> & Hkp). apply elem_of_map_to_list in Hkp. simpl. eauto.
Qed.

Lemma store_wf_length (s : RankingStore) :
  store_wf s → length (order s) = size (participants s).
Proof.
  intros Hwf. rewrite (store_wf_Permutation s Hwf).
  unfold entries_of. by rewrite length_fmap, length_map_to_list.
Qed.

End RankOrder.

(** ** Problem 6: the engine's steps *)

Section EngineSteps.
Import Scoreboard.

(** After an invalidation, [get] rebuilds. *)
Lemma get_invalidate (cfg : Config) (s : RankingStore) (c : SnapshotCache) (now : Z) :
  get cfg s (invalidate c) now = rebuild cfg s (invalidate c) now.
Proof. reflexivity. Qed.

(** What [updateScoreboard] leaves behind and emits. *)
Lemma updateScoreboard_spec (cfg : Config) (st : Engine) (userId : string)
    (newScore seq now : Z) :
  let db := updateUserScore (ranking st) userId newScore seq now in
  let prev := topK (topKSize cfg) (ranking st) in
  let cur := topK (topKSize cfg) db in
  let snap := {| entries := cur; generation := lastGeneration (cache st) + 1;
                 createdAt := now |} in
  let event :=
    if inTop prev userId || inTop cur userId then
      Some {| leaderboard := cur; timestamp := now |}
    else None in
  updateScoreboard cfg st userId newScore seq now
  = ({| ranking := db;
        limiter := limiter st;
        cache := {| cached := Some snap;
                    lastGeneration := lastGeneration (cache st) + 1 |};
        bus := bus st ++ from_option (λ e, [e]) [] event |},
     event,
     {| noticeUser := userId;
        oldRank := rankOf userId (ranking st);
        newRank := rankOf userId db;
        noticeScore := newScore |}).
Proof. reflexivity. Qed.

Lemma process_inv (cfg : Config) (st : Engine) (cmd : Command) (now : Z)
    (st' : Engine) (r : Result) (ev : option ChangeEvent) :
  process cfg st cmd now = (st', r, ev) → process_case cfg st cmd now st' r ev.
Proof.
  unfold process.
  destruct (guard (ranking st) cmd) eqn:Hg;
    [| intros [= <- <- <-]; constructor; congruence
     | intros [= <- <- <-]; constructor; congruence].
  destruct (rate_limit (participantId cmd) now (limiter st)) as [lim1 a] eqn:Hl.
  destruct a; [| intros [= <- <- <-]; by econstructor].
  destruct (nextScore cfg _ (delta cmd)) as [n |] eqn:Hn;
    [| intros [= <- <- <-]; by econstructor].
  destruct (updateScoreboard _ _ _ _ _ _) as [[st2 event] notice] eqn:Hu.
  intros [= <- <- <-]. by econstructor.
Qed.

Lemma process_wf (cfg : Config) (st : Engine) (cmd : Command) (now : Z) :
  store_wf (ranking st) → store_wf (ranking (process cfg st cmd now).1.1).
Proof.
  intros Hwf.
  destruct (process cfg st cmd now) as [[st' r] ev] eqn:Hp; simpl.
  apply process_inv in Hp. destruct Hp as [| | | lim1 n st2 event notice _ _ _ Hu]; try done.
  rewrite updateScoreboard_spec in Hu. injection Hu as <- _ _. simpl.
  by apply updateUserScore_wf.
Qed.

Lemma query_ranking (cfg : Config) (st : Engine) (now : Z) :
  ranking (query cfg st now).1 = ranking st.
Proof. unfold query. by destruct (get _ _ _ _). Qed.

Lemma step_submit (cfg : Config) (st : Engine) (cmd : Command) (now : Z) :
  step cfg st (Submit cmd now)
  = ((process cfg st cmd now).1.1, Outcome (process cfg st cmd now).1.2).
Proof. simpl. by destruct (process cfg st cmd now) as [[? ?] ?]. Qed.

Lemma step_query (cfg : Config) (st : Engine) (now : Z) :
  step cfg st (Query now) = ((query cfg st now).1, Leaderboard (query cfg st now).2).
Proof. simpl. by destruct (query cfg st now) as [? ?]. Qed.

Lemma run_cons (cfg : Config) (st : Engine) (op : Op) (ops : list Op) :
  run cfg st (op :: ops)
  = ((run cfg (step cfg st op).1 ops).1,
     (step cfg st op).2 :: (run cfg (step cfg st op).1 ops).2).
Proof.
  simpl. destruct (step cfg st op) as [st1 r]. simpl.
  by destruct (run cfg st1 ops) as [st2 rs].
Qed.

(** A property of the engine kept by every step holds along every run. *)
Lemma run_invariant (P : Engine → Prop) (cfg : Config) :
  (∀ st op, P st → P (step cfg st op).1) →
  ∀ ops st, P st → P (run cfg st ops).1.
Proof.
  intros Hstep ops. induction ops as [| op ops IH]; intros st HP; [done |].
  rewrite run_cons. simpl. by apply IH, Hstep.
Qed.

(** Only [process] writes the store: a property of the store kept by
    [process] is kept by every step. *)
Lemma step_ranking_invariant (P : RankingStore → Prop) (cfg : Config) :
  (∀ st cmd now, P (ranking st) → P (ranking (process cfg st cmd now).1.1)) →
  ∀ st op, P (ranking st) → P (ranking (step cfg st op).1).
Proof.
  intros Hproc st [cmd now | now] HP.
  - rewrite step_submit. by apply Hproc.
  - rewrite step_query. simpl. by rewrite query_ranking.
Qed.

Lemma run_wf (cfg : Config) (ops : list Op) (st : Engine) :
  store_wf (ranking st) → store_wf (ranking (run cfg st ops).1).
Proof.
  apply (run_invariant (λ st, store_wf (ranking st))).
  apply step_ranking_invariant, process_wf.
Qed.

End EngineSteps.

(** ** Problem 6: the Idempotency Guard *)

Section Idempotency.
Import Scoreboard.

Lemma guard_accepted_iff (s : RankingStore) (cmd : Command) :
  guard s cmd = Accepted ↔
  match participants s !! participantId cmd with
  | None => True
  | Some p => lastSeq p < commandId cmd
  end.
Proof.
  unfold guard. destruct (participants s !! participantId cmd) as [p |]; [| done].
  repeat case_decide; split; (done || lia).
Qed.

Lemma guard_seen (s : RankingStore) (cmd : Command) :
  seen s (participantId cmd) (commandId cmd) → guard s cmd ≠ Accepted.
Proof.
  intros (p & Hp & Hle). rewrite guard_accepted_iff, Hp. lia.
Qed.

Lemma process_seen_mono (cfg : Config) (st : Engine) (cmd : Command) (now : Z)
    (pid : string) (seq : Z) :
  seen (ranking st) pid seq → seen (ranking (process cfg st cmd now).1.1) pid seq.
Proof.
  intros Hseen.
  destruct (process cfg st cmd now) as [[st' r] ev] eqn:Hp; simpl.
  apply process_inv in Hp.
  destruct Hp as [| | | lim1 n st2 event notice Hg _ _ Hu]; try done.
  rewrite updateScoreboard_spec in Hu. injection Hu as <- _ _.
  unfold seen, updateUserScore. simpl.
  destruct Hseen as (p & Hp & Hle).
  destruct (decide (participantId cmd = pid)) as [<- | Hne].
  - eexists. rewrite lookup_insert_eq. split; [done |]. simpl.
    apply guard_accepted_iff in Hg. rewrite Hp in Hg. lia.
  - exists p. by rewrite lookup_insert_ne.
Qed.

Lemma step_seen_mono (cfg : Config) (st : Engine) (op : Op) (pid : string) (seq : Z) :
  seen (ranking st) pid seq → seen (ranking (step cfg st op).1) pid seq.
Proof.
  apply (step_ranking_invariant (λ s, seen s pid seq)).
  intros st0 cmd now. apply process_seen_mono.
Qed.

Lemma process_applied_seen (cfg : Config) (st : Engine) (cmd : Command) (now : Z)
    (st' : Engine) (n : Z) (rk : option nat) (ev : option ChangeEvent) :
  process cfg st cmd now = (st', Applied n rk, ev) →
  seen (ranking st') (participantId cmd) (commandId cmd).
Proof.
  intros Hp. apply process_inv in Hp.
  inversion Hp as [| | | lim1 n' st2 event notice Hg _ _ Hu]; subst.
  rewrite updateScoreboard_spec in Hu. injection Hu as <- _ _.
  unfold seen, updateUserScore. simpl.
  eexists. rewrite lookup_insert_eq. split; [done |]. simpl. lia.
Qed.

Lemma process_duplicate (cfg : Config) (st : Engine) (cmd : Command) (now : Z) :
  guard (ranking st) cmd ≠ Accepted →
  process cfg st cmd now = (st, RejectedDuplicate, None).
Proof.
  intros Hg. unfold process. by destruct (guard (ranking st) cmd).
Qed.

(** Once the command has been applied, every later submission of it is
    answered as a duplicate. *)
Lemma run_seen_rejects (cfg : Config) (ops : list Op) (st : Engine) (j : nat)
    (cmd : Command) (now : Z) :
  seen (ranking st) (participantId cmd) (commandId cmd) →
  ops !! j = Some (Submit cmd now) →
  (run cfg st ops).2 !! j = Some (Outcome RejectedDuplicate).
Proof.
  revert st j. induction ops as [| op ops IH]; intros st j Hseen Hj; [done |].
  rewrite run_cons. destruct j as [| j]; simpl in *.
  - injection Hj as ->. simpl.
    rewrite process_duplicate by (by apply guard_seen). done.
  - apply IH; [| done]. by apply step_seen_mono.
Qed.

(** C2 (as amended). The guard lets a command pass iff its sequence number
    is strictly greater than the participant's last applied one, and always
    for an unseen participant; a command that does not pass is answered
    [RejectedDuplicate]; and in every run, once a submission of a command
    has been answered [Applied], every later submission with the same
    participant and command id is answered [RejectedDuplicate], so that a
    command id is applied at most once. *)
Theorem duplicate_commands_rejected (cfg : Config) (st : Engine) (ops : list Op)
    (i j : nat) (ci cj : Command) (ti tj : Z) :
  (i < j)%nat →
  ops !! i = Some (Submit ci ti) →
  ops !! j = Some (Submit cj tj) →
  participantId ci = participantId cj →
  commandId ci = commandId cj →
  (∀ (s : RankingStore) (cmd : Command),
     guard s cmd = Accepted ↔
     match participants s !! participantId cmd with
     | None => True
     | Some p => lastSeq p < commandId cmd
     end)
  ∧ (∀ (st0 : Engine) (cmd : Command) (now : Z),
       (process cfg st0 cmd now).1.2 = RejectedDuplicate ↔
       guard (ranking st0) cmd ≠ Accepted)
  ∧ (is_applied <$> (run cfg st ops).2 !! i = Some true →
     (run cfg st ops).2 !! j = Some (Outcome RejectedDuplicate))
  ∧ ¬ (is_applied <$> (run cfg st ops).2 !! i = Some true
       ∧ is_applied <$> (run cfg st ops).2 !! j = Some true).
Proof.
  intros Hij Hi Hj Hpid Hcid.
  assert (is_applied <$> (run cfg st ops).2 !! i = Some true →
          (run cfg st ops).2 !! j = Some (Outcome RejectedDuplicate)) as Hmain.
  { clear -Hij Hi Hj Hpid Hcid.
    revert st i j Hij Hi Hj.
    induction ops as [| op ops IH]; intros st i j Hij Hi Hj; [done |].
    rewrite run_cons. destruct j as [| j]; [lia |].
    destruct i as [| i]; simpl in *.
    - injection Hi as ->. simpl.
      destruct (process cfg st ci ti) as [[st1 r] ev] eqn:Hp. simpl.
      destruct r; try done. intros _.
      apply process_applied_seen in Hp.
      apply (run_seen_rejects cfg ops st1 j cj tj); [| done].
      by rewrite <- Hpid, <- Hcid.
    - apply IH; [lia | done | done]. }
  split; [apply guard_accepted_iff |].
  split.
  - intros st0 cmd now. split.
    + intros Hr Hg.
      destruct (process cfg st0 cmd now) as [[st1 r] ev] eqn:Hp. simpl in Hr. subst r.
      apply process_inv in Hp. inversion Hp; subst; congruence.
    + intros Hg. by rewrite process_duplicate.
  - split; [exact Hmain |].
    intros [Ha Hb]. rewrite (Hmain Ha) in Hb. done.
Qed.


Lemma duplicate_commands_rejected_witness :
  (0 < 2)%nat
  ∧ [Submit (command "alice" 100 1 0) 0; Query 1; Submit (command "alice" 50 1 3) 3]
      !! 0%nat = Some (Submit (command "alice" 100 1 0) 0)
  ∧ [Submit (command "alice" 100 1 0) 0; Query 1; Submit (command "alice" 50 1 3) 3]
      !! 2%nat = Some (Submit (command "alice" 50 1 3) 3)
  ∧ (run example_cfg init
       [Submit (command "alice" 100 1 0) 0; Query 1; Submit (command "alice" 50 1 3) 3]).2
      !! 0%nat = Some (Outcome (Applied 100 (Some 1%nat)))
  ∧ (run example_cfg init
       [Submit (command "alice" 100 1 0) 0; Query 1; Submit (command "alice" 50 1 3) 3]).2
      !! 2%nat = Some (Outcome RejectedDuplicate).
Proof.
  split; [lia |]. split; [reflexivity |]. split; [reflexivity |].
  split; [vm_compute; reflexivity |].
  apply (duplicate_commands_rejected example_cfg init
           [Submit (command "alice" 100 1 0) 0; Query 1;
            Submit (command "alice" 50 1 3) 3]
           0 2 (command "alice" 100 1 0) (command "alice" 50 1 3) 0 3);
    [lia | reflexivity | reflexivity | reflexivity | reflexivity |].
  vm_compute. reflexivity.
Defined.

(** C2, as first stated, fails: a command that arrives after a later one
    of the same participant was applied is stale; submitted twice, it is
    rejected twice and applied never. *)
Lemma applied_exactly_once_counterexample :
  ¬ applied_exactly_once example_cfg
      [Submit (command "alice" 10 5 0) 0;
       Submit (command "alice" 10 3 1) 1;
       Submit (command "alice" 10 3 2) 2].
Proof.
  intros H. specialize (H "alice" 3). vm_compute in H.
  specialize (H ltac:(lia)). discriminate H.
Qed.

End Idempotency.

(** ** Problem 6: score bounds *)

Section ScoreBounds.
Import Scoreboard.

Lemma nextScore_spec (cfg : Config) (old : option Participant) (d n : Z) :
  nextScore cfg old d = Some n →
  n = Z.max 0 (from_option score 0 old + d) ∧ 0 <= n <= Z.max 0 (scoreCeiling cfg).
Proof.
  unfold nextScore. case_decide; [done |]. intros [= <-]. lia.
Qed.

Lemma updateUserScore_lookup (s : RankingStore) (userId : string) (n seq now : Z) :
  participants (updateUserScore s userId n seq now) !! userId
  = Some {| score := n; lastSeq := seq; lastUpdate := now |}.
Proof. unfold updateUserScore. simpl. apply lookup_insert_eq. Qed.

Lemma updateUserScore_lookup_ne (s : RankingStore) (userId other : string)
    (n seq now : Z) :
  userId ≠ other →
  participants (updateUserScore s userId n seq now) !! other = participants s !! other.
Proof. intros Hne. unfold updateUserScore. simpl. by apply lookup_insert_ne. Qed.

Lemma updateUserScore_nonneg (s : RankingStore) (userId : string) (n seq now : Z) :
  0 <= n → scores_nonneg s → scores_nonneg (updateUserScore s userId n seq now).
Proof.
  intros Hn Hs pid p. destruct (decide (userId = pid)) as [<- | Hne].
  - rewrite updateUserScore_lookup. by intros [= <-].
  - rewrite updateUserScore_lookup_ne by done. apply Hs.
Qed.

(** What an [Applied] answer says about the store. *)
Lemma process_applied (cfg : Config) (st : Engine) (cmd : Command) (now : Z)
    (st' : Engine) (n : Z) (rk : option nat) (ev : option ChangeEvent) :
  process cfg st cmd now = (st', Applied n rk, ev) →
  guard (ranking st) cmd = Accepted
  ∧ nextScore cfg (participants (ranking st) !! participantId cmd) (delta cmd) = Some n
  ∧ ranking st'
    = updateUserScore (ranking st) (participantId cmd) n (commandId cmd) now
  ∧ rk = rankOf (participantId cmd) (ranking st').
Proof.
  intros Hp. apply process_inv in Hp.
  inversion Hp as [| | | lim1 n' st2 event notice Hg _ Hn Hu]; subst.
  rewrite updateScoreboard_spec in Hu. injection Hu as <- _ <-. done.
Qed.

(** The store part of [process] is [applyDelta], once the limiter allows. *)
Lemma process_applyDelta (cfg : Config) (st : Engine) (cmd : Command) (now : Z)
    (st' : Engine) (n : Z) (rk : option nat) (ev : option ChangeEvent) :
  process cfg st cmd now = (st', Applied n rk, ev) →
  applyDelta cfg (ranking st) cmd now = (ranking st', NewScore n).
Proof.
  intros (Hg & Hn & -> & _)%process_applied.
  unfold applyDelta. by rewrite Hg, Hn.
Qed.

Lemma process_nonneg (cfg : Config) (st : Engine) (cmd : Command) (now : Z) :
  scores_nonneg (ranking st) → scores_nonneg (ranking (process cfg st cmd now).1.1).
Proof.
  intros Hs.
  destruct (process cfg st cmd now) as [[st' r] ev] eqn:Hp; simpl.
  destruct r as [n rk | | |];
    [| apply process_inv in Hp; by inversion Hp; subst ..].
  apply process_applied in Hp as (_ & Hn & -> & _).
  apply updateUserScore_nonneg; [| done].
  apply nextScore_spec in Hn. lia.
Qed.

Lemma step_nonneg (cfg : Config) (st : Engine) (op : Op) :
  scores_nonneg (ranking st) → scores_nonneg (ranking (step cfg st op).1).
Proof. apply (step_ranking_invariant scores_nonneg), process_nonneg. Qed.

Lemma run_nonneg (cfg : Config) (ops : list Op) (st : Engine) :
  scores_nonneg (ranking st) → scores_nonneg (ranking (run cfg st ops).1).
Proof.
  apply (run_invariant (λ st, scores_nonneg (ranking st))).
  intros st0 op. apply step_nonneg.
Qed.

(** A delta that takes the score below zero is not refused: it is applied,
    and the score stored is zero. *)
Lemma applyDelta_clamps (cfg : Config) (s : RankingStore) (cmd : Command) (now : Z) :
  guard s cmd = Accepted →
  0 <= scoreCeiling cfg →
  from_option score 0 (participants s !! participantId cmd) + delta cmd < 0 →
  applyDelta cfg s cmd now
  = (updateUserScore s (participantId cmd) 0 (commandId cmd) now, NewScore 0).
Proof.
  intros Hg Hc Hneg. unfold applyDelta, nextScore. rewrite Hg.
  case_decide; [lia |]. by rewrite Z.max_l by lia.
Qed.

Lemma process_clamps (cfg : Config) (st : Engine) (cmd : Command) (now : Z) :
  guard (ranking st) cmd = Accepted →
  (rate_limit (participantId cmd) now (limiter st)).2 = Allowed →
  0 <= scoreCeiling cfg →
  from_option score 0 (participants (ranking st) !! participantId cmd) + delta cmd < 0 →
  ∃ rk, (process cfg st cmd now).1.2 = Applied 0 rk
        ∧ score <$> participants (ranking (process cfg st cmd now).1.1) !! participantId cmd
          = Some 0.
Proof.
  intros Hg Hl Hc Hneg. unfold process. rewrite Hg.
  destruct (rate_limit (participantId cmd) now (limiter st)) as [lim1 a].
  simpl in Hl. subst a. unfold nextScore. case_decide; [lia |].
  rewrite Z.max_l by lia. rewrite updateScoreboard_spec. cbn [fst snd ranking].
  eexists. split; [done |]. by rewrite updateUserScore_lookup.
Qed.

(** C7. Scores never go below zero.  After any sequence of operations on a
    fresh engine every participant's score, and every score in the rank
    order, is at least zero; every operation keeps this; an applied delta
    stores exactly the old score plus the delta, or zero when that sum is
    negative; and a delta that would take the score below zero is applied,
    not refused: the command is answered [Applied 0] and zero is stored. *)
Theorem scores_never_negative (cfg : Config) (ops : list Op) :
  scores_nonneg (ranking (run cfg init ops).1)
  ∧ (∀ e, e ∈ order (ranking (run cfg init ops).1) → 0 <= entryScore e)
  ∧ (∀ (st : Engine) (op : Op),
       scores_nonneg (ranking st) → scores_nonneg (ranking (step cfg st op).1))
  ∧ (∀ (s s' : RankingStore) (cmd : Command) (now n : Z),
       applyDelta cfg s cmd now = (s', NewScore n) →
       n = Z.max 0 (from_option score 0 (participants s !! participantId cmd) + delta cmd)
       ∧ (from_option score 0 (participants s !! participantId cmd) + delta cmd < 0 →
          n = 0)
       ∧ score <$> participants s' !! participantId cmd = Some n)
  ∧ (∀ (st st' : Engine) (cmd : Command) (now n : Z) (rk : option nat)
       (ev : option ChangeEvent),
       process cfg st cmd now = (st', Applied n rk, ev) →
       applyDelta cfg (ranking st) cmd now = (ranking st', NewScore n))
  ∧ (∀ (s : RankingStore) (cmd : Command) (now : Z),
       guard s cmd = Accepted →
       0 <= scoreCeiling cfg →
       from_option score 0 (participants s !! participantId cmd) + delta cmd < 0 →
       applyDelta cfg s cmd now
       = (updateUserScore s (participantId cmd) 0 (commandId cmd) now, NewScore 0)
       ∧ score <$> participants (applyDelta cfg s cmd now).1 !! participantId cmd
         = Some 0)
  ∧ (∀ (st : Engine) (cmd : Command) (now : Z),
       guard (ranking st) cmd = Accepted →
       (rate_limit (participantId cmd) now (limiter st)).2 = Allowed →
       0 <= scoreCeiling cfg →
       from_option score 0 (participants (ranking st) !! participantId cmd)
         + delta cmd < 0 →
       ∃ rk, (process cfg st cmd now).1.2 = Applied 0 rk
             ∧ score <$> participants (ranking (process cfg st cmd now).1.1)
                         !! participantId cmd
               = Some 0).
Proof.
  assert (scores_nonneg (ranking (run cfg init ops).1)) as Hrun.
  { apply run_nonneg. intros pid p Hp. simpl in Hp. by rewrite lookup_empty in Hp. }
  split; [exact Hrun |]. split.
  { intros e He.
    pose proof (run_wf cfg ops init store_wf_init) as [_ Hiff].
    apply Hiff in He as (p & Hp & <-). by eapply Hrun. }
  split; [intros st op; apply step_nonneg |]. split.
  { intros s s' cmd now n. unfold applyDelta.
    destruct (guard s cmd); try done.
    destruct (nextScore cfg _ (delta cmd)) as [n' |] eqn:Hn; [| done].
    intros [= <- <-]. apply nextScore_spec in Hn as [-> _].
    split; [done |]. split; [lia |].
    by rewrite updateUserScore_lookup. }
  split; [intros st st' cmd now n rk ev; apply process_applyDelta |].
  split.
  - intros s cmd now Hg Hc Hneg.
    rewrite (applyDelta_clamps cfg s cmd now Hg Hc Hneg). split; [done |].
    cbn [fst]. by rewrite updateUserScore_lookup.
  - intros st cmd now. apply process_clamps.
Qed.

End ScoreBounds.

(** ** Problem 6: the store and the accepted deltas *)

Section AcceptedDeltas.
Import Scoreboard.

Lemma replay_Some (x : Z) (ds : list Z) :
  replay (Some x) ds = Some (foldl (λ s d, Z.max 0 (s + d)) x ds).
Proof.
  revert x. induction ds as [| d ds IH]; intros x; [done |].
  unfold replay in *. simpl. apply IH.
Qed.

(** Replayed from nothing, the deltas give no participant when there is
    none, and otherwise the score that starts from zero. *)
Lemma replay_None (ds : list Z) :
  replay None ds = if decide (ds = []) then None else Some (score_after ds).
Proof.
  destruct ds as [| d ds]; [done |].
  rewrite decide_False by done.
  change (replay None (d :: ds)) with (replay (Some (Z.max 0 (0 + d))) ds).
  by rewrite replay_Some.
Qed.

Lemma replay_app (o : option Z) (ds ds' : list Z) :
  replay o (ds ++ ds') = replay (replay o ds) ds'.
Proof. unfold replay. by rewrite foldl_app. Qed.

Lemma deltas_of_app (pid : string) (ds ds' : list (string * Z)) :
  deltas_of pid (ds ++ ds') = deltas_of pid ds ++ deltas_of pid ds'.
Proof. unfold deltas_of. by rewrite filter_app, fmap_app. Qed.

Lemma accepted_deltas_cons (op : Op) (ops : list Op) (r : Response) (rs : list Response) :
  accepted_deltas (op :: ops) (r :: rs)
  = from_option (λ d, [d]) [] (accepted op r) ++ accepted_deltas ops rs.
Proof. unfold accepted_deltas. simpl. by destruct (accepted op r). Qed.

Lemma deltas_of_single (pid q : string) (d : Z) :
  deltas_of pid [(q, d)] = if decide (q = pid) then [d] else [].
Proof. unfold deltas_of. rewrite filter_cons. simpl. by case_decide. Qed.

(** A command that is not answered [Applied] leaves the store as it is. *)
Lemma process_not_applied (cfg : Config) (st : Engine) (cmd : Command) (now : Z) :
  is_applied (Outcome (process cfg st cmd now).1.2) = false →
  ranking (process cfg st cmd now).1.1 = ranking st.
Proof.
  destruct (process cfg st cmd now) as [[st' r] ev] eqn:Hp. simpl.
  apply process_inv in Hp. by destruct Hp.
Qed.

(** One step of the engine, seen from one participant: the score is the
    one before, replayed over the delta the step accepted, if any. *)
Lemma step_scores (cfg : Config) (st : Engine) (op : Op) (pid : string) :
  score_of (ranking (step cfg st op).1) pid
  = replay (score_of (ranking st) pid)
      (deltas_of pid (from_option (λ d, [d]) [] (accepted op (step cfg st op).2))).
Proof.
  destruct op as [cmd now | now].
  - rewrite step_submit. cbn [fst snd accepted].
    destruct (process cfg st cmd now) as [[st' r] ev] eqn:Hp. cbn [fst snd].
    destruct (is_applied (Outcome r)) eqn:Happ.
    + destruct r as [n rk | | |]; try done.
      apply process_applied in Hp as (_ & Hn & -> & _).
      apply nextScore_spec in Hn as [-> _].
      cbn [is_applied from_option]. rewrite deltas_of_single. unfold score_of.
      destruct (decide (participantId cmd = pid)) as [<- | Hne].
      * rewrite updateUserScore_lookup.
        by destruct (participants (ranking st) !! participantId cmd).
      * by rewrite updateUserScore_lookup_ne.
    + pose proof (process_not_applied cfg st cmd now) as Hsame.
      rewrite Hp in Hsame. simpl in Hsame. by rewrite Hsame.
  - rewrite step_query. simpl. by rewrite query_ranking.
Qed.

(** The store is the replay of the accepted deltas (4.3): along a run each
    participant's score is the score before the run replayed over the
    participant's accepted deltas. *)
Lemma run_scores (cfg : Config) (ops : list Op) (st : Engine) (pid : string) :
  score_of (ranking (run cfg st ops).1) pid
  = replay (score_of (ranking st) pid)
      (deltas_of pid (accepted_deltas ops (run cfg st ops).2)).
Proof.
  revert st. induction ops as [| op ops IH]; intros st; [done |].
  rewrite run_cons. cbn [fst snd].
  rewrite accepted_deltas_cons, deltas_of_app, replay_app, IH.
  by rewrite <- step_scores.
Qed.

Lemma participants_of_deltas (pid : string) (ds : list (string * Z)) :
  pid ∈ participants_of ds ↔ deltas_of pid ds ≠ [].
Proof.
  unfold participants_of, deltas_of. rewrite elem_of_remove_dups.
  induction ds as [| [q d] ds IH]; simpl.
  - split; [by intros ?%elem_of_nil | done].
  - rewrite filter_cons, elem_of_cons. simpl.
    destruct (decide (q = pid)) as [-> | Hne]; simpl; [naive_solver |].
    rewrite <- IH. naive_solver.
Qed.

(** After a run on a fresh engine a participant exists iff one of its
    deltas was accepted, and its score is the clamped sum of them. *)
Lemma run_score_of (cfg : Config) (ops : list Op) (pid : string) :
  score_of (ranking (run cfg init ops).1) pid
  = if decide (pid ∈ participants_of (accepted_deltas ops (run cfg init ops).2))
    then Some (score_after (deltas_of pid (accepted_deltas ops (run cfg init ops).2)))
    else None.
Proof.
  rewrite run_scores.
  change (score_of (ranking init) pid) with (score <$> (∅ : gmap string Participant) !! pid).
  rewrite lookup_empty. simpl. rewrite replay_None.
  pose proof (participants_of_deltas pid (accepted_deltas ops (run cfg init ops).2)) as H.
  repeat case_decide; (done || tauto).
Qed.

Lemma expected_entries_NoDup (ds : list (string * Z)) : NoDup (expected_entries ds).
Proof.
  unfold expected_entries. apply NoDup_fmap_2_strong.
  - intros p q _ _ Heq. by injection Heq.
  - apply NoDup_remove_dups.
Qed.

(** C1. After any finite sequence of operations on a fresh engine, the
    participants are those with an accepted delta, each with the score its
    accepted deltas add up to (a sum below zero counting as zero); and a
    [topK n] with [n] at least the number of participants returns every
    one of them exactly once, in strict rank order: higher score first and,
    for equal scores, smaller id first. *)
Theorem topK_all_participants (cfg : Config) (ops : list Op) (n : nat) :
  (length (participants_of (accepted_deltas ops (run cfg init ops).2)) <= n)%nat →
  topK n (ranking (run cfg init ops).1)
    ≡ₚ expected_entries (accepted_deltas ops (run cfg init ops).2)
  ∧ topK n (ranking (run cfg init ops).1)
    ≡ₚ entries_of (participants (ranking (run cfg init ops).1))
  ∧ StronglySorted rank_lt (topK n (ranking (run cfg init ops).1))
  ∧ ∀ a b, rank_lt a b ↔
           entryScore b < entryScore a
           ∨ (entryScore a = entryScore b
              ∧ String.compare (entryId a) (entryId b) = Lt).
Proof.
  intros Hn.
  pose proof (run_wf cfg ops init store_wf_init) as Hwf.
  pose proof (run_score_of cfg ops) as Hscore.
  set (s := ranking (run cfg init ops).1) in *.
  set (ds := accepted_deltas ops (run cfg init ops).2) in *.
  assert (order s ≡ₚ expected_entries ds) as Hperm.
  { apply NoDup_Permutation.
    - apply rank_sorted_NoDup. by destruct Hwf.
    - apply expected_entries_NoDup.
    - intros e. destruct Hwf as [_ Hiff]. rewrite Hiff.
      unfold expected_entries. rewrite list_elem_of_fmap.
      specialize (Hscore (entryId e)). unfold score_of in Hscore. split.
      + intros (p & Hp & Hsc). rewrite Hp in Hscore. simpl in Hscore.
        case_decide as Hin; [| done]. injection Hscore as Hscore.
        exists (entryId e). split; [| done].
        destruct e as [se ie]. simpl in *. f_equal. lia.
      + intros (pid & -> & Hin). simpl in *.
        rewrite decide_True in Hscore by done.
        destruct (participants s !! pid) as [p |]; [| done].
        injection Hscore as Hscore. eauto. }
  assert (topK n s = order s) as ->.
  { unfold topK. apply take_ge. rewrite Hperm. unfold expected_entries.
    by rewrite length_fmap. }
  split; [exact Hperm |].
  split; [by apply store_wf_Permutation |].
  split; [by destruct Hwf |].
  intros a b. rewrite rank_lt_spec. unfold String.ltb.
  destruct (String.compare (entryId a) (entryId b)); naive_solver.
Qed.

End AcceptedDeltas.

(** ** Problem 6: the Change Notifier *)

Section ChangeNotifier.
Import Scoreboard.

Lemma sorted_lookup_lt {A : Type} (R : relation A) (l : list A) (i j : nat) (x y : A) :
  StronglySorted R l → (i < j)%nat → l !! i = Some x → l !! j = Some y → R x y.
Proof.
  intros Hs. revert i j. induction Hs as [| a l Hl IH Ha]; intros i j Hij Hi Hj; [done |].
  destruct j as [| j]; [lia |]. destruct i as [| i]; simpl in *.
  - injection Hi as ->. rewrite Forall_forall in Ha.
    apply Ha. by eapply list_elem_of_lookup_2.
  - apply (IH i j); [lia | done | done].
Qed.

Lemma inTop_elem (top : list RankEntry) (userId : string) :
  inTop top userId = true ↔ ∃ e, e ∈ top ∧ entryId e = userId.
Proof.
  unfold inTop. rewrite existsb_exists. split.
  - intros (e & He & Hid). exists e. split; [by apply list_elem_of_In |].
    by apply bool_decide_eq_true in Hid.
  - intros (e & He & Hid). exists e. split; [by apply list_elem_of_In |].
    by apply bool_decide_eq_true.
Qed.

(** A participant listed in the top-K has a score at or above the
    boundary. *)
Lemma inTop_boundary (k : nat) (s : RankingStore) (userId : string) (b : Z) :
  store_wf s →
  boundary k s = Some b →
  inTop (topK k s) userId = true →
  ∃ p, participants s !! userId = Some p ∧ b <= score p.
Proof.
  intros [Hsorted Hiff] Hb Hin.
  apply inTop_elem in Hin as (e & He & <-).
  unfold topK in He. apply list_elem_of_lookup in He as [i Hi].
  apply lookup_take_Some in Hi as [Hi Hik].
  destruct k as [| k']; [lia |]. simpl in Hb.
  destruct (order s !! k') as [eK |] eqn:HK; [| done]. injection Hb as <-.
  assert (e ∈ order s) as Hmem by (by eapply list_elem_of_lookup_2).
  apply Hiff in Hmem as (p & Hp & Hsc). exists p. split; [done |]. rewrite Hsc.
  destruct (decide (i = k')) as [-> | Hne].
  - rewrite HK in Hi. injection Hi as ->. lia.
  - assert (rank_lt e eK) as Hlt.
    { apply (sorted_lookup_lt rank_lt (order s) i k'); [done | lia | done | done]. }
    apply rank_lt_spec in Hlt. lia.
Qed.

(** C3. An accepted delta of a participant whose score is below the
    boundary (the Kth score) before the update and below it after the
    update publishes nothing: no event is returned and the bus is left as
    it was (Unranked to Unranked). *)
Theorem unranked_update_emits_nothing (cfg : Config) (st st' : Engine) (cmd : Command)
    (now n b b' : Z) (rk : option nat) (ev : option ChangeEvent) :
  store_wf (ranking st) →
  process cfg st cmd now = (st', Applied n rk, ev) →
  boundary (topKSize cfg) (ranking st) = Some b →
  (∀ p, participants (ranking st) !! participantId cmd = Some p → score p < b) →
  boundary (topKSize cfg) (ranking st') = Some b' →
  n < b' →
  ev = None ∧ bus st' = bus st.
Proof.
  intros Hwf Hp Hb Hold Hb' Hnew.
  pose proof (process_applied _ _ _ _ _ _ _ _ Hp) as (_ & _ & Hrank & _).
  assert (store_wf (ranking st')) as Hwf'
    by (rewrite Hrank; by apply updateUserScore_wf).
  assert (inTop (topK (topKSize cfg) (ranking st)) (participantId cmd) = false) as Hwas.
  { apply not_true_is_false. intros Hin.
    destruct (inTop_boundary _ _ _ _ Hwf Hb Hin) as (p & Hlook & Hle).
    specialize (Hold p Hlook). lia. }
  assert (inTop (topK (topKSize cfg) (ranking st')) (participantId cmd) = false) as His.
  { apply not_true_is_false. intros Hin.
    destruct (inTop_boundary _ _ _ _ Hwf' Hb' Hin) as (p & Hlook & Hle).
    rewrite Hrank, updateUserScore_lookup in Hlook. injection Hlook as <-.
    simpl in Hle. lia. }
  apply process_inv in Hp.
  inversion Hp as [| | | lim1 n' st2 event notice _ _ _ Hu]; subst.
  rewrite updateScoreboard_spec in Hu. simpl in Hu.
  injection Hu as <- <- _. simpl in *.
  rewrite Hwas, His. simpl. split; [done |]. by rewrite app_nil_r.
Qed.

End ChangeNotifier.

(** ** Problem 6: the events on the Fan-out Bus *)

Section PublishedEvents.
Import Scoreboard.

Lemma sorted_sublist {A : Type} (R : relation A) (l1 l2 : list A) :
  l1 `sublist_of` l2 → StronglySorted R l2 → StronglySorted R l1.
Proof.
  induction 1 as [| x l1 l2 Hsub IH | x l1 l2 Hsub IH]; intros Hs.
  - constructor.
  - apply StronglySorted_inv in Hs as [Hs Hx]. constructor; [by apply IH |].
    rewrite Forall_forall in *. intros y Hy. apply Hx. by eapply elem_of_sublist.
  - apply StronglySorted_inv in Hs as [Hs _]. by apply IH.
Qed.

(** What [process] does to the bus. *)
Lemma process_bus (cfg : Config) (st : Engine) (cmd : Command) (now : Z) :
  match process cfg st cmd now with
  | (st', _, Some ev) =>
      bus st' = bus st ++ [ev]
      ∧ leaderboard ev = topK (topKSize cfg) (ranking st')
      ∧ timestamp ev = now
  | (st', _, None) => bus st' = bus st
  end.
Proof.
  destruct (process cfg st cmd now) as [[st' r] ev] eqn:Hp.
  apply process_inv in Hp.
  destruct Hp as [| | | lim1 n st2 event notice _ _ _ Hu]; simpl; try done.
  rewrite updateScoreboard_spec in Hu. simpl in Hu.
  injection Hu as <- <- _. simpl.
  destruct (inTop _ _ || inTop _ _); simpl; [done |].
  by rewrite app_nil_r.
Qed.

Lemma query_bus (cfg : Config) (st : Engine) (now : Z) :
  bus (query cfg st now).1 = bus st.
Proof.
  unfold query, get, rebuild.
  by destruct (cached (cache st)) as [snap |]; [case_decide |].
Qed.

Lemma step_bus_prefix (cfg : Config) (st : Engine) (op : Op) :
  bus st `prefix_of` bus (step cfg st op).1.
Proof.
  destruct op as [cmd now | now].
  - rewrite step_submit. pose proof (process_bus cfg st cmd now) as H.
    destruct (process cfg st cmd now) as [[st' r] [ev |]]; simpl.
    + destruct H as (-> & _). by apply prefix_app_r.
    + by rewrite H.
  - rewrite step_query. simpl. by rewrite query_bus.
Qed.

Lemma run_app (cfg : Config) (ops ops' : list Op) (st : Engine) :
  (run cfg st (ops ++ ops')).1 = (run cfg (run cfg st ops).1 ops').1.
Proof.
  revert st. induction ops as [| op ops IH]; intros st; [done |].
  rewrite <- app_comm_cons, !run_cons. simpl. apply IH.
Qed.

(** Published events stay: the bus of a run is extended, never rewritten. *)
Lemma run_bus_prefix (cfg : Config) (ops : list Op) (st : Engine) :
  bus st `prefix_of` bus (run cfg st ops).1.
Proof.
  revert st. induction ops as [| op ops IH]; intros st; [done |].
  rewrite run_cons. simpl. etrans; [apply step_bus_prefix | apply IH].
Qed.

Lemma step_bus_wf (cfg : Config) (st : Engine) (op : Op) (t : Z) :
  t <= op_time op → bus_wf t st → bus_wf (op_time op) (step cfg st op).1.
Proof.
  intros Ht [Hs Hle].
  assert (Forall (λ e, timestamp e <= op_time op) (bus st)) as Hle'.
  { eapply Forall_impl; [exact Hle |]. simpl. intros e He. lia. }
  destruct op as [cmd now | now]; cbn [op_time] in *.
  - rewrite step_submit. pose proof (process_bus cfg st cmd now) as H.
    destruct (process cfg st cmd now) as [[st' r] [ev |]]; simpl.
    + destruct H as (Hb & _ & Hnow). split; rewrite Hb.
      * rewrite fmap_app. apply StronglySorted_app_2.
        -- intros t1 t2 Ht1 Ht2. apply list_elem_of_fmap in Ht1 as (e & -> & He).
           apply list_elem_of_singleton in Ht2 as ->.
           rewrite Forall_forall in Hle. specialize (Hle e He). simpl. lia.
        -- done.
        -- repeat constructor.
      * apply Forall_app_2; [done |]. constructor; [lia | constructor].
    + split; by rewrite H.
  - rewrite step_query. simpl. split; by rewrite query_bus.
Qed.

(** When the operations reach the engine in the order of the clock, the
    events are stamped in that order. *)
Lemma run_bus_wf (cfg : Config) (ops : list Op) (st : Engine) (t : Z) :
  bus_wf t st →
  StronglySorted Z.le (t :: (op_time <$> ops)) →
  StronglySorted Z.le (timestamp <$> bus (run cfg st ops).1).
Proof.
  revert st t. induction ops as [| op ops IH]; intros st t Hwf Hs.
  - by destruct Hwf.
  - rewrite run_cons. simpl.
    apply StronglySorted_inv in Hs as [Hs Ht]. simpl in *.
    apply Forall_cons in Ht as [Ht _].
    apply (IH _ (op_time op)); [by apply (step_bus_wf cfg st op t) | done].
Qed.

(** C4 (as amended).  Each publication appends to the bus one event that
    carries the whole top-K of the store as it is after the update, not a
    diff, and the time of the update; nothing else touches the bus, and a
    published event stays as it is.  The events carry no generation
    number: what orders them is their place on the bus, and their
    timestamps follow the clock, without being strictly increasing. *)
Theorem published_events_carry_topK (cfg : Config) (ops : list Op) :
  (∀ (st : Engine) (cmd : Command) (now : Z),
     match process cfg st cmd now with
     | (st', _, Some ev) =>
         bus st' = bus st ++ [ev]
         ∧ leaderboard ev = topK (topKSize cfg) (ranking st')
         ∧ timestamp ev = now
     | (st', _, None) => bus st' = bus st
     end)
  ∧ (∀ (st : Engine) (now : Z), bus (query cfg st now).1 = bus st)
  ∧ (∀ later : list Op,
       bus (run cfg init ops).1 `prefix_of` bus (run cfg init (ops ++ later)).1)
  ∧ (StronglySorted Z.le (op_time <$> ops) →
     StronglySorted Z.le (timestamp <$> bus (run cfg init ops).1)
     ∧ ∀ observed : list ChangeEvent,
         observed `sublist_of` bus (run cfg init ops).1 →
         StronglySorted Z.le (timestamp <$> observed)).
Proof.
  split; [intros st cmd now; apply process_bus |].
  split; [intros st now; apply query_bus |].
  split.
  - intros later. rewrite run_app. apply run_bus_prefix.
  - intros Hs.
    assert (StronglySorted Z.le (timestamp <$> bus (run cfg init ops).1)) as Hbus.
    { destruct ops as [| op ops]; [constructor |].
      apply (run_bus_wf cfg (op :: ops) init (op_time op)).
      - split; simpl; constructor.
      - constructor; [done |]. constructor; [lia |].
        simpl in Hs. by apply StronglySorted_inv in Hs as [_ ?]. }
    split; [exact Hbus |].
    intros observed Hsub. eapply sorted_sublist; [| exact Hbus].
    by apply fmap_sublist.
Qed.

(** C4, as first stated, fails: two updates that reach the engine at the
    same instant and leave the top-K as it is are published as two equal
    events, so no number read off the events is strictly increasing. *)
Lemma published_generations_counterexample : ¬ carries_generations example_cfg.
Proof.
  intros [gen Hgen]. specialize (Hgen example_same_instant).
  unfold generations_increase in Hgen.
  assert (bus (run example_cfg init example_same_instant).1
          = [{| leaderboard := [{| entryScore := 100; entryId := "A" |}];
                timestamp := 5 |};
             {| leaderboard := [{| entryScore := 100; entryId := "A" |}];
                timestamp := 5 |}]) as Hbus by (vm_compute; reflexivity).
  rewrite Hbus in Hgen. simpl in Hgen.
  apply StronglySorted_inv in Hgen as [_ Hlt].
  apply Forall_cons in Hlt as [Hlt _]. lia.
Qed.

End PublishedEvents.

(** ** Problem 6: the Snapshot Cache *)

Section SnapshotCacheFacts.
Import Scoreboard.

Lemma process_coherent (cfg : Config) (st : Engine) (cmd : Command) (now : Z) :
  cache_coherent cfg st → cache_coherent cfg (process cfg st cmd now).1.1.
Proof.
  intros Hc.
  destruct (process cfg st cmd now) as [[st' r] ev] eqn:Hp; simpl.
  apply process_inv in Hp.
  destruct Hp as [| | | lim1 n st2 event notice _ _ _ Hu]; try done.
  rewrite updateScoreboard_spec in Hu. simpl in Hu. injection Hu as <- _ _.
  intros snap. simpl. intros [= <-]. simpl. split; [done | lia].
Qed.

Lemma query_coherent (cfg : Config) (st : Engine) (now : Z) :
  cache_coherent cfg st →
  cache_coherent cfg (query cfg st now).1
  ∧ entries (query cfg st now).2 = topK (topKSize cfg) (ranking st).
Proof.
  intros Hc. unfold query, get, rebuild.
  destruct (cached (cache st)) as [snap |] eqn:Hsnap; [case_decide |]; simpl.
  - split; [done | by apply Hc].
  - split; [| done]. intros s. simpl. intros [= <-]. simpl. split; [done | lia].
  - split; [| done]. intros s. simpl. intros [= <-]. simpl. split; [done | lia].
Qed.

Lemma run_coherent (cfg : Config) (ops : list Op) (st : Engine) :
  cache_coherent cfg st → cache_coherent cfg (run cfg st ops).1.
Proof.
  apply (run_invariant (cache_coherent cfg)).
  intros st0 [cmd now | now] Hc.
  - rewrite step_submit. by apply process_coherent.
  - rewrite step_query. by apply query_coherent.
Qed.

(** C5. [get] at time [now] returns the cached snapshot, leaving the cache
    as it is, when one is cached (none is after an invalidation) and is
    younger than the TTL; otherwise it returns a snapshot rebuilt from
    [topK(K)], created at [now], stamped with the next generation, and
    stores it in place of the old entry; after an invalidation the next
    [get] rebuilds.  The snapshot served is never older than the TTL; in every run of the engine the snapshot a query
    serves is the store's current top-K, and a rebuilt snapshot's
    generation is above that of the snapshot it replaces. *)
Theorem snapshot_cache_get (cfg : Config) (s : RankingStore) (c : SnapshotCache)
    (now : Z) (ops : list Op) :
  (∀ snap, cached c = Some snap → now - createdAt snap < snapshotTTL cfg →
           get cfg s c now = (c, snap))
  ∧ ((cached c = None
      ∨ ∃ snap, cached c = Some snap ∧ snapshotTTL cfg <= now - createdAt snap) →
     get cfg s c now
     = ({| cached := Some {| entries := topK (topKSize cfg) s;
                             generation := lastGeneration c + 1;
                             createdAt := now |};
           lastGeneration := lastGeneration c + 1 |},
        {| entries := topK (topKSize cfg) s;
           generation := lastGeneration c + 1;
           createdAt := now |}))
  ∧ get cfg s (invalidate c) now = rebuild cfg s (invalidate c) now
  ∧ (0 <= snapshotTTL cfg →
     now - createdAt (get cfg s c now).2 <= snapshotTTL cfg)
  ∧ entries (query cfg (run cfg init ops).1 now).2
    = topK (topKSize cfg) (ranking (run cfg init ops).1)
  ∧ (∀ snap, cached (cache (run cfg init ops).1) = Some snap →
             generation snap
             < generation (rebuild cfg (ranking (run cfg init ops).1)
                                   (cache (run cfg init ops).1) now).2).
Proof.
  assert (cache_coherent cfg (run cfg init ops).1) as Hcoh.
  { apply run_coherent. intros snap. simpl. done. }
  split; [| split; [| split; [| split; [| split]]]].
  - intros snap Hsnap Hage. unfold get. rewrite Hsnap. by case_decide.
  - intros [Hnone | (snap & Hsnap & Hage)]; unfold get, rebuild.
    + by rewrite Hnone.
    + rewrite Hsnap. case_decide; [lia | done].
  - apply get_invalidate.
  - intros Httl. unfold get, rebuild.
    destruct (cached c) as [snap |]; [case_decide |]; simpl; lia.
  - by apply query_coherent.
  - intros snap Hsnap. apply Hcoh in Hsnap as [_ Hgen]. simpl. lia.
Qed.

End SnapshotCacheFacts.

(** ** Problem 6: the rate limiter *)

Section RateLimiter.
Import Scoreboard.

Lemma string_append_inj (p u v : string) :
  String.append p u = String.append p v → u = v.
Proof.
  induction p as [| a p IH]; intros H; [exact H |].
  change (String a (String.append p u) = String a (String.append p v)) in H.
  apply IH. by injection H.
Qed.

Lemma rate_limit_key_inj (u v : string) : rate_limit_key u = rate_limit_key v → u = v.
Proof. apply string_append_inj. Qed.

(** The first command of a window: the counter starts at 1 and the key is
    set to expire 60 seconds later. *)
Lemma rate_limit_first (u : string) (now : Z) (redis : gmap string RedisEntry) :
  redis_get now redis (rate_limit_key u) = None →
  (rate_limit u now redis).2 = Allowed
  ∧ (rate_limit u now redis).1 !! rate_limit_key u
    = Some {| value := 1; expireAt := Some (now + 60) |}.
Proof.
  intros Hget. unfold rate_limit, redis_incr. rewrite Hget. cbn [fst snd].
  destruct (decide (1 = 1)) as [_ | []]; [| done].
  destruct (decide (1 > 10)) as [? | _]; [lia |].
  unfold redis_expire, redis_get. rewrite lookup_insert_eq. simpl.
  by rewrite lookup_insert_eq.
Qed.

(** A command inside a live window: the counter goes up by one, the expiry
    stays, and the command is refused once the counter is above 10. *)
Lemma rate_limit_live (u : string) (now c T : Z) (redis : gmap string RedisEntry) :
  redis !! rate_limit_key u = Some {| value := c; expireAt := Some T |} →
  now <= T →
  1 <= c →
  (rate_limit u now redis).2
  = (if decide (c < 10) then Allowed else RateLimitExceeded)
  ∧ (rate_limit u now redis).1 !! rate_limit_key u
    = Some {| value := c + 1; expireAt := Some T |}.
Proof.
  intros Hkey Hnow Hc. unfold rate_limit, redis_incr, redis_get, expired.
  rewrite Hkey. simpl. rewrite bool_decide_eq_false_2 by lia. cbn [fst snd value expireAt].
  destruct (decide (c + 1 = 1)) as [? | _]; [lia |].
  destruct (decide (c + 1 > 10)), (decide (c < 10)); try lia; simpl;
    by rewrite lookup_insert_eq.
Qed.

(** Another user's command leaves this user's key alone. *)
Lemma rate_limit_other (u v : string) (now : Z) (redis : gmap string RedisEntry) :
  v ≠ u →
  (rate_limit v now redis).1 !! rate_limit_key u = redis !! rate_limit_key u.
Proof.
  intros Hne.
  assert (rate_limit_key v ≠ rate_limit_key u) as Hk
    by (intros H; by apply rate_limit_key_inj in H).
  unfold rate_limit, redis_incr.
  destruct (redis_get now redis (rate_limit_key v)) as [e |]; cbn [fst snd].
  - destruct (decide (value e + 1 = 1)), (decide (value e + 1 > 10)); simpl;
      unfold redis_expire; try destruct (redis_get _ _ _); simpl;
      by rewrite ?lookup_insert_ne by done.
  - destruct (decide (1 = 1)) as [_ | []]; [| done].
    destruct (decide (1 > 10)) as [? | _]; [lia |]. simpl.
    unfold redis_expire. destruct (redis_get _ _ _); simpl;
      by rewrite ?lookup_insert_ne by done.
Qed.

Lemma rate_limit_run_cons (redis : gmap string RedisEntry) (v : string) (t : Z)
    (arrivals : list (string * Z)) :
  rate_limit_run redis ((v, t) :: arrivals)
  = ((rate_limit_run (rate_limit v t redis).1 arrivals).1,
     (rate_limit v t redis).2 :: (rate_limit_run (rate_limit v t redis).1 arrivals).2).
Proof.
  simpl. destruct (rate_limit v t redis) as [redis1 r]. simpl.
  by destruct (rate_limit_run redis1 arrivals) as [redis2 rs].
Qed.

Lemma outcomes_of_cons (u v : string) (t : Z) (arrivals : list (string * Z))
    (o : Limited) (os : list Limited) :
  outcomes_of u ((v, t) :: arrivals) (o :: os)
  = if decide (v = u) then o :: outcomes_of u arrivals os
    else outcomes_of u arrivals os.
Proof.
  unfold outcomes_of. simpl. rewrite filter_cons. simpl.
  by destruct (decide (v = u)).
Qed.

(** The run of the limiter inside one window of user [u]: with [c]
    commands counted so far, the [k]th further command of [u] is allowed
    iff [c + k < 10]. *)
Lemma rate_limit_run_window (u : string) (t0 : Z) (arrivals : list (string * Z))
    (redis : gmap string RedisEntry) (c : Z) :
  1 <= c →
  redis !! rate_limit_key u = Some {| value := c; expireAt := Some (t0 + 60) |} →
  (∀ t, (u, t) ∈ arrivals → t0 <= t < t0 + 60) →
  (∀ (k : nat) (o : Limited),
     outcomes_of u arrivals (rate_limit_run redis arrivals).2 !! k = Some o →
     o = if decide (c + Z.of_nat k < 10) then Allowed else RateLimitExceeded)
  ∧ length (outcomes_of u arrivals (rate_limit_run redis arrivals).2)
    = length (filter (λ a, a.1 = u) arrivals)
  ∧ ∃ c', 1 <= c'
          ∧ (rate_limit_run redis arrivals).1 !! rate_limit_key u
            = Some {| value := c'; expireAt := Some (t0 + 60) |}.
Proof.
  revert redis c. induction arrivals as [| [v t] arrivals IH]; intros redis c Hc Hkey Hin.
  - simpl. split; [done |]. split; [done |]. eauto.
  - rewrite rate_limit_run_cons. simpl. rewrite outcomes_of_cons, filter_cons. simpl.
    destruct (decide (v = u)) as [-> | Hne].
    + assert (t0 <= t < t0 + 60) as Ht by (apply Hin; by left).
      destruct (rate_limit_live u t c (t0 + 60) redis Hkey ltac:(lia) Hc) as [Ho Hkey1].
      destruct (IH (rate_limit u t redis).1 (c + 1) ltac:(lia) Hkey1) as (Hk & Hlen & Hfin).
      { intros t' Ht'. apply Hin. by right. }
      split; [| split; [simpl; by rewrite Hlen | done]].
      intros [| k] o; simpl.
      * intros [= <-]. rewrite Ho.
        destruct (decide (c < 10)), (decide (c + Z.of_nat 0 < 10)); (done || lia).
      * intros Hlook. rewrite (Hk k o Hlook).
        destruct (decide (c + 1 + Z.of_nat k < 10)),
                 (decide (c + Z.of_nat (S k) < 10)); (done || lia).
    + apply IH; [done | | ].
      * by rewrite rate_limit_other.
      * intros t' Ht'. apply Hin. by right.
Qed.

(** C6. The limiter of the README (10 per 60 seconds).  Let user [u] have
    no live window when its command arrives at [t0], and let all its
    further commands in the run arrive within 60 seconds of [t0], whatever
    other users do in between.  Then the first ten commands of [u] are
    allowed and every later one, the 11th first, is refused; and a command
    of [u] that arrives more than 60 seconds after [t0] is allowed again. *)
Theorem rate_limit_ten_per_minute (redis : gmap string RedisEntry) (u : string)
    (t0 : Z) (arrivals : list (string * Z)) :
  redis_get t0 redis (rate_limit_key u) = None →
  (∀ t, (u, t) ∈ arrivals → t0 <= t < t0 + 60) →
  (∀ (k : nat) (o : Limited),
     outcomes_of u ((u, t0) :: arrivals)
                 (rate_limit_run redis ((u, t0) :: arrivals)).2 !! k = Some o →
     o = if decide (k < 10)%nat then Allowed else RateLimitExceeded)
  ∧ length (outcomes_of u ((u, t0) :: arrivals)
                        (rate_limit_run redis ((u, t0) :: arrivals)).2)
    = S (length (filter (λ a, a.1 = u) arrivals))
  ∧ ((10 <= length (filter (λ a, a.1 = u) arrivals))%nat →
     outcomes_of u ((u, t0) :: arrivals)
                 (rate_limit_run redis ((u, t0) :: arrivals)).2 !! 10%nat
     = Some RateLimitExceeded)
  ∧ (∀ t, t0 + 60 < t →
          (rate_limit u t (rate_limit_run redis ((u, t0) :: arrivals)).1).2 = Allowed)
  ∧ (∀ (cfg : Config) (st : Engine) (cmd : Command) (now : Z),
       guard (ranking st) cmd = Accepted →
       (rate_limit (participantId cmd) now (limiter st)).2 = RateLimitExceeded →
       (process cfg st cmd now).1.2 = RejectedRateLimited).
Proof.
  intros Hfresh Hin.
  destruct (rate_limit_first u t0 redis Hfresh) as [Ho Hkey].
  destruct (rate_limit_run_window u t0 arrivals (rate_limit u t0 redis).1 1
              ltac:(lia) Hkey Hin) as (Hk & Hlen & c' & Hc' & Hfin).
  rewrite rate_limit_run_cons. simpl. rewrite outcomes_of_cons, decide_True by done.
  assert (∀ (k : nat) (o : Limited),
            (Allowed :: outcomes_of u arrivals
               (rate_limit_run (rate_limit u t0 redis).1 arrivals).2) !! k = Some o →
            o = if decide (k < 10)%nat then Allowed else RateLimitExceeded) as Hall.
  { intros [| k] o; simpl.
    - by intros [= <-].
    - intros Hlook. rewrite (Hk k o Hlook).
      destruct (decide (1 + Z.of_nat k < 10)), (decide (S k < 10)%nat); (done || lia). }
  rewrite Ho. split; [exact Hall |]. split; [simpl; by rewrite Hlen |]. split.
  - intros Hten.
    destruct (lookup_lt_is_Some_2
                (Allowed :: outcomes_of u arrivals
                   (rate_limit_run (rate_limit u t0 redis).1 arrivals).2) 10) as [o Hlook].
    { simpl. rewrite Hlen. lia. }
    rewrite Hlook. f_equal. by rewrite (Hall 10%nat o Hlook).
  - split.
    + intros t Ht. apply rate_limit_first.
      unfold redis_get, expired. rewrite Hfin. simpl.
      by rewrite bool_decide_eq_true_2 by lia.
    + intros cfg st cmd now Hg Hl. unfold process. rewrite Hg.
      destruct (rate_limit (participantId cmd) now (limiter st)) as [lim1 a].
      simpl in Hl. by subst a.
Qed.

End RateLimiter.

(** ** Problem 6: the scenarios of the specification, run on the model *)

Section Scenarios.
Import Scoreboard.

Example scenario_top2 :
  topK 2 (ranking example_board)
  = [{| entryScore := 100; entryId := "A" |}; {| entryScore := 90; entryId := "B" |}].
Proof. vm_compute. reflexivity. Qed.

(** C gains 15 and passes B: the event carries the new top-2; B and C
    changed rank, A did not. *)
Example scenario_C_enters :
  (process example_cfg example_board (command "C" 15 2 10) 10).2
  = Some {| leaderboard := [{| entryScore := 100; entryId := "A" |};
                            {| entryScore := 95; entryId := "C" |}];
            timestamp := 10 |}
  ∧ affected (topK 2 (ranking example_board))
             (topK 2 (ranking (process example_cfg example_board
                                 (command "C" 15 2 10) 10).1.1))
    = ["B"; "C"]%string.
Proof. split; vm_compute; reflexivity. Qed.

(** D gains 5 far below the boundary: no event. *)
Example scenario_D_silent :
  (process example_cfg example_board (command "D" 5 2 10) 10).2 = None.
Proof. vm_compute. reflexivity. Qed.

(** Equal scores are ordered by ascending id, whatever the arrival order. *)
Example scenario_tie_break :
  topK 3 (ranking (run example_cfg init
                     [Submit (command "bob" 50 1 0) 0; Submit (command "amy" 50 1 1) 1;
                      Submit (command "cat" 50 1 2) 2]).1)
  = [{| entryScore := 50; entryId := "amy" |}; {| entryScore := 50; entryId := "bob" |};
     {| entryScore := 50; entryId := "cat" |}].
Proof. vm_compute. reflexivity. Qed.

Lemma topK_all_participants_witness :
  (length (participants_of
             (accepted_deltas example_clamped (run example_cfg init example_clamped).2))
   <= 3)%nat
  ∧ expected_entries (accepted_deltas example_clamped
                        (run example_cfg init example_clamped).2)
    = [{| entryScore := 40; entryId := "amy" |}; {| entryScore := 40; entryId := "bob" |};
       {| entryScore := 0; entryId := "cat" |}]
  ∧ topK 3 (ranking (run example_cfg init example_clamped).1)
    ≡ₚ expected_entries (accepted_deltas example_clamped
                           (run example_cfg init example_clamped).2)
  ∧ StronglySorted rank_lt (topK 3 (ranking (run example_cfg init example_clamped).1)).
Proof.
  assert (length (participants_of
                    (accepted_deltas example_clamped
                       (run example_cfg init example_clamped).2)) <= 3)%nat
    as Hn by (vm_compute; lia).
  split; [exact Hn |]. split; [vm_compute; reflexivity |].
  destruct (topK_all_participants example_cfg example_clamped 3 Hn)
    as (Hperm & _ & Hsorted & _).
  split; [exact Hperm | exact Hsorted].
Defined.

(** An underflowing delta on the board of the scenario: D has 10 and
    loses 25. *)
Lemma scores_never_negative_witness :
  guard (ranking example_board) (command "D" (-25) 2 10) = Accepted
  ∧ 0 <= scoreCeiling example_cfg
  ∧ from_option score 0 (participants (ranking example_board) !! "D") + -25 < 0
  ∧ (applyDelta example_cfg (ranking example_board) (command "D" (-25) 2 10) 10).2
    = NewScore 0
  ∧ score <$> participants
                (applyDelta example_cfg (ranking example_board)
                   (command "D" (-25) 2 10) 10).1 !! "D"
    = Some 0.
Proof.
  assert (guard (ranking example_board) (command "D" (-25) 2 10) = Accepted) as Hg
    by (vm_compute; reflexivity).
  assert (0 <= scoreCeiling example_cfg) as Hc by (vm_compute; discriminate).
  assert (from_option score 0 (participants (ranking example_board) !! "D") + -25 < 0)
    as Hneg by (vm_compute; reflexivity).
  split; [exact Hg |]. split; [exact Hc |]. split; [exact Hneg |].
  destruct (scores_never_negative example_cfg example_ops)
    as (_ & _ & _ & _ & _ & Hclamp & _).
  destruct (Hclamp (ranking example_board) (command "D" (-25) 2 10) 10 Hg Hc Hneg)
    as [Happly Hstored].
  split; [by rewrite Happly | exact Hstored].
Defined.

(** The events of a run whose operations arrive in the order of the clock. *)
Lemma published_events_carry_topK_witness :
  StronglySorted Z.le (op_time <$> example_same_instant)
  ∧ timestamp <$> bus (run example_cfg init example_same_instant).1 = [5; 5]
  ∧ StronglySorted Z.le (timestamp <$> bus (run example_cfg init example_same_instant).1).
Proof.
  assert (StronglySorted Z.le (op_time <$> example_same_instant)) as Hs.
  { simpl. repeat constructor; lia. }
  split; [exact Hs |]. split; [vm_compute; reflexivity |].
  destruct (published_events_carry_topK example_cfg example_same_instant)
    as (_ & _ & _ & Hsorted).
  by apply Hsorted.
Defined.

Lemma unranked_update_emits_nothing_witness :
  boundary (topKSize example_cfg) (ranking example_board) = Some 90
  ∧ (process example_cfg example_board (command "D" 5 2 10) 10).1.2
    = Applied 15 (Some 4%nat)
  ∧ boundary (topKSize example_cfg)
      (ranking (process example_cfg example_board (command "D" 5 2 10) 10).1.1)
    = Some 90
  ∧ (process example_cfg example_board (command "D" 5 2 10) 10).2 = None
  ∧ bus (process example_cfg example_board (command "D" 5 2 10) 10).1.1
    = bus example_board.
Proof.
  split; [vm_compute; reflexivity |].
  split; [vm_compute; reflexivity |].
  split; [vm_compute; reflexivity |].
  apply (unranked_update_emits_nothing example_cfg example_board
           (process example_cfg example_board (command "D" 5 2 10) 10).1.1
           (command "D" 5 2 10) 10 15 90 90 (Some 4%nat)
           (process example_cfg example_board (command "D" 5 2 10) 10).2).
  - apply run_wf, store_wf_init.
  - vm_compute. reflexivity.
  - vm_compute. reflexivity.
  - intros p Hp. vm_compute in Hp. injection Hp as <-. simpl. lia.
  - vm_compute. reflexivity.
  - lia.
Defined.

Lemma rate_limit_ten_per_minute_witness :
  redis_get 100 ∅ (rate_limit_key "alice") = None
  ∧ outcomes_of "alice" (("alice", 100) :: example_arrivals)
      (rate_limit_run ∅ (("alice", 100) :: example_arrivals)).2 !! 9%nat
    = Some Allowed
  ∧ outcomes_of "alice" (("alice", 100) :: example_arrivals)
      (rate_limit_run ∅ (("alice", 100) :: example_arrivals)).2 !! 10%nat
    = Some RateLimitExceeded
  ∧ (rate_limit "alice" 161 (rate_limit_run ∅ (("alice", 100) :: example_arrivals)).1).2
    = Allowed.
Proof.
  assert (∀ t, ("alice", t) ∈ example_arrivals → 100 <= t < 100 + 60) as Hin.
  { assert (Forall (λ a, a.1 = "alice" → 100 <= a.2 < 100 + 60) example_arrivals) as HF
      by (apply (bool_decide_unpack _); vm_compute; exact I).
    intros t Ht. rewrite Forall_forall in HF. by apply (HF ("alice", t) Ht). }
  assert (redis_get 100 ∅ (rate_limit_key "alice") = None) as Hfresh
    by (vm_compute; reflexivity).
  destruct (rate_limit_ten_per_minute ∅ "alice" 100 example_arrivals Hfresh Hin)
    as (_ & _ & Hten & Hafter & _).
  split; [exact Hfresh |].
  split; [vm_compute; reflexivity |].
  split; [apply Hten; vm_compute; lia | apply Hafter; lia].
Defined.

End Scenarios.

(* ===================================================================== *)
(** * Part III: further properties of the code                            *)
(* ===================================================================== *)

(** ** Problem 5: pages *)

Section UserPagesFacts.
Import Problem5 UserPages.

Lemma concat_pages {A : Type} (size n : nat) (l : list A) :
  concat ((λ k, take size (drop (k * size) l)) <$> seq 0 n) = take (n * size) l.
Proof.
  induction n as [| n IH]; [done |].
  rewrite seq_S, fmap_app, concat_app, IH. simpl.
  rewrite app_nil_r, take_take_drop. f_equal. lia.
Qed.

Lemma NoDup_fmap_eq {A B : Type} (f : A → B) (l : list A) (x y : A) :
  NoDup (f <$> l) → x ∈ l → y ∈ l → f x = f y → x = y.
Proof.
  induction l as [| z l IH]; intros Hnd Hx Hy Hf; [by apply elem_of_nil in Hx |].
  rewrite fmap_cons in Hnd. apply NoDup_cons in Hnd as [Hz Hnd].
  apply elem_of_cons in Hx as [-> | Hx], Hy as [-> | Hy]; [done | | | by apply IH].
  - exfalso. apply Hz. rewrite Hf. by apply list_elem_of_fmap_2.
  - exfalso. apply Hz. rewrite <- Hf. by apply list_elem_of_fmap_2.
Qed.

(** Without both [page] and [limit] the service runs one query, with no
    [LIMIT]. *)
Lemma getAllUsers_unpaged (users : list User)
    (order_by : SortColumn → SortOrder → option (Z * Z) → list User → list User)
    (f : option UserFilters) :
  opt page f = None ∨ opt limit f = None →
  getAllUsers users order_by f
  = match bind (where_params f) with
    | Some e => inl (PgError e)
    | None =>
        inr (inl (order_by (default by_id (opt sortBy f)) (default DESC (opt sortOrder f))
                           None (filter (λ u, matches f u = true) users)))
    end.
Proof.
  intros Hnone.
  assert (paging f = None) as Hpaging.
  { unfold paging. destruct Hnone as [-> | ->]; [by destruct (opt limit f) | done]. }
  assert (getAllUsers users order_by f
          = match findAll users order_by f with
            | inr us => inr (inl us)
            | inl e => inl e
            end) as ->.
  { unfold getAllUsers. destruct Hnone as [-> | ->]; [done |].
    by destruct (opt page f). }
  unfold findAll. rewrite Hpaging. simpl. rewrite app_nil_r.
  by destruct (bind (where_params f)).
Qed.

(** A paginated answer comes from filters with [page] and [limit]. *)
Lemma getAllUsers_paged_inv (users : list User)
    (order_by : SortColumn → SortOrder → option (Z * Z) → list User → list User)
    (f : UserFilters) (resp : PaginatedResponse) :
  getAllUsers users order_by (Some f) = inr (inr resp) →
  ∃ p l, val (page f) = Some p ∧ val (limit f) = Some l.
Proof.
  destruct (val (page f)) as [p |] eqn:Hp, (val (limit f)) as [l |] eqn:Hl; [by eauto | ..];
    (rewrite getAllUsers_unpaged by (unfold opt; simpl; auto));
    by destruct (bind (where_params (Some f))).
Qed.

(** The rows of a page that the database serves. *)
Lemma page_rows_slice (users : list User)
    (order_by : SortColumn → SortOrder → option (Z * Z) → list User → list User)
    (f : UserFilters) (p l : Z) :
  bind (where_params (Some f)) = None →
  in_range int8 ((Z.max 1 p - 1) * Z.max 1 (Z.min 100 l)) →
  page_rows users order_by f p l
  = take (Z.to_nat (Z.max 1 (Z.min 100 l)))
      (drop (Z.to_nat ((Z.max 1 p - 1) * Z.max 1 (Z.min 100 l)))
         (order_by (default by_id (val (sortBy f))) (default DESC (val (sortOrder f)))
                   (Some (Z.max 1 (Z.min 100 l),
                          (Z.max 1 p - 1) * Z.max 1 (Z.min 100 l)))
                   (filter (λ u, matches (Some f) u = true) users))).
Proof.
  intros Hbind Hoff. unfold page_rows.
  rewrite (getAllUsers_paged users order_by (with_page f (Value p) (Value l)) p l)
    by done.
  cbv zeta.
  change (where_params (Some (with_page f (Value p) (Value l))))
    with (where_params (Some f)).
  rewrite Hbind. apply bind_integer in Hoff. rewrite Hoff. reflexivity.
Qed.

Lemma page_rows_length (users : list User)
    (order_by : SortColumn → SortOrder → option (Z * Z) → list User → list User)
    (f : UserFilters) (p l : Z) :
  Z.of_nat (length (page_rows users order_by f p l)) <= Z.max 1 (Z.min 100 l).
Proof.
  unfold page_rows.
  rewrite (getAllUsers_paged users order_by (with_page f (Value p) (Value l)) p l)
    by done.
  cbv zeta.
  destruct (bind _) as [e |]; [simpl; lia |].
  destruct (bind_param _) as [e |]; [simpl; lia |].
  simpl. rewrite length_take. lia.
Qed.

(** Sorted by a key that no two rows share, the rows can come in one order
    only, whatever the rest of the query. *)
Lemma id_sort_unique
    (order_by : SortColumn → SortOrder → option (Z * Z) → list User → list User)
    (o : SortOrder) (q q' : option (Z * Z)) (rows : list User) :
  sorts_by_id order_by →
  NoDup (id <$> rows) →
  order_by by_id o q rows = order_by by_id o q' rows.
Proof.
  intros Hsort Hnd.
  destruct (Hsort o q rows) as [Hp1 Hs1], (Hsort o q' rows) as [Hp2 Hs2].
  apply (StronglySorted_unique_strong (id_ordered o)); [| done | done |].
  - intros x1 x2 Hx1 Hx2 H12 H21. rewrite Hp1 in Hx1. rewrite Hp2 in Hx2.
    apply (NoDup_fmap_eq id rows); [done | done | done |].
    destruct o; simpl in *; lia.
  - by rewrite Hp1, Hp2.
Qed.

(** X1. Under the sort by id (the default), on a table whose ids are
    distinct: read one after the other, the pages 1 to [totalPages] give
    the whole result of the query without pagination, each row once and
    in order, whichever way the database runs each page's query; and no
    page holds more than the page size. *)
Theorem pages_cover_all_rows (users : list User)
    (order_by : SortColumn → SortOrder → option (Z * Z) → list User → list User)
    (f : UserFilters) (l : Z) :
  sorts_by_id order_by →
  NoDup (id <$> users) →
  sorted_by_id f →
  bind (where_params (Some f)) = None →
  safe_integer (Z.of_nat (length users)) →
  ∃ (total : Z) (sorted : list User),
    count users (Some f) = inr total
    ∧ getAllUsers users order_by (Some (with_page f Absent Absent)) = inr (inl sorted)
    ∧ concat ((λ p, page_rows users order_by f p l)
                <$> seqZ 1 (ceil_div total (Z.max 1 (Z.min 100 l))))
      = sorted
    ∧ ∀ p, Z.of_nat (length (page_rows users order_by f p l)) <= Z.max 1 (Z.min 100 l).
Proof.
  intros Hsort Hnd Hby Hbind Hsafe.
  set (L := Z.max 1 (Z.min 100 l)).
  set (rows := filter (λ u, matches (Some f) u = true) users).
  set (o := default DESC (val (sortOrder f))).
  set (sorted := order_by by_id o None rows).
  exists (Z.of_nat (length rows)), sorted.
  assert (NoDup (id <$> rows)) as Hnd'.
  { apply (sublist_NoDup _ (id <$> users)); [exact Hnd |].
    apply fmap_sublist, sublist_filter. }
  assert (length sorted = length rows) as Hlen
    by (unfold sorted; by rewrite (proj1 (Hsort o None rows))).
  assert (Z.of_nat (length rows) <= 9007199254740991) as Hrows.
  { pose proof (length_filter (λ u, matches (Some f) u = true) users).
    unfold safe_integer in Hsafe. fold rows in H. lia. }
  pose proof (ceil_div_spec (Z.of_nat (length rows)) L ltac:(lia)) as [Hlow Hceil].
  split; [unfold count; by rewrite Hbind |].
  split.
  { rewrite getAllUsers_unpaged by (left; reflexivity).
    change (where_params (Some (with_page f Absent Absent)))
      with (where_params (Some f)).
    rewrite Hbind.
    change (opt sortBy (Some (with_page f Absent Absent))) with (val (sortBy f)).
    unfold sorted_by_id in Hby. rewrite Hby. reflexivity. }
  split; [| intros p; apply page_rows_length].
  unfold seqZ. rewrite <- list_fmap_compose.
  trans (concat ((λ k, take (Z.to_nat L) (drop (k * Z.to_nat L) sorted))
                   <$> seq 0 (Z.to_nat (ceil_div (Z.of_nat (length rows)) L)))).
  - f_equal. apply list_fmap_ext. intros i k Hk. simpl.
    apply lookup_seq in Hk as [-> Hi]. change (0 + i)%nat with i in *.
    assert (Z.max 1 (Z.of_nat i + 1) - 1 = Z.of_nat i) as HP by lia.
    rewrite page_rows_slice; [| done |].
    + fold L rows. rewrite HP. unfold sorted_by_id in Hby. rewrite Hby. fold o.
      rewrite (id_sort_unique order_by o _ None rows Hsort Hnd'). fold sorted.
      do 2 f_equal. rewrite Z2Nat.inj_mul by lia. by rewrite Nat2Z.id.
    + fold L. rewrite HP. unfold in_range. simpl. nia.
  - rewrite concat_pages. apply take_ge. nia.
Qed.

#[local] Instance id_ordered_trans (o : SortOrder) : Transitive (id_ordered o).
Proof. intros u v w. destruct o; simpl; lia. Qed.

#[local] Instance id_ordered_total (o : SortOrder) : Total (id_ordered o).
Proof. intros u v. destruct o; simpl; lia. Qed.

Lemma example_order_sorts : sorts_by_id example_order.
Proof.
  intros o q rows. simpl. split.
  - apply merge_sort_Permutation.
  - apply StronglySorted_merge_sort; apply _.
Qed.

Lemma pages_cover_all_rows_witness :
  sorts_by_id example_order
  ∧ NoDup (id <$> example_users)
  ∧ sorted_by_id example_filters
  ∧ bind (where_params (Some example_filters)) = None
  ∧ safe_integer (Z.of_nat (length example_users))
  ∧ page_rows example_users example_order example_filters 1 1
    ++ page_rows example_users example_order example_filters 2 1
    = [example_chi; {| id := 1; name := "Ann"; email := "ann@example.com";
                       age := Some 31; role := "Developer"; status := "active";
                       deleted_at := None; created_at := 0; updated_at := 0 |}].
Proof.
  assert (NoDup (id <$> example_users)) as Hnd
    by (apply (bool_decide_unpack _); vm_compute; exact I).
  assert (safe_integer (Z.of_nat (length example_users))) as Hsafe
    by (unfold safe_integer; simpl; lia).
  split; [exact example_order_sorts |]. split; [exact Hnd |].
  split; [reflexivity |]. split; [reflexivity |]. split; [exact Hsafe |].
  destruct (pages_cover_all_rows example_users example_order example_filters 1
              example_order_sorts Hnd eq_refl eq_refl Hsafe)
    as (total & sorted & Hcount & Hget & Hcat & _).
  vm_compute in Hcount. injection Hcount as <-.
  vm_compute in Hget. injection Hget as <-.
  refine (eq_trans _ (eq_trans Hcat _)); vm_compute; reflexivity.
Defined.

(** X2. Without both [page] and [limit] (a lone one is ignored) the
    service answers with a plain array exactly when the database accepts
    the filters' parameters, and throws the database's error otherwise,
    never answering with a page.  The array is a rearrangement of exactly
    the rows that pass the filters, as many as [count] reports, with no
    soft-deleted row unless [includeDeleted] is true; the database's sort
    is only assumed to rearrange its input. *)
Theorem getAllUsers_without_pagination (users : list User)
    (order_by : SortColumn → SortOrder → option (Z * Z) → list User → list User)
    (f : option UserFilters) :
  (∀ c o q rows, order_by c o q rows ≡ₚ rows) →
  opt page f = None ∨ opt limit f = None →
  (bind (where_params f) = None →
   ∃ us, getAllUsers users order_by f = inr (inl us)
         ∧ us ≡ₚ filter (λ u, matches f u = true) users
         ∧ count users f = inr (Z.of_nat (length us))
         ∧ ∀ u, u ∈ us →
                u ∈ users
                ∧ (opt includeDeleted f ≠ Some true → deleted_at u = None))
  ∧ (∀ e, bind (where_params f) = Some e →
          getAllUsers users order_by f = inl (PgError e))
  ∧ (∀ resp, getAllUsers users order_by f ≠ inr (inr resp)).
Proof.
  intros Hperm Hnone. rewrite (getAllUsers_unpaged users order_by f Hnone).
  split; [| split].
  - intros Hbind. rewrite Hbind. eexists. split; [reflexivity |].
    split; [apply Hperm |].
    split; [unfold count; by rewrite Hbind, Hperm |].
    intros u Hu. rewrite Hperm in Hu. apply list_elem_of_filter in Hu as [Hm Hu].
    split; [exact Hu |]. intros Hinc.
    unfold matches in Hm. rewrite !andb_true_iff in Hm.
    destruct Hm as [[[[Hdel _] _] _] _].
    destruct (opt includeDeleted f) as [[] |]; try done;
      by apply bool_decide_eq_true in Hdel.
  - by intros e ->.
  - intros resp. by destruct (bind (where_params f)).
Qed.

Lemma getAllUsers_without_pagination_witness :
  (∀ (c : SortColumn) (o : SortOrder) (q : option (Z * Z)) (rows : list User),
     (λ _ _ _ r, reverse r) c o q rows ≡ₚ rows)
  ∧ (opt page (Some (with_page example_filters Undefined (Value 1))) = None
     ∨ opt limit (Some (with_page example_filters Undefined (Value 1))) = None)
  ∧ bind (where_params (Some (with_page example_filters Undefined (Value 1)))) = None
  ∧ ∃ us, getAllUsers example_users (λ _ _ _ r, reverse r)
            (Some (with_page example_filters Undefined (Value 1))) = inr (inl us)
          ∧ length us = 2%nat.
Proof.
  assert (∀ (c : SortColumn) (o : SortOrder) (q : option (Z * Z)) (rows : list User),
            (λ _ _ _ r, reverse r) c o q rows ≡ₚ rows) as Hperm
    by (intros c o q rows; apply reverse_Permutation).
  assert (opt page (Some (with_page example_filters Undefined (Value 1))) = None
          ∨ opt limit (Some (with_page example_filters Undefined (Value 1))) = None)
    as Hnone by (left; reflexivity).
  split; [exact Hperm |]. split; [exact Hnone |]. split; [reflexivity |].
  destruct (getAllUsers_without_pagination example_users (λ _ _ _ r, reverse r)
              (Some (with_page example_filters Undefined (Value 1))) Hperm Hnone)
    as (Harray & _ & _).
  destruct (Harray eq_refl) as (us & Hus & Hrows & _).
  exists us. split; [exact Hus |]. rewrite Hrows. vm_compute. reflexivity.
Defined.

(** A [minAge] that is no [INTEGER]: the query is refused, with or without
    pagination. *)
Example getAllUsers_minAge_out_of_range :
  getAllUsers example_users example_order
    (Some {| f_role := Absent; f_status := Absent; minAge := Value 3000000000;
             maxAge := Absent; includeDeleted := Absent; sortBy := Absent;
             sortOrder := Absent; page := Absent; limit := Absent |})
  = inl (PgError (out_of_range int4))
  ∧ getAllUsers example_users example_order
      (Some {| f_role := Absent; f_status := Absent; minAge := Value 3000000000;
               maxAge := Absent; includeDeleted := Absent; sortBy := Absent;
               sortOrder := Absent; page := Value 1; limit := Value 10 |})
    = inl (PgError (out_of_range int4)).
Proof. vm_compute. split; reflexivity. Qed.

(** X3. In a paginated answer, [hasNextPage] is true exactly when rows
    remain after the current page, there are no pages exactly when there
    are no rows, and a page after the last one is empty (the database's
    sort being assumed to return as many rows as it is given). *)
Theorem pagination_navigation (users : list User)
    (order_by : SortColumn → SortOrder → option (Z * Z) → list User → list User)
    (f : UserFilters) (resp : PaginatedResponse) :
  (∀ c o q rows, length (order_by c o q rows) = length rows) →
  getAllUsers users order_by (Some f) = inr (inr resp) →
  (hasNextPage (pagination resp) = true ↔
   currentPage (pagination resp) * pageSize (pagination resp)
     < totalCount (pagination resp))
  ∧ (totalPages (pagination resp) = 0 ↔ totalCount (pagination resp) = 0)
  ∧ 0 <= totalPages (pagination resp)
  ∧ (totalPages (pagination resp) < currentPage (pagination resp) →
     data resp = [])
  ∧ Z.of_nat (length (data resp)) <= pageSize (pagination resp).
Proof.
  intros Hlen Hresp.
  destruct (getAllUsers_paged_inv users order_by f resp Hresp) as (p & l & Hp & Hl).
  rewrite (getAllUsers_paged users order_by f p l Hp Hl) in Hresp. cbv zeta in Hresp.
  destruct (bind (where_params (Some f))) as [e |]; [done |].
  destruct (bind_param _) as [e |] eqn:Hoff; [done |].
  injection Hresp as <-. simpl.
  set (L := Z.max 1 (Z.min 100 l)). set (P := Z.max 1 p).
  set (rows := filter (λ u, matches (Some f) u = true) users).
  pose proof (ceil_div_spec (Z.of_nat (length rows)) L ltac:(lia)) as [Hlow Hup].
  rewrite bool_decide_eq_true.
  split; [split; nia |]. split; [split; nia |]. split; [nia |]. split.
  - intros Hlast. rewrite drop_ge; [by rewrite take_nil |].
    rewrite Hlen. apply Nat2Z.inj_le. rewrite Z2Nat.id by nia. nia.
  - rewrite length_take. lia.
Qed.

Lemma pagination_navigation_witness :
  (∀ (c : SortColumn) (o : SortOrder) (q : option (Z * Z)) (rows : list User),
     length ((λ _ _ _ r, r) c o q rows) = length rows)
  ∧ ∃ resp,
      getAllUsers example_users (λ _ _ _ r, r)
        (Some (with_page example_filters (Value 1) (Value 1))) = inr (inr resp)
      ∧ hasNextPage (pagination resp) = true
      ∧ totalCount (pagination resp) = 2.
Proof.
  assert (∀ (c : SortColumn) (o : SortOrder) (q : option (Z * Z)) (rows : list User),
            length ((λ _ _ _ r, r) c o q rows) = length rows) as Hlen by done.
  split; [exact Hlen |].
  eexists. split; [vm_compute; reflexivity |].
  destruct (pagination_navigation example_users (λ _ _ _ r, r)
              (with_page example_filters (Value 1) (Value 1)) _ Hlen
              ltac:(vm_compute; reflexivity))
    as (Hnext & _).
  split; [apply Hnext; vm_compute; reflexivity | vm_compute; reflexivity].
Defined.

(** What passing the [WHERE] clause means for a row. *)
Lemma matches_true (f : option UserFilters) (u : User) :
  matches f u = true →
  (opt includeDeleted f ≠ Some true → deleted_at u = None)
  ∧ (∀ r, opt f_role f = Some r → r ≠ EmptyString → role u = r)
  ∧ (∀ s, opt f_status f = Some s → s ≠ EmptyString → status u = s)
  ∧ (∀ a, opt minAge f = Some a → ∃ x, age u = Some x ∧ a <= x)
  ∧ (∀ a, opt maxAge f = Some a → ∃ x, age u = Some x ∧ x <= a).
Proof.
  unfold matches. rewrite !andb_true_iff.
  intros [[[[Hdel Hrole] Hstatus] Hmin] Hmax]. repeat split.
  - intros Hinc. destruct (opt includeDeleted f) as [[] |]; try done;
      by apply bool_decide_eq_true in Hdel.
  - intros r Hr Hne. rewrite Hr in Hrole. simpl in Hrole.
    destruct (decide (r = EmptyString)); [done |].
    by apply bool_decide_eq_true in Hrole.
  - intros s Hs Hne. rewrite Hs in Hstatus. simpl in Hstatus.
    destruct (decide (s = EmptyString)); [done |].
    by apply bool_decide_eq_true in Hstatus.
  - intros a Ha. rewrite Ha in Hmin. destruct (age u) as [x |]; [| done].
    exists x. split; [done |]. by apply bool_decide_eq_true in Hmin.
  - intros a Ha. rewrite Ha in Hmax. destruct (age u) as [x |]; [| done].
    exists x. split; [done |]. by apply bool_decide_eq_true in Hmax.
Qed.

(** [page] and [limit] play no part in the [WHERE] clause. *)
Lemma matches_with_page (f : UserFilters) (p l : Field Z) (u : User) :
  matches (Some (with_page f p l)) u = matches (Some f) u.
Proof. reflexivity. Qed.

(** The rows of any answer of [findAll] are rows that pass the filters. *)
Lemma findAll_rows (users : list User)
    (order_by : SortColumn → SortOrder → option (Z * Z) → list User → list User)
    (f : option UserFilters) (us : list User) (u : User) :
  (∀ c o q rows v, v ∈ order_by c o q rows → v ∈ rows) →
  findAll users order_by f = inr us →
  u ∈ us →
  u ∈ users ∧ matches f u = true.
Proof.
  intros Hsub Hall Hu. unfold findAll in Hall.
  destruct (bind _) as [e |]; [done |].
  assert (u ∈ filter (λ v, matches f v = true) users) as Hin.
  { destruct (paging f) as [[l o] |].
    - repeat case_decide; try done. injection Hall as <-.
      eapply Hsub, (subseteq_drop (Z.to_nat _)), (subseteq_take (Z.to_nat _)), Hu.
    - injection Hall as <-. by eapply Hsub. }
  by apply list_elem_of_filter in Hin as [? ?].
Qed.

(** X18. Every user in an answer of [getAllUsers], array or page, is a row
    of the table that passes each filter given: not soft-deleted unless
    [includeDeleted] is true, of the role and the status asked for (an
    empty string asks for nothing), and of an age within [minAge] and
    [maxAge], so that a user without an age is in no answer to a query
    with an age bound.  The database's sort is only assumed to return
    rows it was given. *)
Theorem getAllUsers_rows_pass_filters (users : list User)
    (order_by : SortColumn → SortOrder → option (Z * Z) → list User → list User)
    (f : option UserFilters) (u : User) :
  (∀ c o q rows v, v ∈ order_by c o q rows → v ∈ rows) →
  u ∈ rows_of (getAllUsers users order_by f) →
  u ∈ users
  ∧ (opt includeDeleted f ≠ Some true → deleted_at u = None)
  ∧ (∀ r, opt f_role f = Some r → r ≠ EmptyString → role u = r)
  ∧ (∀ s, opt f_status f = Some s → s ≠ EmptyString → status u = s)
  ∧ (∀ a, opt minAge f = Some a → ∃ x, age u = Some x ∧ a <= x)
  ∧ (∀ a, opt maxAge f = Some a → ∃ x, age u = Some x ∧ x <= a).
Proof.
  intros Hsub Hu.
  assert (u ∈ users ∧ matches f u = true) as [Hin Hm].
  { assert (∀ g, u ∈ rows_of (match findAll users order_by g with
                               | inr us => inr (inl us)
                               | inl e => inl e
                               end) →
                 u ∈ users ∧ matches g u = true) as Hplain.
    { intros g Hg. destruct (findAll users order_by g) as [e | us] eqn:Hall;
        [by apply elem_of_nil in Hg |].
      by apply (findAll_rows users order_by g us u Hsub Hall). }
    unfold getAllUsers in Hu.
    destruct (opt page f) as [p |] eqn:Hp; [| by apply Hplain].
    destruct (opt limit f) as [l |] eqn:Hl; [| by apply Hplain].
    destruct f as [fs |]; [| done].
    destruct (count users _) as [e | total]; [by apply elem_of_nil in Hu |].
    destruct (findAll users order_by _) as [e | us] eqn:Hall;
      [by apply elem_of_nil in Hu |].
    simpl in Hu.
    destruct (findAll_rows users order_by _ us u Hsub Hall Hu) as [? Hm].
    split; [done |]. exact Hm. }
  split; [exact Hin |]. by apply matches_true.
Qed.

Lemma getAllUsers_rows_pass_filters_witness :
  (∀ (c : SortColumn) (o : SortOrder) (q : option (Z * Z)) (rows : list User) (v : User),
     v ∈ (λ _ _ _ r, reverse r) c o q rows → v ∈ rows)
  ∧ example_chi ∈ rows_of (getAllUsers example_users (λ _ _ _ r, reverse r)
                             (Some example_age_filters))
  ∧ ∃ x, age example_chi = Some x ∧ 40 <= x.
Proof.
  assert (∀ (c : SortColumn) (o : SortOrder) (q : option (Z * Z)) (rows : list User)
            (v : User), v ∈ (λ _ _ _ r, reverse r) c o q rows → v ∈ rows) as Hsub
    by (intros c o q rows v Hv; simpl in Hv; by rewrite elem_of_reverse in Hv).
  assert (example_chi ∈ rows_of (getAllUsers example_users (λ _ _ _ r, reverse r)
                                   (Some example_age_filters))) as Hin
    by (vm_compute; apply list_elem_of_here).
  split; [exact Hsub |]. split; [exact Hin |].
  destruct (getAllUsers_rows_pass_filters example_users (λ _ _ _ r, reverse r)
              (Some example_age_filters) example_chi Hsub Hin)
    as (_ & _ & _ & _ & Hmin & _).
  by apply Hmin.
Defined.

End UserPagesFacts.

(** ** Problem 5: the service's validation *)

Section ValidationFacts.
Import Problem5 UserStore.

Lemma atom_not_at (l : list ascii) : forallb atom l = true → "@"%char ∉ l.
Proof.
  intros Hall Hin. rewrite forallb_forall in Hall.
  apply list_elem_of_In, Hall in Hin. done.
Qed.

Lemma split_at_Some (l a d : list ascii) :
  split_at l = Some (a, d) → l = a ++ "@"%char :: d.
Proof.
  revert a. induction l as [| x r IH]; intros a; cbn [split_at]; [done |].
  case_bool_decide as Hx.
  - intros [= <- <-]. by subst.
  - destruct (split_at r) as [[a' d'] |]; [| done].
    intros [= <- <-]. simpl. f_equal. by apply IH.
Qed.

Lemma split_at_app (a d : list ascii) :
  "@"%char ∉ a → split_at (a ++ "@"%char :: d) = Some (a, d).
Proof.
  induction a as [| x a IH]; intros Hnin; cbn [app split_at].
  - by rewrite bool_decide_eq_true_2.
  - rewrite bool_decide_eq_false_2 by set_solver.
    rewrite IH by set_solver. done.
Qed.

Lemma dot_then_more_spec (l : list ascii) :
  dot_then_more l = true ↔ ∃ b c, l = b ++ "."%char :: c ∧ c ≠ [].
Proof.
  induction l as [| x r IH]; cbn [dot_then_more].
  - split; [done |]. intros (b & c & Hl & _). by destruct b.
  - rewrite orb_true_iff, andb_true_iff, bool_decide_eq_true, negb_true_iff,
      bool_decide_eq_false, IH.
    split.
    + intros [[-> Hr] | (b & c & -> & Hc)].
      * by exists [], r.
      * by exists (x :: b), c.
    + intros (b & c & Hl & Hc). destruct b as [| y b]; simpl in Hl.
      * injection Hl as -> ->. by left.
      * injection Hl as -> ->. right. by exists b, c.
Qed.

(** X4. The computed e-mail test accepts exactly the strings the regular
    expression of [validateCreateData] describes: a non-empty run of
    characters other than white space and at signs, an at sign, a second
    such run, a dot, and a third such run. *)
Theorem emailRegex_test_spec (s : string) :
  emailRegex_test s = true ↔ email_shape (String.list_ascii_of_string s).
Proof.
  unfold emailRegex_test, email_shape.
  set (l := String.list_ascii_of_string s). clearbody l. split.
  - destruct (split_at l) as [[a d] |] eqn:Hsplit; [| done].
    apply split_at_Some in Hsplit as ->.
    rewrite !andb_true_iff, negb_true_iff, bool_decide_eq_false.
    intros [[[Ha Hatoms] Hd] Hdot].
    destruct d as [| x r]; [done |].
    apply dot_then_more_spec in Hdot as (b & c & -> & Hc).
    exists a, (x :: b), c.
    change (x :: b ++ "."%char :: c) with ((x :: b) ++ ["."%char] ++ c) in Hd.
    rewrite !forallb_app in Hd. rewrite !andb_true_iff in Hd.
    destruct Hd as (Hb & _ & Hc').
    repeat split; try done.
  - intros (a & b & c & -> & Ha & Hb & Hc & Haa & Hab & Hac).
    simpl. rewrite split_at_app by (by apply atom_not_at).
    rewrite !andb_true_iff, negb_true_iff, bool_decide_eq_false.
    split; [split; [split; [done | done] |] |].
    + rewrite forallb_app. simpl. rewrite Hab, Hac. done.
    + destruct b as [| x b]; [done |]. simpl.
      apply dot_then_more_spec. by exists b, c.
Qed.

(** The cases of the unit tests and some more. *)
Example emailRegex_test_examples :
  emailRegex_test "john.doe@example.com" = true
  ∧ emailRegex_test "a@b.c" = true
  ∧ emailRegex_test "a@b.c.d" = true
  ∧ emailRegex_test "invalid-email" = false
  ∧ emailRegex_test "" = false
  ∧ emailRegex_test "a@b." = false
  ∧ emailRegex_test "a@.c" = false
  ∧ emailRegex_test "@b.c" = false
  ∧ emailRegex_test "a b@c.d" = false
  ∧ emailRegex_test "a@b@c.d" = false.
Proof. vm_compute. repeat split. Qed.

Lemma validateCreateData_None (data : CreateUserDTO) :
  validateCreateData data = None ↔
  blank (c_name data) = false
  ∧ emailRegex_test (c_email data) = true
  ∧ (∀ a, c_age data = Some a → 0 <= a <= 150)
  ∧ blank (c_role data) = false.
Proof.
  unfold validateCreateData.
  destruct (blank (c_name data)); [naive_solver |].
  destruct (blank (c_email data)) eqn:Hbe.
  - split; [done |]. intros (_ & He & _). exfalso.
    unfold blank in Hbe. unfold emailRegex_test in He.
    destruct (split_at _) as [[a d] |] eqn:Hs; [| done].
    apply split_at_Some in Hs. rewrite Hs, forallb_app in Hbe.
    apply andb_true_iff in Hbe as [_ Hbe]. simpl in Hbe. done.
  - destruct (emailRegex_test (c_email data)); simpl; [| naive_solver].
    destruct (c_age data) as [a |].
    + destruct (bool_decide (a < 0) || bool_decide (a > 150)) eqn:Ha.
      * split; [done |]. intros (_ & _ & Hr & _). specialize (Hr a eq_refl).
        apply orb_true_iff in Ha as [Ha | Ha]; apply bool_decide_eq_true in Ha; lia.
      * apply orb_false_iff in Ha as [H1 H2].
        apply bool_decide_eq_false in H1, H2.
        destruct (blank (c_role data)); [naive_solver |].
        split; [| done]. intros _.
        split; [done |]. split; [done |]. split; [| done].
        intros a' [= <-]. lia.
    + destruct (blank (c_role data)); naive_solver.
Qed.

End ValidationFacts.

(** ** Problem 5: the user table *)

Section UserStoreFacts.
Import Problem5 UserStore.

Lemma head_filter_None {A : Type} (P : A → Prop) `{∀ x, Decision (P x)} (l : list A) :
  head (filter P l) = None ↔ ∀ x, x ∈ l → ¬ P x.
Proof.
  induction l as [| y l IH]; [set_solver |].
  rewrite filter_cons. destruct (decide (P y)); simpl.
  - split; [done |]. intros Hall. exfalso. by eapply Hall; [left |].
  - rewrite IH. set_solver.
Qed.

(** Under a key ([f] takes no value twice in [l]), the first row selected
    by a condition on the key is the only one. *)
Lemma head_filter_key {A B : Type} `{EqDecision B} (f : A → B) (k : B)
    (Q : A → Prop) `{∀ x, Decision (Q x)} (l : list A) (x : A) :
  NoDup (f <$> l) →
  head (filter (λ y, f y = k ∧ Q y) l) = Some x ↔ x ∈ l ∧ f x = k ∧ Q x.
Proof.
  intros Hnd. split.
  - intros Hh. apply head_Some_elem_of, list_elem_of_filter in Hh. tauto.
  - induction l as [| y l IH]; intros (Hin & Hk & HQ); [by apply elem_of_nil in Hin |].
    rewrite fmap_cons in Hnd. apply NoDup_cons in Hnd as [Hy Hnd].
    rewrite filter_cons. apply elem_of_cons in Hin as [-> | Hin].
    + by rewrite decide_True.
    + rewrite decide_False; [by apply IH |].
      intros [Hyk _]. apply Hy. rewrite Hyk, <- Hk. by apply list_elem_of_fmap_2.
Qed.

(** *** Parameters and columns *)

Lemma bind_None (ps : list Param) :
  bind ps = None ↔ Forall (λ p, bind_param p = None) ps.
Proof.
  unfold bind. induction ps as [| p ps IH]; simpl.
  - split; [constructor | done].
  - rewrite Forall_cons. destruct (bind_param p); simpl; [naive_solver |].
    rewrite IH. naive_solver.
Qed.

Lemma bind_text (s : string) : bind_param (text s) = None ↔ has_nul s = false.
Proof. simpl. by destruct (has_nul s). Qed.

Lemma bind_int4 (i : Z) : bind [integer int4 i] = None ↔ in_range int4 i.
Proof.
  rewrite bind_None, Forall_cons, bind_integer. split; [tauto |].
  intros H. split; [done | constructor].
Qed.

Lemma findById_inr (db : Db) (i : Z) (b : bool) (r : option User) :
  findById db i b = inr r ↔ in_range int4 i ∧ r = select_by_id db i b.
Proof.
  unfold findById. pose proof (bind_int4 i) as Hb.
  destruct (bind [integer int4 i]); split.
  - done.
  - intros [Hr _]. apply Hb in Hr. done.
  - intros [= <-]. split; [by apply Hb | done].
  - by intros [_ ->].
Qed.

Lemma findById_in_range (db : Db) (i : Z) (b : bool) :
  in_range int4 i → findById db i b = inr (select_by_id db i b).
Proof. intros Hi. by apply findById_inr. Qed.

(** An id that is no [INTEGER] is refused by every statement that has it
    as a parameter, whatever the table. *)
Lemma findById_out_of_range (db : Db) (i : Z) (b : bool) :
  ¬ in_range int4 i → ∃ e, findById db i b = inl (PgError e).
Proof.
  intros Hi. unfold findById. pose proof (bind_int4 i) as Hb.
  destruct (bind [integer int4 i]) as [e |]; [eauto |].
  exfalso. by apply Hi, Hb.
Qed.

Lemma findByEmail_inr (db : Db) (e : string) (b : bool) (r : option User) :
  findByEmail db e b = inr r ↔ has_nul e = false ∧ r = select_by_email db e b.
Proof.
  unfold findByEmail, bind. simpl. destruct (has_nul e); simpl; [naive_solver |].
  naive_solver.
Qed.

Lemma select_by_id_Some (db : Db) (i : Z) (b : bool) (u : User) :
  NoDup (id <$> rows db) →
  select_by_id db i b = Some u ↔ u ∈ rows db ∧ id u = i ∧ visible b u = true.
Proof.
  intros Hnd. unfold select_by_id.
  exact (head_filter_key id i (λ y, visible b y = true) (rows db) u Hnd).
Qed.

Lemma select_by_email_None (db : Db) (e : string) (b : bool) :
  select_by_email db e b = None ↔
  ∀ u, u ∈ rows db → email u = e → visible b u = false.
Proof.
  unfold select_by_email. rewrite head_filter_None. split.
  - intros Hall u Hu He. destruct (visible b u) eqn:Hv; [| done].
    exfalso. by apply (Hall u Hu).
  - intros Hall u Hu [He Hv]. rewrite (Hall u Hu He) in Hv. done.
Qed.

Lemma select_by_id_None (db : Db) (i : Z) (b : bool) :
  select_by_id db i b = None ↔
  ∀ u, u ∈ rows db → id u = i → visible b u = false.
Proof.
  unfold select_by_id. rewrite head_filter_None. split.
  - intros Hall u Hu He. destruct (visible b u) eqn:Hv; [| done].
    exfalso. by apply (Hall u Hu).
  - intros Hall u Hu [He Hv]. rewrite (Hall u Hu He) in Hv. done.
Qed.

(** The whole row of an id, deleted or not. *)
Lemma head_by_id (db : Db) (i : Z) (u : User) :
  NoDup (id <$> rows db) → u ∈ rows db → id u = i →
  head (filter (λ v, id v = i) (rows db)) = Some u.
Proof.
  intros Hnd Hu Hi.
  rewrite (list_filter_iff _ (λ v, id v = i ∧ True)) by (intros v; tauto).
  by apply (head_filter_key id i (λ _, True)).
Qed.

Lemma length_list_ascii (s : string) :
  length (String.list_ascii_of_string s) = String.length s.
Proof. induction s as [| a s IH]; simpl; by f_equal. Qed.

(** A string within the column's length is stored as it is. *)
Lemma varchar_short (n : nat) (s : string) :
  (String.length s <= n)%nat → varchar n s = Some s.
Proof.
  intros Hlen. unfold varchar.
  rewrite drop_ge, take_ge by (rewrite length_list_ascii; lia).
  simpl. by rewrite String.string_of_list_ascii_of_string.
Qed.

(** What a [VARCHAR(n)] column stores is at most [n] characters long, and
    is the string given when that one is. *)
Lemma varchar_Some (n : nat) (s t : string) :
  varchar n s = Some t →
  (String.length t <= n)%nat
  ∧ ((String.length s <= n)%nat → t = s)
  ∧ String.list_ascii_of_string t = take n (String.list_ascii_of_string s).
Proof.
  unfold varchar. destruct (forallb _ _); [| done]. intros [= <-].
  rewrite <- length_list_ascii, String.list_ascii_of_string_of_list_ascii.
  split; [rewrite length_take; lia |]. split; [| done].
  intros Hlen. rewrite take_ge by (rewrite length_list_ascii; lia).
  apply String.string_of_list_ascii_of_string.
Qed.

Lemma status_or_active_fits (s : option string) :
  from_option (fits 50) True s → fits 50 (status_or_active s).
Proof.
  unfold status_or_active. destruct s as [s |]; simpl.
  - intros Hs. case_decide; [| done]. split; [reflexivity | simpl; lia].
  - intros _. split; [reflexivity | simpl; lia].
Qed.

(** The values of valid data that fit the columns are read and stored as
    they are. *)
Lemma create_values_ok (data : CreateUserDTO) :
  validateCreateData data = None →
  dto_fits data →
  bind [text (c_name data); text (c_email data);
        int4_or_null (age_or_null (c_age data));
        text (c_role data); text (status_or_active (c_status data))] = None
  ∧ varchar 255 (c_name data) = Some (c_name data)
  ∧ varchar 255 (c_email data) = Some (c_email data)
  ∧ varchar 100 (c_role data) = Some (c_role data)
  ∧ varchar 50 (status_or_active (c_status data))
    = Some (status_or_active (c_status data)).
Proof.
  intros Hvalid ([Hn1 Hn2] & [He1 He2] & [Hr1 Hr2] & Hs).
  apply status_or_active_fits in Hs as [Hs1 Hs2].
  apply validateCreateData_None in Hvalid as (_ & _ & Hrange & _).
  split; [| by rewrite !varchar_short].
  apply bind_None. repeat apply Forall_cons_2; try (by apply bind_text); [| constructor].
  unfold age_or_null. destruct (c_age data) as [a |]; [| done].
  case_decide; [done |]. simpl. apply bind_integer.
  specialize (Hrange a eq_refl). unfold in_range. simpl. lia.
Qed.

(** *** Creating a user *)

(** What a successful [create] has checked and written. *)
Lemma create_inr (db db' : Db) (data : CreateUserDTO) (now : Z) (u : User) :
  create db data now = (db', inr u) →
  rows db' = rows db ++ [u]
  ∧ next_id db' = next_id db + 1
  ∧ id u = next_id db
  ∧ varchar 255 (c_name data) = Some (name u)
  ∧ varchar 255 (c_email data) = Some (email u)
  ∧ varchar 100 (c_role data) = Some (role u)
  ∧ age u = age_or_null (c_age data)
  ∧ varchar 50 (status_or_active (c_status data)) = Some (status u)
  ∧ deleted_at u = None ∧ created_at u = now ∧ updated_at u = now
  ∧ (id u ∉ id <$> rows db)
  ∧ (email u ∉ email <$> rows db)
  ∧ sequence_live db.
Proof.
  unfold create. destruct (bind _); [done |].
  destruct (varchar 255 (c_name data)) as [n |]; [| done].
  destruct (varchar 255 (c_email data)) as [e |]; [| done].
  destruct (varchar 100 (c_role data)) as [r |]; [| done].
  destruct (varchar 50 _) as [s |]; [| done].
  case_decide as Hseq; [done |].
  cbv zeta. cbn [id email].
  case_bool_decide as Hid; [done |]. case_bool_decide as He; [done |].
  intros [= <- <-]. simpl. by repeat (split; [done |]).
Qed.

Lemma createUser_inr (db db' : Db) (data : CreateUserDTO) (now : Z) (u : User) :
  createUser db data now = (db', inr u) →
  validateCreateData data = None
  ∧ select_by_email db (c_email data) false = None
  ∧ create db data now = (db', inr u).
Proof.
  unfold createUser.
  destruct (validateCreateData data); [done |].
  destruct (findByEmail db (c_email data) false) as [t | [v |]] eqn:Hf; try done.
  apply findByEmail_inr in Hf as [_ Hf]. done.
Qed.

(** With valid data that fit the columns and an e-mail that is in no row,
    the insertion goes through. *)
Lemma createUser_free_email (db : Db) (data : CreateUserDTO) (now : Z) :
  db_wf db →
  sequence_live db →
  dto_fits data →
  validateCreateData data = None →
  c_email data ∉ (email <$> rows db) →
  ∃ db' u, createUser db data now = (db', inr u).
Proof.
  intros (Hids & Hemails & Hnext) Hseq Hfits Hvalid Hfree.
  destruct (create_values_ok data Hvalid Hfits) as (Hbind & Hn & He & Hr & Hs).
  unfold createUser. rewrite Hvalid.
  assert (findByEmail db (c_email data) false = inr None) as ->.
  { apply findByEmail_inr. split; [apply Hfits |]. symmetry.
    apply select_by_email_None. intros u Hu Heq. exfalso. apply Hfree.
    rewrite <- Heq. by apply list_elem_of_fmap_2. }
  unfold create. rewrite Hbind, Hn, He, Hr, Hs.
  rewrite decide_False by (by intros H; apply H).
  cbv zeta. cbn [id email].
  rewrite bool_decide_eq_false_2.
  - rewrite bool_decide_eq_false_2 by done. eauto.
  - intros (u & Hid & Hu)%list_elem_of_fmap.
    rewrite Forall_forall in Hnext. specialize (Hnext u Hu). lia.
Qed.

(** X5. On a table that satisfies its constraints and whose sequence is
    not exhausted, for data that fit the columns (no code unit 0, lengths
    within the columns): [createUser] returns a user exactly when the data
    pass the validation and the e-mail is in no row, soft-deleted rows
    included. *)
Theorem createUser_succeeds_iff (db : Db) (data : CreateUserDTO) (now : Z) :
  db_wf db →
  sequence_live db →
  dto_fits data →
  (∃ db' u, createUser db data now = (db', inr u)) ↔
  validateCreateData data = None ∧ c_email data ∉ (email <$> rows db).
Proof.
  intros Hwf Hseq Hfits. split.
  - intros (db' & u & (Hvalid & _ & Hc)%createUser_inr). split; [done |].
    apply create_inr in Hc
      as (_ & _ & _ & _ & He & _ & _ & _ & _ & _ & _ & _ & Hfree & _).
    destruct Hfits as (_ & [_ Hlen] & _).
    apply varchar_Some in He as (_ & He & _). by rewrite <- (He Hlen).
  - intros [Hvalid Hfree]. by apply createUser_free_email.
Qed.

Lemma count_None (us : list User) :
  Problem5.count us None
  = inr (Z.of_nat (length (filter (λ u, matches None u = true) us))).
Proof. reflexivity. Qed.

Lemma matches_None (u : User) : matches None u = true ↔ deleted_at u = None.
Proof. unfold matches. simpl. rewrite !andb_true_r. apply bool_decide_eq_true. Qed.

(** X6. A successful [createUser] appends one row and returns it: the id
    is the next of the sequence; name, e-mail, role and status are the
    values given as their columns store them (as they are when they fit,
    cut to the column's length when only spaces are cut), an age of 0 is
    stored as NULL and a missing or empty status as "active"; on a table
    that satisfies its constraints the new user is found by its id, every
    other lookup is as before, and the count goes up by one. *)
Theorem createUser_adds_one_row (db db' : Db) (data : CreateUserDTO) (now : Z)
    (u : User) :
  db_wf db →
  createUser db data now = (db', inr u) →
  rows db' = rows db ++ [u]
  ∧ next_id db' = next_id db + 1
  ∧ id u = next_id db
  ∧ varchar 255 (c_name data) = Some (name u)
  ∧ varchar 255 (c_email data) = Some (email u)
  ∧ varchar 100 (c_role data) = Some (role u)
  ∧ varchar 50 (status_or_active (c_status data)) = Some (status u)
  ∧ age u = age_or_null (c_age data)
  ∧ (dto_fits data →
     name u = c_name data ∧ email u = c_email data ∧ role u = c_role data
     ∧ status u = status_or_active (c_status data))
  ∧ deleted_at u = None
  ∧ getUserById db' (id u) = inr (Some u)
  ∧ (∀ j b, j ≠ id u → findById db' j b = findById db j b)
  ∧ ∃ c, Problem5.count (rows db) None = inr c
         ∧ Problem5.count (rows db') None = inr (c + 1).
Proof.
  intros (Hids & Hemails & Hnext) (_ & _ & Hc)%createUser_inr.
  apply create_inr in Hc
    as (Hrows & Hn & Hid & Hname & Hemail & Hrole & Ha & Hs & Hd & _ & _ & Hfresh & _
        & Hseq).
  repeat (split; [done |]).
  split; [| split; [done |]; split; [| split]].
  - intros ([_ H1] & [_ H2] & [_ H3] & H4).
    apply status_or_active_fits in H4 as [_ H4].
    apply varchar_Some in Hname as (_ & Hname & _), Hemail as (_ & Hemail & _),
      Hrole as (_ & Hrole & _), Hs as (_ & Hs & _).
    by rewrite Hname, Hemail, Hrole, Hs.
  - unfold getUserById. apply findById_inr.
    split; [unfold sequence_live, in_range in *; simpl in *; lia |]. symmetry.
    apply select_by_id_Some.
    + rewrite Hrows, fmap_app. apply NoDup_app. split; [done |].
      split; [| repeat constructor; set_solver].
      intros x Hx ->%list_elem_of_singleton. done.
    + rewrite Hrows. split; [set_solver |]. split; [done |].
      unfold visible. by rewrite Hd.
  - intros j b Hj. unfold findById, select_by_id. rewrite Hrows, filter_app.
    rewrite (filter_cons _ u), decide_False by (intros [? _]; congruence).
    by rewrite filter_nil, app_nil_r.
  - eexists. split; [apply count_None |]. rewrite count_None. f_equal.
    rewrite Hrows, filter_app, length_app.
    rewrite filter_cons, decide_True, filter_nil by (by apply matches_None).
    simpl. lia.
Qed.

(** A live row that holds the e-mail is what the service's lookup finds. *)
Lemma select_by_email_live (db : Db) (e : string) (u : User) :
  u ∈ rows db → email u = e → deleted_at u = None →
  is_Some (select_by_email db e false).
Proof.
  intros Hu He Hd. destruct (select_by_email db e false) eqn:Hf; [done |].
  exfalso. rewrite select_by_email_None in Hf. specialize (Hf u Hu He).
  unfold visible in Hf. by rewrite Hd in Hf.
Qed.

(** What [create] leaves behind when it throws: the rows as they were, and
    the sequence as it was unless a unique key refused the row. *)
Lemma create_inl (db db' : Db) (data : CreateUserDTO) (now : Z) (t : Thrown) :
  create db data now = (db', inl t) →
  db' = db
  ∨ (db' = {| rows := rows db; next_id := next_id db + 1 |}
     ∧ (t = PgError users_pkey ∨ t = PgError users_email_key)).
Proof.
  unfold create. destruct (bind _); [intros [= <- _]; by left |].
  destruct (varchar 255 (c_name data)) as [n |]; [| intros [= <- _]; by left].
  destruct (varchar 255 (c_email data)) as [e |]; [| intros [= <- _]; by left].
  destruct (varchar 100 (c_role data)) as [r |]; [| intros [= <- _]; by left].
  destruct (varchar 50 _) as [s |]; [| intros [= <- _]; by left].
  case_decide; [intros [= <- _]; by left |].
  cbv zeta. case_bool_decide; [intros [= <- <-]; right; auto |].
  case_bool_decide; [intros [= <- <-]; right; auto | done].
Qed.

(** X7. How [createUser] fails.  Whatever it throws, no row is written or
    changed, and the sequence has moved only if a unique key refused the
    row.  Valid data whose e-mail a live user holds are refused with
    "Email already exists", the table untouched.  Valid, fitting data
    whose e-mail only a soft-deleted user holds pass the service's own
    check, which does not look at deleted rows, and fail in the database
    on the unique constraint, after the sequence has advanced.  Valid data
    with the code unit 0 in the name pass the service's checks and are
    refused by the database before anything is touched. *)
Theorem createUser_failures (db : Db) (data : CreateUserDTO) (now : Z) :
  (∀ db' t, createUser db data now = (db', inl t) →
     rows db' = rows db
     ∧ (next_id db' = next_id db
        ∨ (next_id db' = next_id db + 1
           ∧ (t = PgError users_pkey ∨ t = PgError users_email_key))))
  ∧ (validateCreateData data = None → has_nul (c_email data) = false →
     (∃ u, u ∈ rows db ∧ email u = c_email data ∧ deleted_at u = None) →
     createUser db data now = (db, inl (JsError "Email already exists")))
  ∧ (db_wf db → sequence_live db → dto_fits data → validateCreateData data = None →
     (∃ u, u ∈ rows db ∧ email u = c_email data ∧ deleted_at u ≠ None) →
     createUser db data now
     = ({| rows := rows db; next_id := next_id db + 1 |},
        inl (PgError users_email_key)))
  ∧ (validateCreateData data = None → has_nul (c_email data) = false →
     select_by_email db (c_email data) false = None →
     has_nul (c_name data) = true →
     createUser db data now = (db, inl (PgError invalid_byte_sequence))).
Proof.
  split; [| split; [| split]].
  - intros db' t. unfold createUser.
    destruct (validateCreateData data); [intros [= <- _]; auto |].
    destruct (findByEmail db (c_email data) false) as [e | [v |]];
      [intros [= <- _]; auto | intros [= <- _]; auto |].
    intros [-> | [-> Ht]]%create_inl; simpl; auto.
  - intros Hvalid Hnul (u & Hu & He & Hd). unfold createUser. rewrite Hvalid.
    destruct (select_by_email_live db (c_email data) u Hu He Hd) as [v Hv].
    assert (findByEmail db (c_email data) false = inr (Some v)) as ->
      by (by apply findByEmail_inr).
    done.
  - intros (Hids & Hemails & Hnext) Hseq Hfits Hvalid (u & Hu & He & Hd).
    destruct (create_values_ok data Hvalid Hfits) as (Hbind & Hn & Hem & Hr & Hs).
    unfold createUser. rewrite Hvalid.
    assert (findByEmail db (c_email data) false = inr None) as ->.
    { apply findByEmail_inr. split; [apply Hfits |]. symmetry.
      apply select_by_email_None. intros v Hv Hev.
      assert (v = u) as -> by (eapply (NoDup_fmap_eq email); [done.. | congruence]).
      unfold visible. simpl. by apply bool_decide_eq_false_2. }
    unfold create. rewrite Hbind, Hn, Hem, Hr, Hs.
    rewrite decide_False by (by intros H; apply H).
    cbv zeta. cbn [id email].
    rewrite bool_decide_eq_false_2.
    + rewrite bool_decide_eq_true_2; [done |].
      rewrite <- He. by apply list_elem_of_fmap_2.
    + intros (x & Hid & Hx)%list_elem_of_fmap.
      rewrite Forall_forall in Hnext. specialize (Hnext x Hx). lia.
  - intros Hvalid Hnul Hfree Hname. unfold createUser. rewrite Hvalid.
    assert (findByEmail db (c_email data) false = inr None) as ->
      by (by apply findByEmail_inr).
    unfold create, bind. cbn [omap list_omap bind_param]. by rewrite Hname.
Qed.

(** *** Soft delete, restore, hard delete *)

Lemma set_deleted_at_id (d : option Z) (u : User) : id (set_deleted_at d u) = id u.
Proof. done. Qed.

Lemma set_deleted_at_restore (now : Z) (u : User) :
  deleted_at u = None → set_deleted_at None (set_deleted_at (Some now) u) = u.
Proof. destruct u. simpl. by intros ->. Qed.

(** A rewrite of some rows that keeps a column leaves the column as it
    was. *)
Lemma fmap_column_keep {B : Type} (col : User → B) (g : User → User) (l : list User) :
  (∀ u, col (g u) = col u) → col <$> (g <$> l) = col <$> l.
Proof.
  intros Hg. rewrite <- list_fmap_compose. apply list_fmap_ext.
  intros k u _. apply Hg.
Qed.

(** A rewrite that touches only rows a condition rejects, before and
    after, does not change what the condition selects. *)
Lemma filter_fmap_keep (P : User → Prop) `{∀ u, Decision (P u)} (g : User → User)
    (l : list User) :
  (∀ u, u ∈ l → g u = u ∨ (¬ P u ∧ ¬ P (g u))) →
  filter P (g <$> l) = filter P l.
Proof.
  induction l as [| x l IH]; intros Hg; [done |].
  rewrite fmap_cons, !filter_cons, IH by (intros u Hu; apply Hg; by right).
  destruct (Hg x ltac:(by left)) as [-> | [H1 H2]]; [done |].
  by rewrite !decide_False.
Qed.

(** The statement with an id that is an [INTEGER]. *)
Lemma delete_in_range (db : Db) (i now : Z) :
  in_range int4 i →
  delete db i now
  = ({| rows := (λ u, if decide (id u = i ∧ deleted_at u = None)
                      then set_deleted_at (Some now) u else u) <$> rows db;
        next_id := next_id db |},
     inr (bool_decide (Exists (λ u, id u = i ∧ deleted_at u = None) (rows db)))).
Proof. intros Hi. unfold delete. by rewrite (proj2 (bind_int4 i) Hi). Qed.

(** With any other id the statement is refused and nothing is touched. *)
Lemma delete_out_of_range (db : Db) (i now : Z) :
  ¬ in_range int4 i → ∃ e, delete db i now = (db, inl (PgError e)).
Proof.
  intros Hi. unfold delete. pose proof (bind_int4 i) as Hb.
  destruct (bind [integer int4 i]) as [e |]; [eauto |]. exfalso. by apply Hi, Hb.
Qed.

Lemma delete_keeps_columns (db : Db) (i now : Z) :
  id <$> rows (delete db i now).1 = id <$> rows db
  ∧ email <$> rows (delete db i now).1 = email <$> rows db
  ∧ next_id (delete db i now).1 = next_id db.
Proof.
  unfold delete. destruct (bind [integer int4 i]); [done |]. simpl.
  split; [| split; [| done]]; apply fmap_column_keep; intros u; by case_decide.
Qed.

Lemma delete_other (db : Db) (i j now : Z) (b : bool) :
  j ≠ i → findById (delete db i now).1 j b = findById db j b.
Proof.
  intros Hj. unfold delete. destruct (bind [integer int4 i]); [done |].
  unfold findById, select_by_id. simpl. destruct (bind [integer int4 j]); [done |].
  do 2 f_equal.
  apply filter_fmap_keep. intros u _. case_decide as Hc; [| by left].
  right. simpl. destruct Hc as [Hi _]. split; intros [? _]; congruence.
Qed.

Lemma delete_hides (db : Db) (i now : Z) :
  in_range int4 i → findById (delete db i now).1 i false = inr None.
Proof.
  intros Hi. rewrite findById_in_range by done. f_equal.
  apply select_by_id_None. intros v Hv Hid. rewrite delete_in_range in Hv by done.
  apply list_elem_of_fmap in Hv as (u & -> & Hu).
  unfold visible. simpl. apply bool_decide_eq_false_2.
  destruct (decide (id u = i ∧ deleted_at u = None)) as [Hc | Hc]; [done |].
  intros Hd. by apply Hc.
Qed.

Lemma delete_result (db : Db) (i now : Z) :
  in_range int4 i →
  (delete db i now).2 = inr true ↔ is_Some (select_by_id db i false).
Proof.
  intros Hi. rewrite delete_in_range by done. simpl.
  assert (∀ b : bool, @inr Thrown bool b = inr true ↔ b = true) as ->
    by (intros b; split; [by intros [= ->] | by intros ->]).
  rewrite bool_decide_eq_true, Exists_exists. split.
  - intros (u & Hu & Hid & Hd).
    destruct (select_by_id db i false) eqn:Hf; [done |]. exfalso.
    rewrite select_by_id_None in Hf. specialize (Hf u Hu Hid).
    unfold visible in Hf. by rewrite Hd in Hf.
  - intros [u Hf]. apply head_Some_elem_of, list_elem_of_filter in Hf
      as [[Hid Hv] Hu].
    exists u. split; [done |]. split; [done |].
    unfold visible in Hv. simpl in Hv. by apply bool_decide_eq_true in Hv.
Qed.

(** X8. Soft delete and restore undo each other.  For a user the service
    can see, on a table that satisfies its constraints, [deleteUser]
    answers true and hides the user from [getUserById], and [restoreUser]
    then returns the user and leaves the table exactly as it was before
    the deletion. *)
Theorem delete_restore_round_trip (db : Db) (i now : Z) (u : User) :
  db_wf db →
  getUserById db i = inr (Some u) →
  (deleteUser db i now).2 = inr true
  ∧ getUserById (deleteUser db i now).1 i = inr None
  ∧ restoreUser (deleteUser db i now).1 i = (db, inr (Some u)).
Proof.
  intros (Hids & Hemails & Hnext) Hget. unfold getUserById, deleteUser, restoreUser in *.
  apply findById_inr in Hget as [Hi Hget]. symmetry in Hget.
  split; [apply delete_result; [done | by rewrite Hget] |].
  split; [by apply delete_hides |].
  apply select_by_id_Some in Hget as (Hu & Hid & Hv); [| done].
  unfold visible in Hv. simpl in Hv. apply bool_decide_eq_true in Hv.
  unfold restore. rewrite (proj2 (bind_int4 i) Hi). f_equal.
  - rewrite delete_in_range by done.
    destruct db as [rs n]. simpl in *. f_equal.
    rewrite <- list_fmap_compose. rewrite <- (list_fmap_id rs) at 2.
    apply list_fmap_ext. intros k v Hk. simpl.
    apply list_elem_of_lookup_2 in Hk.
    destruct (decide (id v = i ∧ deleted_at v = None)) as [[Hvi Hvd] | Hc].
    + rewrite decide_True by (by simpl). by apply set_deleted_at_restore.
    + rewrite decide_False; [done |]. intros [Hvi Hvd]. apply Hc. split; [done |].
      assert (v = u) as -> by (eapply (NoDup_fmap_eq id); [done.. | congruence]).
      done.
  - assert (head (filter (λ v, id v = i ∧ deleted_at v ≠ None) (rows (delete db i now).1))
            = Some (set_deleted_at (Some now) u)) as ->.
    { apply (head_filter_key id i (λ v, deleted_at v ≠ None)).
      - destruct (delete_keeps_columns db i now) as [-> _]. done.
      - split; [| done]. rewrite delete_in_range by done. apply list_elem_of_fmap.
        exists u. split; [| done]. by rewrite decide_True. }
    simpl. do 2 f_equal. by apply set_deleted_at_restore.
Qed.

Lemma live_count_cons (x : User) (l : list User) :
  Z.of_nat (length (filter (λ u, matches None u = true) (x :: l)))
  = (if decide (deleted_at x = None) then 1 else 0)
    + Z.of_nat (length (filter (λ u, matches None u = true) l)).
Proof.
  pose proof (matches_None x) as Hm. rewrite filter_cons.
  destruct (decide (matches None x = true)) as [H1 | H1],
           (decide (deleted_at x = None)) as [H2 | H2];
    rewrite ?length_cons; try lia; tauto.
Qed.

Lemma live_count_delete (l : list User) (i now : Z) :
  NoDup (id <$> l) →
  Z.of_nat (length (filter (λ u, matches None u = true)
                      ((λ u, if decide (id u = i ∧ deleted_at u = None)
                             then set_deleted_at (Some now) u else u) <$> l)))
  = Z.of_nat (length (filter (λ u, matches None u = true) l))
    - (if bool_decide (Exists (λ u, id u = i ∧ deleted_at u = None) l) then 1 else 0).
Proof.
  induction l as [| x l IH]; intros Hnd.
  - case_bool_decide as HE; [by apply Exists_nil in HE | done].
  - rewrite fmap_cons in Hnd. apply NoDup_cons in Hnd as [Hx Hnd].
    rewrite fmap_cons, !live_count_cons, IH by done.
    assert (Exists (λ u, id u = i ∧ deleted_at u = None) (x :: l) ↔
            (id x = i ∧ deleted_at x = None)
            ∨ Exists (λ u, id u = i ∧ deleted_at u = None) l) as Hcons
      by apply Exists_cons.
    assert (id x = i → ¬ Exists (λ u, id u = i ∧ deleted_at u = None) l) as Hone.
    { intros Hi (v & Hv & Hvi & _)%Exists_exists. apply Hx.
      rewrite Hi, <- Hvi. by apply list_elem_of_fmap_2. }
    destruct (decide (id x = i ∧ deleted_at x = None)) as [[Hi Hd] | Hc].
    + rewrite (decide_False (P := deleted_at (set_deleted_at (Some now) x) = None))
        by done.
      rewrite (decide_True (P := deleted_at x = None)) by done.
      do 2 case_bool_decide; try lia; tauto.
    + do 2 case_bool_decide; try lia; tauto.
Qed.

(** X9. [deleteUser] is a soft delete.  With an id that is an [INTEGER]
    it answers true exactly when [getUserById] finds the user; afterwards
    the user is hidden from [getUserById] while no row has left the table,
    every other user is found as before, the number of users counted
    without filters is one less if it answered true, and deleting again
    answers false and changes nothing.  With any other id the database
    refuses the statement: the call throws and the table is untouched. *)
Theorem deleteUser_is_soft (db : Db) (i now later : Z) :
  db_wf db →
  (in_range int4 i →
   ((deleteUser db i now).2 = inr true ↔ ∃ u, getUserById db i = inr (Some u))
   ∧ (∃ answer, (deleteUser db i now).2 = inr answer
                ∧ ∃ c, Problem5.count (rows db) None = inr c
                       ∧ Problem5.count (rows (deleteUser db i now).1) None
                         = inr (c - (if answer then 1 else 0)))
   ∧ getUserById (deleteUser db i now).1 i = inr None
   ∧ id <$> rows (deleteUser db i now).1 = id <$> rows db
   ∧ (∀ j b, j ≠ i → findById (deleteUser db i now).1 j b = findById db j b)
   ∧ deleteUser (deleteUser db i now).1 i later = ((deleteUser db i now).1, inr false))
  ∧ (¬ in_range int4 i → ∃ e, deleteUser db i now = (db, inl (PgError e))).
Proof.
  intros (Hids & Hemails & Hnext). unfold deleteUser, getUserById.
  split; [| apply delete_out_of_range]. intros Hi.
  split.
  { rewrite delete_result, findById_in_range by done. split.
    - intros [u Hu]. exists u. by rewrite Hu.
    - intros [u [= Hu]]. by rewrite Hu. }
  split.
  { rewrite delete_in_range by done. simpl. eexists. split; [done |].
    eexists. split; [apply count_None |]. rewrite count_None. f_equal.
    by apply live_count_delete. }
  split; [by apply delete_hides |].
  split; [apply delete_keeps_columns |].
  split; [intros j b Hj; by apply delete_other |].
  assert (∀ v, v ∈ rows (delete db i now).1 → ¬ (id v = i ∧ deleted_at v = None)) as Hnone.
  { intros v Hv. rewrite delete_in_range in Hv by done.
    apply list_elem_of_fmap in Hv as (u & -> & Hu).
    destruct (decide (id u = i ∧ deleted_at u = None)); [by intros [_ ?] | done]. }
  rewrite (delete_in_range (delete db i now).1) by done. f_equal.
  - destruct (delete db i now).1 as [rs n] eqn:Hdb. simpl in *. f_equal.
    rewrite <- (list_fmap_id rs) at 2. apply list_fmap_ext.
    intros k v Hk. apply list_elem_of_lookup_2 in Hk.
    by rewrite decide_False by (by apply Hnone).
  - f_equal. apply bool_decide_eq_false_2. intros (v & Hv & Hc)%Exists_exists.
    by apply (Hnone v).
Qed.

(** *** Hard delete *)

Lemma hardDelete_in_range (db : Db) (i : Z) :
  in_range int4 i →
  hardDelete db i
  = ({| rows := filter (λ u, id u ≠ i) (rows db); next_id := next_id db |},
     inr (bool_decide (Exists (λ u, id u = i) (rows db)))).
Proof. intros Hi. unfold hardDelete. by rewrite (proj2 (bind_int4 i) Hi). Qed.

Lemma hardDelete_wf (db : Db) (i : Z) : db_wf db → db_wf (hardDelete db i).1.
Proof.
  intros (Hids & Hemails & Hnext). unfold hardDelete.
  destruct (bind [integer int4 i]); [done |]. simpl.
  split; [| split].
  - apply (sublist_NoDup _ (id <$> rows db)); [exact Hids |].
    apply fmap_sublist, sublist_filter.
  - apply (sublist_NoDup _ (email <$> rows db)); [exact Hemails |].
    apply fmap_sublist, sublist_filter.
  - rewrite Forall_forall in *. intros v [_ Hv]%list_elem_of_filter. by apply Hnext.
Qed.

(** X10. [hardDeleteUser] removes the row for good, and only then is the
    e-mail free again.  For a row with id [i], live or soft-deleted, on a
    table that satisfies its constraints and whose sequence is not
    exhausted: before the hard delete no [createUser] with that row's
    e-mail succeeds; after it the id is found not even among deleted rows,
    every other lookup is as before, and [createUser] with valid, fitting
    data and that e-mail succeeds. *)
Theorem hardDeleteUser_frees_email (db : Db) (i now : Z) (u : User)
    (data : CreateUserDTO) :
  db_wf db →
  sequence_live db →
  findById db i true = inr (Some u) →
  validateCreateData data = None →
  dto_fits data →
  c_email data = email u →
  (hardDeleteUser db i).2 = inr true
  ∧ findById (hardDeleteUser db i).1 i true = inr None
  ∧ (∀ j b, j ≠ i → findById (hardDeleteUser db i).1 j b = findById db j b)
  ∧ (∀ db' v, createUser db data now ≠ (db', inr v))
  ∧ ∃ db' v, createUser (hardDeleteUser db i).1 data now = (db', inr v).
Proof.
  intros Hwf Hseq Hfind Hvalid Hfits He.
  pose proof Hwf as (Hids & Hemails & Hnext).
  apply findById_inr in Hfind as [Hi Hfind]. symmetry in Hfind.
  apply select_by_id_Some in Hfind as (Hu & Hid & _); [| done].
  pose proof (hardDelete_wf db i Hwf) as Hwf'.
  unfold hardDeleteUser in *. rewrite hardDelete_in_range in * by done. simpl.
  split; [| split; [| split; [| split]]].
  - f_equal. apply bool_decide_eq_true_2, Exists_exists. eauto.
  - rewrite findById_in_range by done. f_equal.
    apply select_by_id_None. intros v Hv Hvi. simpl in Hv.
    by apply list_elem_of_filter in Hv as [? _].
  - intros j b Hj. unfold findById, select_by_id. simpl.
    destruct (bind [integer int4 j]); [done |]. do 2 f_equal.
    rewrite list_filter_filter. apply list_filter_iff. intros x. naive_solver.
  - intros db' v (_ & _ & Hc)%createUser_inr.
    apply create_inr in Hc
      as (_ & _ & _ & _ & Hev & _ & _ & _ & _ & _ & _ & _ & Hfree & _).
    destruct Hfits as (_ & [_ Hlen] & _).
    apply varchar_Some in Hev as (_ & Hev & _). rewrite (Hev Hlen) in Hfree.
    apply Hfree. rewrite He. by apply list_elem_of_fmap_2.
  - apply createUser_free_email; [done | done | done | done |].
    intros (v & Hev & Hv)%list_elem_of_fmap. simpl in Hv.
    apply list_elem_of_filter in Hv as [Hvi Hv].
    apply Hvi. rewrite <- Hid. f_equal.
    eapply (NoDup_fmap_eq email); [done.. | congruence].
Qed.

(** *** Update *)

Lemma set_fields_id (data : UpdateUserDTO) (now : Z) (u : User) :
  id (set_fields data now u) = id u.
Proof. done. Qed.

Lemma update_rows_id (data : UpdateUserDTO) (i now : Z) (l : list User) :
  id <$> ((λ u, if decide (id u = i) then set_fields data now u else u) <$> l)
  = id <$> l.
Proof. apply fmap_column_keep. intros u. by case_decide. Qed.

Lemma varchar_field_fits (n : nat) (o : option string) :
  from_option (fits n) True o → varchar_field n o = Some o.
Proof.
  destruct o as [s |]; simpl; [| done]. intros [_ Hlen]. by rewrite varchar_short.
Qed.

(** Values that fit are stored as they are. *)
Lemma stored_fits (data : UpdateUserDTO) : update_fits data → stored data = Some data.
Proof.
  intros (Hn & He & _ & Hr & Hs). unfold stored.
  rewrite !varchar_field_fits by done. simpl. by destruct data.
Qed.

Lemma stored_Some (data values : UpdateUserDTO) :
  stored data = Some values →
  varchar_field 255 (u_name data) = Some (u_name values)
  ∧ varchar_field 255 (u_email data) = Some (u_email values)
  ∧ varchar_field 100 (u_role data) = Some (u_role values)
  ∧ varchar_field 50 (u_status data) = Some (u_status values)
  ∧ u_age values = u_age data.
Proof.
  unfold stored.
  destruct (varchar_field 255 (u_name data)) as [n |]; [| done].
  destruct (varchar_field 255 (u_email data)) as [e |]; [| done].
  destruct (varchar_field 100 (u_role data)) as [r |]; [| done].
  destruct (varchar_field 50 (u_status data)) as [s |]; [| done].
  simpl. by intros [= <-].
Qed.

Lemma column_set_field (n : nat) (given value : option string) (old : string) :
  varchar_field n given = Some value → column_set n given old (default old value).
Proof.
  unfold varchar_field, column_set. destruct given as [s |].
  - destruct (varchar n s) as [t |]; simpl; [| done]. by intros [= <-].
  - by intros [= <-].
Qed.

(** Values that fit, with an id that is an [INTEGER], are parameters the
    server reads. *)
Lemma update_params_ok (data : UpdateUserDTO) (i : Z) :
  update_fits data → in_range int4 i → bind (update_params data i) = None.
Proof.
  intros (Hn & He & Ha & Hr & Hs) Hi. apply bind_None. unfold update_params.
  apply Forall_app_2.
  { destruct (u_name data); simpl in *; [| constructor].
    apply Forall_cons_2; [apply bind_text, Hn | constructor]. }
  apply Forall_app_2.
  { destruct (u_email data); simpl in *; [| constructor].
    apply Forall_cons_2; [apply bind_text, He | constructor]. }
  apply Forall_app_2.
  { destruct (u_age data); simpl in *; [| constructor].
    apply Forall_cons_2; [by apply bind_integer | constructor]. }
  apply Forall_app_2.
  { destruct (u_role data); simpl in *; [| constructor].
    apply Forall_cons_2; [apply bind_text, Hr | constructor]. }
  apply Forall_app_2.
  { destruct (u_status data); simpl in *; [| constructor].
    apply Forall_cons_2; [apply bind_text, Hs | constructor]. }
  apply Forall_cons_2; [by apply bind_integer | constructor].
Qed.

(** What a successful [update] with fields to set has done. *)
Lemma update_inr (db db' : Db) (i : Z) (data : UpdateUserDTO) (now : Z) (u' : User) :
  no_fields data = false →
  update db i data now = (db', inr (Some u')) →
  ∃ values old,
    stored data = Some values
    ∧ head (filter (λ u, id u = i) (rows db)) = Some old
    ∧ u' = set_fields values now old
    ∧ (email u' ∉ email <$> filter (λ u, id u ≠ i) (rows db))
    ∧ rows db' = (λ u, if decide (id u = i) then set_fields values now u else u)
                   <$> rows db
    ∧ next_id db' = next_id db.
Proof.
  intros Hnf. unfold update. rewrite Hnf.
  destruct (bind _); [done |].
  destruct (stored data) as [values |]; [| done].
  destruct (head (filter _ (rows db))) as [old |]; [| done].
  cbv zeta. case_bool_decide as Hfree; [done |].
  intros [= <- <-]. by exists values, old.
Qed.

(** The [update] that goes through. *)
Lemma update_ok (db : Db) (i : Z) (data : UpdateUserDTO) (now : Z) (old : User) :
  NoDup (id <$> rows db) →
  no_fields data = false →
  update_fits data →
  in_range int4 i →
  old ∈ rows db → id old = i →
  email (set_fields data now old) ∉ email <$> filter (λ u, id u ≠ i) (rows db) →
  update db i data now
  = ({| rows := (λ u, if decide (id u = i) then set_fields data now u else u)
                  <$> rows db;
        next_id := next_id db |},
     inr (Some (set_fields data now old))).
Proof.
  intros Hids Hnf Hfits Hi Hold Hid Hfree. unfold update.
  rewrite Hnf, update_params_ok, stored_fits, (head_by_id db i old) by done.
  cbv zeta. by rewrite bool_decide_eq_false_2.
Qed.

Lemma updateUser_inr (db db' : Db) (i : Z) (data : UpdateUserDTO) (now : Z)
    (r : option User) :
  updateUser db i data now = (db', inr r) →
  (findById db i false = inr None ∧ db' = db ∧ r = None)
  ∨ ∃ old, findById db i false = inr (Some old) ∧ update db i data now = (db', inr r).
Proof.
  unfold updateUser. destruct (findById db i false) as [t | [old |]]; [done | |].
  - destruct (email_to_check data old) as [e |]; [| right; by exists old].
    destruct (findByEmail db e false) as [t | [other |]]; [done | done |].
    right. by exists old.
  - intros [= <- <-]. by left.
Qed.

(** X11. A successful [updateUser] changes one user.  On a table that
    satisfies its constraints, if it returns a user then that user was
    visible before; with no field given the user comes back as is and the
    table is untouched; otherwise each text field given is set to what its
    [VARCHAR] column stores of it (the string itself, or the string cut to
    the column's length when only spaces are cut), the age is set if
    given, the fields not given stay, and [updated_at] is the time of the
    call; values that fit their columns are stored as they are.  The id,
    the creation time and the deletion mark stay; the user is found under
    its id afterwards, and every other lookup is as before. *)
Theorem updateUser_changes_one_user (db db' : Db) (i : Z) (data : UpdateUserDTO)
    (now : Z) (u' : User) :
  db_wf db →
  updateUser db i data now = (db', inr (Some u')) →
  ∃ old,
    getUserById db i = inr (Some old)
    ∧ (no_fields data = true → u' = old ∧ db' = db)
    ∧ (no_fields data = false →
       column_set 255 (u_name data) (name old) (name u')
       ∧ column_set 255 (u_email data) (email old) (email u')
       ∧ age u' = from_option Some (age old) (u_age data)
       ∧ column_set 100 (u_role data) (role old) (role u')
       ∧ column_set 50 (u_status data) (status old) (status u')
       ∧ updated_at u' = now
       ∧ (update_fits data → u' = set_fields data now old))
    ∧ id u' = i ∧ created_at u' = created_at old ∧ deleted_at u' = None
    ∧ getUserById db' i = inr (Some u')
    ∧ (∀ j b, j ≠ i → findById db' j b = findById db j b)
    ∧ id <$> rows db' = id <$> rows db.
Proof.
  intros (Hids & Hemails & Hnext) Hup. unfold getUserById.
  apply updateUser_inr in Hup as [(_ & _ & [=]) | (old & Hold & Hup)].
  exists old. split; [done |].
  pose proof Hold as [Hi Hsel]%findById_inr. symmetry in Hsel.
  pose proof Hsel as (Hmem & Hid & Hvis)%select_by_id_Some; [| done].
  unfold visible in Hvis. simpl in Hvis. apply bool_decide_eq_true in Hvis.
  destruct (no_fields data) eqn:Hnf.
  - unfold update in Hup. rewrite Hnf, Hold in Hup. injection Hup as <- <-.
    repeat split; try done.
  - apply update_inr in Hup as (values & old' & Hstored & Hhead & -> & _ & Hrows & _);
      [| done].
    assert (old' = old) as ->.
    { apply head_Some_elem_of, list_elem_of_filter in Hhead as [Hi' Hm'].
      eapply (NoDup_fmap_eq id); [done.. | congruence]. }
    split; [done |]. split.
    { intros _. pose proof Hstored as (Hn & He & Hr & Hs & Ha)%stored_Some. simpl.
      split; [by apply column_set_field |]. split; [by apply column_set_field |].
      split; [rewrite Ha; by destruct (u_age data) |].
      split; [by apply column_set_field |]. split; [by apply column_set_field |].
      split; [done |]. intros Hfits. rewrite stored_fits in Hstored by done.
      by injection Hstored as <-. }
    split; [done |]. split; [done |]. split; [done |].
    split; [| split].
    + rewrite findById_in_range by done. f_equal. apply select_by_id_Some.
      * by rewrite Hrows, update_rows_id.
      * split; [| split; [done |]].
        -- rewrite Hrows. apply list_elem_of_fmap. exists old.
           split; [by rewrite decide_True | done].
        -- unfold visible. simpl. by apply bool_decide_eq_true_2.
    + intros j b Hj. unfold findById, select_by_id. rewrite Hrows.
      destruct (bind [integer int4 j]); [done |]. do 2 f_equal.
      apply filter_fmap_keep. intros v _. case_decide as Hv; [| by left].
      right. simpl. split; intros [? _]; congruence.
    + by rewrite Hrows, update_rows_id.
Qed.

(** X12. What [updateUser] refuses.  A user that [getUserById] does not
    find, missing or soft-deleted, is not updated: the answer is null and
    the table is untouched.  Whatever [updateUser] throws, the table is
    untouched; it throws what the lookup of the id throws, which is the
    case for every id that is no [INTEGER].  A new e-mail that a live user
    holds is refused with "Email already exists".  The refusal of a
    soft-deleted user is the service's: the UPDATE statement of the model
    has no condition on [deleted_at], and with values that fit and an
    e-mail no other row holds it changes the soft-deleted row. *)
Theorem updateUser_refusals (db : Db) (i : Z) (data : UpdateUserDTO) (now : Z) :
  (getUserById db i = inr None → updateUser db i data now = (db, inr None))
  ∧ (∀ db' t, updateUser db i data now = (db', inl t) → db' = db)
  ∧ (∀ t, getUserById db i = inl t → updateUser db i data now = (db, inl t))
  ∧ (¬ in_range int4 i → ∃ e, updateUser db i data now = (db, inl (PgError e)))
  ∧ (∀ old other e,
       getUserById db i = inr (Some old) →
       u_email data = Some e → e ≠ EmptyString → e ≠ email old →
       other ∈ rows db → email other = e → deleted_at other = None →
       has_nul e = false →
       updateUser db i data now = (db, inl (JsError "Email already exists")))
  ∧ (∀ u, db_wf db → findById db i true = inr (Some u) → deleted_at u ≠ None →
          no_fields data = false →
          update_fits data →
          email (set_fields data now u) ∉ email <$> filter (λ v, id v ≠ i) (rows db) →
          updateUser db i data now = (db, inr None)
          ∧ (update db i data now).2 = inr (Some (set_fields data now u))
          ∧ set_fields data now u ∈ rows (update db i data now).1).
Proof.
  unfold getUserById. split; [| split; [| split; [| split; [| split]]]].
  - intros Hnone. unfold updateUser. by rewrite Hnone.
  - intros db' t. unfold updateUser.
    destruct (findById db i false) as [t' | [old |]] eqn:Hfind;
      [by intros [= <- _] | | done].
    assert (update db i data now = (db', inl t) → db' = db) as Hup.
    { unfold update. destruct (no_fields data); [by intros [= <- _] |].
      destruct (bind _); [by intros [= <- _] |].
      destruct (stored data); [| by intros [= <- _]].
      destruct (head _); [| done]. cbv zeta.
      case_bool_decide; [by intros [= <- _] | done]. }
    destruct (email_to_check data old) as [e |]; [| exact Hup].
    destruct (findByEmail db e false) as [t'' | [other |]];
      [by intros [= <- _] | by intros [= <- _] | exact Hup].
  - intros t Ht. unfold updateUser. by rewrite Ht.
  - intros Hi. destruct (findById_out_of_range db i false Hi) as [e He].
    exists e. unfold updateUser. by rewrite He.
  - intros old other e Hold He Hne Hdiff Hother Hoe Hlive Hnul.
    unfold updateUser, email_to_check. rewrite Hold, He.
    rewrite bool_decide_eq_true_2 by done.
    destruct (findByEmail db e false) as [t | [found |]] eqn:Hfind; [| done |].
    + apply (f_equal (λ r, match r with inl _ => true | inr _ => false end)) in Hfind.
      unfold findByEmail, bind in Hfind. simpl in Hfind. by rewrite Hnul in Hfind.
    + apply findByEmail_inr in Hfind as [_ Hfind]. symmetry in Hfind.
      rewrite select_by_email_None in Hfind. specialize (Hfind other Hother Hoe).
      unfold visible in Hfind. simpl in Hfind. by rewrite Hlive in Hfind.
  - intros u (Hids & Hemails & Hnext) Hfind Hdel Hnf Hfits Hfree.
    apply findById_inr in Hfind as [Hi Hfind]. symmetry in Hfind.
    apply select_by_id_Some in Hfind as (Hu & Hid & _); [| done].
    assert (findById db i false = inr None) as Hnone.
    { rewrite findById_in_range by done. f_equal.
      apply select_by_id_None. intros v Hv Hvi.
      assert (v = u) as -> by (eapply (NoDup_fmap_eq id); [done.. | congruence]).
      unfold visible. simpl. by apply bool_decide_eq_false_2. }
    split; [unfold updateUser; by rewrite Hnone |].
    rewrite (update_ok db i data now u) by done. simpl. split; [done |].
    apply list_elem_of_fmap. exists u. by rewrite decide_True.
Qed.

Lemma email_not_in_others (l : list User) (u : User) :
  NoDup (email <$> l) → u ∈ l →
  email u ∉ email <$> filter (λ v, id v ≠ id u) l.
Proof.
  intros Hnd Hu (v & He & Hv)%list_elem_of_fmap.
  apply list_elem_of_filter in Hv as [Hne Hv]. apply Hne. f_equal.
  by eapply (NoDup_fmap_eq email).
Qed.

(** X13. [updateUser] applies none of the checks of [createUser]: for a
    visible user, any new values that fit their columns (text without the
    code unit 0 and within the column's length, an age that is an
    [INTEGER]) and whose e-mail, if one is given, is in no row are stored
    as they are, be the name blank or not, the e-mail well-formed or not
    and the age within 0..150 or not. *)
Theorem updateUser_does_not_validate (db : Db) (i : Z) (data : UpdateUserDTO)
    (now : Z) (old : User) :
  db_wf db →
  getUserById db i = inr (Some old) →
  no_fields data = false →
  (∀ e, u_email data = Some e → e ∉ email <$> rows db) →
  update_fits data →
  ∃ db', updateUser db i data now = (db', inr (Some (set_fields data now old)))
         ∧ getUserById db' i = inr (Some (set_fields data now old)).
Proof.
  intros Hwf Hold Hnf Hfree Hfits.
  pose proof Hwf as (Hids & Hemails & Hnext). unfold getUserById in *.
  pose proof Hold as [Hi Hsel]%findById_inr. symmetry in Hsel.
  pose proof Hsel as (Hmem & Hid & Hvis)%select_by_id_Some; [| done].
  assert (updateUser db i data now = update db i data now) as Hsame.
  { unfold updateUser, email_to_check. rewrite Hold.
    destruct (u_email data) as [e |] eqn:He; [| done].
    case_bool_decide; [| done].
    assert (findByEmail db e false = inr None) as ->; [| done].
    apply findByEmail_inr. split.
    - destruct Hfits as (_ & Hef & _). rewrite He in Hef. apply Hef.
    - symmetry. apply select_by_email_None. intros v Hv Hve. exfalso.
      apply (Hfree e eq_refl). rewrite <- Hve. by apply list_elem_of_fmap_2. }
  assert (email (set_fields data now old)
          ∉ email <$> filter (λ v, id v ≠ i) (rows db)) as Hnew.
  { simpl. destruct (u_email data) as [e |] eqn:He; simpl.
    - intros (v & Hev & Hv)%list_elem_of_fmap.
      apply list_elem_of_filter in Hv as [_ Hv].
      apply (Hfree e eq_refl). rewrite Hev. by apply list_elem_of_fmap_2.
    - rewrite <- Hid. by apply email_not_in_others. }
  eexists. split.
  - rewrite Hsame. by apply update_ok.
  - rewrite findById_in_range by done. f_equal. apply select_by_id_Some; simpl.
    + by rewrite update_rows_id.
    + split; [| split; [done |]].
      * apply list_elem_of_fmap. exists old. split; [by rewrite decide_True | done].
      * unfold visible in *. done.
Qed.

(** *** The constraints as an invariant *)

Lemma update_emails_NoDup (data : UpdateUserDTO) (i now : Z) (l : list User) :
  NoDup (id <$> l) →
  NoDup (email <$> l) →
  (∀ v, v ∈ l → id v = i →
        email (set_fields data now v) ∉ email <$> filter (λ w, id w ≠ i) l) →
  NoDup (email <$> ((λ u, if decide (id u = i) then set_fields data now u else u) <$> l)).
Proof.
  induction l as [| x l IH]; intros Hids Hemails Hnew; [constructor |].
  rewrite !fmap_cons in *.
  apply NoDup_cons in Hids as [Hx Hids]. apply NoDup_cons in Hemails as [Hex Hemails].
  destruct (decide (id x = i)) as [Hi | Hi].
  - assert (∀ v, v ∈ l → id v ≠ i) as Hrest.
    { intros v Hv Hvi. apply Hx. rewrite Hi, <- Hvi. by apply list_elem_of_fmap_2. }
    assert ((λ u, if decide (id u = i) then set_fields data now u else u) <$> l = l)
      as ->.
    { rewrite <- (list_fmap_id l) at 2. apply list_fmap_ext. intros k v Hk.
      apply list_elem_of_lookup_2 in Hk. by rewrite decide_False by (by apply Hrest). }
    apply NoDup_cons. split; [| done].
    specialize (Hnew x ltac:(by left) Hi).
    rewrite filter_cons, decide_False in Hnew by (intros ?; done).
    intros Hin. apply Hnew.
    apply list_elem_of_fmap in Hin as (v & Hev & Hv).
    apply list_elem_of_fmap. exists v. split; [done |].
    apply list_elem_of_filter. split; [by apply Hrest | done].
  - apply NoDup_cons. split.
    + intros (v' & Hev & Hv')%list_elem_of_fmap.
      apply list_elem_of_fmap in Hv' as (v & -> & Hv).
      destruct (decide (id v = i)) as [Hvi | Hvi].
      * apply (Hnew v ltac:(by right) Hvi). rewrite <- Hev.
        apply list_elem_of_fmap. exists x. split; [done |].
        apply list_elem_of_filter. split; [done | by left].
      * apply Hex. rewrite Hev. by apply list_elem_of_fmap_2.
    + apply IH; [done | done |].
      intros v Hv Hvi Hin. apply (Hnew v ltac:(by right) Hvi).
      rewrite filter_cons, decide_True by done. rewrite fmap_cons. by right.
Qed.

Lemma create_wf (db : Db) (data : CreateUserDTO) (now : Z) :
  db_wf db → db_wf (create db data now).1.
Proof.
  intros (Hids & Hemails & Hnext).
  destruct (create db data now) as [db' [t | u]] eqn:Hc; simpl.
  - apply create_inl in Hc as [-> | [-> _]]; [done |].
    split; [done |]. split; [done |]. simpl.
    eapply Forall_impl; [exact Hnext |]. simpl. intros v Hv. lia.
  - apply create_inr in Hc
      as (Hrows & Hn & Hid & _ & _ & _ & _ & _ & _ & _ & _ & Hfid & Hfe & _).
    unfold db_wf. rewrite Hrows, Hn. split; [| split].
    + rewrite fmap_app. apply NoDup_app. split; [done |].
      split; [| repeat constructor; set_solver].
      intros x Hx ->%list_elem_of_singleton. done.
    + rewrite fmap_app. apply NoDup_app. split; [done |].
      split; [| repeat constructor; set_solver].
      intros x Hx ->%list_elem_of_singleton. done.
    + apply Forall_app. split.
      * eapply Forall_impl; [exact Hnext |]. simpl. intros v Hv. lia.
      * repeat constructor. lia.
Qed.

Lemma update_wf (db : Db) (i : Z) (data : UpdateUserDTO) (now : Z) :
  db_wf db → db_wf (update db i data now).1.
Proof.
  intros Hwf. pose proof Hwf as (Hids & Hemails & Hnext).
  unfold update. destruct (no_fields data); [done |].
  destruct (bind _); [done |].
  destruct (stored data) as [values |]; [| done].
  destruct (head (filter _ (rows db))) as [old |] eqn:Hhead; [| done].
  cbv zeta. case_bool_decide as Hfree; [done |]. simpl.
  apply head_Some_elem_of, list_elem_of_filter in Hhead as [Hoi Hold].
  unfold db_wf. simpl. split; [by rewrite update_rows_id |]. split.
  - apply update_emails_NoDup; [done | done |].
    intros v Hv Hvi.
    assert (v = old) as -> by (eapply (NoDup_fmap_eq id); [done.. | congruence]).
    done.
  - rewrite Forall_forall in *. intros v' (v & -> & Hv)%list_elem_of_fmap.
    case_decide; exact (Hnext v Hv).
Qed.

Lemma delete_wf (db : Db) (i now : Z) : db_wf db → db_wf (delete db i now).1.
Proof.
  intros (Hids & Hemails & Hnext).
  destruct (delete_keeps_columns db i now) as (Hi & He & _). unfold db_wf.
  split; [by rewrite Hi |]. split; [by rewrite He |].
  unfold delete. destruct (bind [integer int4 i]); [done |]. simpl.
  rewrite Forall_forall in *.
  intros v' (v & -> & Hv)%list_elem_of_fmap. case_decide; exact (Hnext v Hv).
Qed.

Lemma restore_wf (db : Db) (i : Z) : db_wf db → db_wf (restore db i).1.
Proof.
  intros (Hids & Hemails & Hnext). unfold restore.
  destruct (bind [integer int4 i]); [done |]. unfold db_wf. simpl.
  split; [| split].
  - rewrite fmap_column_keep; [done |]. intros u. by case_decide.
  - rewrite fmap_column_keep; [done |]. intros u. by case_decide.
  - rewrite Forall_forall in *.
    intros v' (v & -> & Hv)%list_elem_of_fmap. case_decide; exact (Hnext v Hv).
Qed.

Lemma call_wf (db : Db) (c : Call) : db_wf db → db_wf (call db c).
Proof.
  intros Hwf. destruct c as [data now | i data now | i now | i | i]; simpl.
  - unfold createUser. destruct (validateCreateData data); [done |].
    destruct (findByEmail db (c_email data) false) as [t | [v |]]; [done | done |].
    by apply create_wf.
  - unfold updateUser. destruct (findById db i false) as [t | [old |]]; [done | | done].
    destruct (email_to_check data old) as [e |]; [| by apply update_wf].
    destruct (findByEmail db e false) as [t | [v |]]; [done | done |].
    by apply update_wf.
  - by apply delete_wf.
  - by apply restore_wf.
  - by apply hardDelete_wf.
Qed.

(** X14. The service keeps the table's keys.  Each writing call of the
    service takes a table without duplicate ids or e-mails, all ids below
    the sequence, to such a table; so after any sequence of calls on an
    empty table two rows with the same id or the same e-mail, deleted or
    not, are one row. *)
Theorem service_keeps_keys (calls : list Call) :
  (∀ db c, db_wf db → db_wf (call db c))
  ∧ db_wf (foldl call empty_db calls)
  ∧ ∀ u v, u ∈ rows (foldl call empty_db calls) →
           v ∈ rows (foldl call empty_db calls) →
           id u = id v ∨ email u = email v → u = v.
Proof.
  assert (∀ cs db, db_wf db → db_wf (foldl call db cs)) as Hrun.
  { intros cs. induction cs as [| c cs IH]; intros db Hwf; [done |].
    simpl. by apply IH, call_wf. }
  assert (db_wf (foldl call empty_db calls)) as Hfinal.
  { apply Hrun. repeat split; simpl; constructor. }
  split; [apply call_wf |]. split; [exact Hfinal |].
  destruct Hfinal as (Hids & Hemails & _).
  intros u v Hu Hv [Hid | He].
  - by eapply (NoDup_fmap_eq id).
  - by eapply (NoDup_fmap_eq email).
Qed.

(** *** The theorems on the example table *)

Lemma example_db_wf : db_wf example_db.
Proof.
  unfold db_wf, example_db. simpl.
  split; [| split]; [| | repeat constructor; simpl; lia];
    apply (bool_decide_unpack _); vm_compute; exact I.
Qed.

Lemma example_db_live : sequence_live example_db.
Proof. unfold sequence_live. simpl. lia. Qed.

Lemma example_dto_fits (n e : string) (a : option Z) :
  fits 255 n → fits 255 e → dto_fits (example_dto n e a).
Proof.
  intros Hn He. split; [done |]. split; [done |]. split; [| done].
  split; [reflexivity | simpl; lia].
Qed.

Lemma fits_Cy : fits 255 "Cy" ∧ fits 255 "cy@example.com" ∧ fits 255 "Bao II"
                ∧ fits 255 "bao@example.com".
Proof. repeat split; try reflexivity; simpl; lia. Qed.

Lemma createUser_succeeds_iff_witness :
  db_wf example_db
  ∧ sequence_live example_db
  ∧ dto_fits (example_dto "Cy" "cy@example.com" (Some 0))
  ∧ ∃ db' u, createUser example_db (example_dto "Cy" "cy@example.com" (Some 0)) 10
             = (db', inr u).
Proof.
  assert (dto_fits (example_dto "Cy" "cy@example.com" (Some 0))) as Hfits
    by (apply example_dto_fits; apply fits_Cy).
  split; [exact example_db_wf |]. split; [exact example_db_live |].
  split; [exact Hfits |].
  apply (createUser_succeeds_iff example_db _ 10 example_db_wf example_db_live Hfits).
  split; [vm_compute; reflexivity |].
  apply (bool_decide_unpack _). vm_compute. exact I.
Defined.

Lemma createUser_adds_one_row_witness :
  db_wf example_db
  ∧ ∃ db' u, createUser example_db (example_dto "Cy" "cy@example.com" (Some 0)) 10
             = (db', inr u)
             ∧ id u = 3 ∧ age u = None
             ∧ varchar 50 "active" = Some (status u)
             ∧ getUserById db' 3 = inr (Some u).
Proof.
  split; [exact example_db_wf |].
  eexists _, _. split; [vm_compute; reflexivity |].
  destruct (createUser_adds_one_row example_db _
              (example_dto "Cy" "cy@example.com" (Some 0)) 10 _
              example_db_wf eq_refl)
    as (_ & _ & Hid & _ & _ & _ & Hstatus & Hage & _ & _ & Hget & _).
  split; [exact Hid |]. split; [exact Hage |]. split; [exact Hstatus |]. exact Hget.
Defined.

(** The failures on the example table: an invalid e-mail; the e-mail of
    live Ann; the e-mail of soft-deleted Bao, which costs an id; a name
    with the code unit 0; a name of 256 letters. *)
Example createUser_failures_examples :
  createUser example_db (example_dto "Cy" "invalid-email" None) 10
  = (example_db, inl (JsError "Invalid email format"))
  ∧ createUser example_db (example_dto "Cy" "ann@example.com" None) 10
    = (example_db, inl (JsError "Email already exists"))
  ∧ createUser example_db (example_dto "Cy" "bao@example.com" None) 10
    = ({| rows := rows example_db; next_id := 4 |}, inl (PgError users_email_key))
  ∧ createUser example_db (example_dto example_nul_name "cy@example.com" None) 10
    = (example_db, inl (PgError invalid_byte_sequence))
  ∧ createUser example_db
      (example_dto (String.string_of_list_ascii (replicate 256 "a"%char))
         "cy@example.com" None) 10
    = (example_db, inl (PgError value_too_long)).
Proof. vm_compute. repeat split. Qed.

(** A name of 255 letters and three spaces passes the validation and is
    stored without the spaces. *)
Example createUser_padded_name :
  String.length example_padded_name = 258%nat
  ∧ ∃ db' u, createUser example_db
               (example_dto example_padded_name "cy@example.com" None) 10
             = (db', inr u)
             ∧ name u = String.string_of_list_ascii (replicate 255 "a"%char)
             ∧ name u ≠ example_padded_name.
Proof.
  split; [vm_compute; reflexivity |].
  eexists _, _. split; [vm_compute; reflexivity |].
  split; [vm_compute; reflexivity |].
  intros H. apply (f_equal String.length) in H. vm_compute in H. discriminate H.
Qed.

Lemma delete_restore_round_trip_witness :
  db_wf example_db
  ∧ getUserById example_db 1 = inr (Some ann)
  ∧ (deleteUser example_db 1 20).2 = inr true
  ∧ getUserById (deleteUser example_db 1 20).1 1 = inr None
  ∧ restoreUser (deleteUser example_db 1 20).1 1 = (example_db, inr (Some ann)).
Proof.
  split; [exact example_db_wf |]. split; [reflexivity |].
  apply (delete_restore_round_trip example_db 1 20 ann example_db_wf). reflexivity.
Defined.

Lemma deleteUser_is_soft_witness :
  db_wf example_db
  ∧ in_range int4 1
  ∧ (deleteUser example_db 1 20).2 = inr true
  ∧ id <$> rows (deleteUser example_db 1 20).1 = id <$> rows example_db
  ∧ getUserById (deleteUser example_db 1 20).1 1 = inr None
  ∧ deleteUser (deleteUser example_db 1 20).1 1 30
    = ((deleteUser example_db 1 20).1, inr false).
Proof.
  assert (in_range int4 1) as Hi by (unfold in_range; simpl; lia).
  split; [exact example_db_wf |]. split; [exact Hi |].
  destruct (deleteUser_is_soft example_db 1 20 30 example_db_wf) as [Hin _].
  destruct (Hin Hi) as (Hres & _ & Hhide & Hids & _ & Hagain).
  split; [apply Hres; exists ann; reflexivity |]. split; [exact Hids |].
  split; [exact Hhide | exact Hagain].
Defined.

(** An id beyond the [INTEGER] range: every call with it throws. *)
Example out_of_range_id :
  deleteUser example_db (2 ^ 31) 20 = (example_db, inl (PgError (out_of_range int4)))
  ∧ getUserById example_db (2 ^ 31) = inl (PgError (out_of_range int4))
  ∧ getUserById example_db (10 ^ 21) = inl (PgError (invalid_input_syntax int4))
  ∧ hardDeleteUser example_db (- 2 ^ 31 - 1)
    = (example_db, inl (PgError (out_of_range int4)))
  ∧ restoreUser example_db (2 ^ 31) = (example_db, inl (PgError (out_of_range int4))).
Proof. vm_compute. repeat split. Qed.

Lemma hardDeleteUser_frees_email_witness :
  db_wf example_db
  ∧ sequence_live example_db
  ∧ findById example_db 2 true = inr (Some bao)
  ∧ validateCreateData (example_dto "Bao II" "bao@example.com" None) = None
  ∧ dto_fits (example_dto "Bao II" "bao@example.com" None)
  ∧ findById (hardDeleteUser example_db 2).1 2 true = inr None
  ∧ ∃ db' v, createUser (hardDeleteUser example_db 2).1
               (example_dto "Bao II" "bao@example.com" None) 30 = (db', inr v).
Proof.
  assert (dto_fits (example_dto "Bao II" "bao@example.com" None)) as Hfits
    by (apply example_dto_fits; apply fits_Cy).
  assert (validateCreateData (example_dto "Bao II" "bao@example.com" None) = None)
    as Hvalid by (vm_compute; reflexivity).
  split; [exact example_db_wf |]. split; [exact example_db_live |].
  split; [reflexivity |]. split; [exact Hvalid |]. split; [exact Hfits |].
  destruct (hardDeleteUser_frees_email example_db 2 30 bao
              (example_dto "Bao II" "bao@example.com" None)
              example_db_wf example_db_live eq_refl Hvalid Hfits eq_refl)
    as (_ & Hgone & _ & _ & Hnew).
  split; [exact Hgone | exact Hnew].
Defined.

Lemma example_update_fits (e : string) (a : Z) :
  fits 255 e → in_range int4 a → update_fits (example_update e a).
Proof.
  intros He Ha. split; [done |]. split; [exact He |]. split; [exact Ha |]. done.
Qed.

Lemma updateUser_changes_one_user_witness :
  db_wf example_db
  ∧ ∃ db' u', updateUser example_db 1 (example_update "ann@new.example" 32) 40
              = (db', inr (Some u'))
              ∧ u' = set_fields (example_update "ann@new.example" 32) 40 ann
              ∧ age u' = Some 32
              ∧ updated_at u' = 40
              ∧ getUserById db' 1 = inr (Some u').
Proof.
  split; [exact example_db_wf |].
  eexists _, _. split; [vm_compute; reflexivity |].
  destruct (updateUser_changes_one_user example_db _ 1
              (example_update "ann@new.example" 32) 40 _ example_db_wf eq_refl)
    as (old & Hold & _ & Hset & _ & _ & _ & Hget & _).
  assert (old = ann) as -> by (vm_compute in Hold; injection Hold as <-; reflexivity).
  destruct (Hset eq_refl) as (_ & _ & Ha & _ & _ & Hu & Hfit).
  split.
  { apply Hfit, example_update_fits; [split; [reflexivity | simpl; lia] |].
    unfold in_range. simpl. lia. }
  split; [exact Ha |]. split; [exact Hu | exact Hget].
Defined.

(** An e-mail that [createUser] refuses and an age of 200 go through
    [updateUser]; a soft-deleted user is not updated; the e-mail of a
    soft-deleted user is refused by the unique key; an age that is no
    [INTEGER] and a name with the code unit 0 are refused by the
    database; a padded name is cut. *)
Example updateUser_examples :
  emailRegex_test "not an e-mail" = false
  ∧ (updateUser example_db 1 (example_update "not an e-mail" 200) 40).2
    = inr (Some {| id := 1; name := "Ann"; email := "not an e-mail"; age := Some 200;
                   role := "Developer"; status := "active"; deleted_at := None;
                   created_at := 0; updated_at := 40 |})
  ∧ updateUser example_db 2 (example_update "bao@new.example" 30) 40
    = (example_db, inr None)
  ∧ updateUser example_db 1 (example_update "bao@example.com" 30) 40
    = (example_db, inl (PgError users_email_key))
  ∧ updateUser example_db 1 (example_update "ann@new.example" (2 ^ 31)) 40
    = (example_db, inl (PgError (out_of_range int4)))
  ∧ updateUser example_db 1
      {| u_name := Some example_nul_name; u_email := None; u_age := None;
         u_role := None; u_status := None |} 40
    = (example_db, inl (PgError invalid_byte_sequence))
  ∧ (updateUser example_db 1
       {| u_name := Some example_padded_name; u_email := None; u_age := None;
          u_role := None; u_status := None |} 40).2
    = inr (Some {| id := 1;
                   name := String.string_of_list_ascii (replicate 255 "a"%char);
                   email := "ann@example.com"; age := Some 31;
                   role := "Developer"; status := "active"; deleted_at := None;
                   created_at := 0; updated_at := 40 |})
  ∧ updateUser example_db (2 ^ 31) (example_update "x@y.z" 30) 40
    = (example_db, inl (PgError (out_of_range int4))).
Proof. vm_compute. repeat split. Qed.

Lemma updateUser_does_not_validate_witness :
  db_wf example_db
  ∧ getUserById example_db 1 = inr (Some ann)
  ∧ no_fields (example_update "not an e-mail" 200) = false
  ∧ emailRegex_test "not an e-mail" = false
  ∧ update_fits (example_update "not an e-mail" 200)
  ∧ ∃ db', updateUser example_db 1 (example_update "not an e-mail" 200) 40
           = (db', inr (Some (set_fields (example_update "not an e-mail" 200) 40 ann)))
           ∧ getUserById db' 1
             = inr (Some (set_fields (example_update "not an e-mail" 200) 40 ann)).
Proof.
  assert (update_fits (example_update "not an e-mail" 200)) as Hfits.
  { apply example_update_fits; [split; [reflexivity | simpl; lia] |].
    unfold in_range. simpl. lia. }
  split; [exact example_db_wf |]. split; [reflexivity |]. split; [reflexivity |].
  split; [vm_compute; reflexivity |]. split; [exact Hfits |].
  apply (updateUser_does_not_validate example_db 1
           (example_update "not an e-mail" 200) 40 ann example_db_wf);
    [reflexivity | reflexivity | | exact Hfits].
  intros e [= <-]. apply (bool_decide_unpack _). vm_compute. exact I.
Defined.

End UserStoreFacts.
(** ** Problem 6: more on the rate limiter of the README *)

Section RateLimiterMore.
Import Scoreboard RateLimitCount.

(** The answer to a user's command, and what it leaves under the user's
    key, depend on nothing but what is under that key. *)
Lemma rate_limit_local (u : string) (now : Z) (r1 r2 : gmap string RedisEntry) :
  r1 !! rate_limit_key u = r2 !! rate_limit_key u →
  (rate_limit u now r1).2 = (rate_limit u now r2).2
  ∧ (rate_limit u now r1).1 !! rate_limit_key u
    = (rate_limit u now r2).1 !! rate_limit_key u.
Proof.
  intros Hk. unfold rate_limit, redis_incr, redis_get. rewrite Hk.
  destruct (r2 !! rate_limit_key u) as [e |]; [destruct (expired now e) eqn:Hexp |];
    cbn [fst snd].
  - destruct (decide (1 = 1)) as [_ | []]; [| done].
    destruct (decide (1 > 10)) as [? | _]; [lia |].
    unfold redis_expire, redis_get. rewrite !lookup_insert_eq. simpl.
    by rewrite !lookup_insert_eq.
  - assert (expired now {| value := value e + 1; expireAt := expireAt e |} = false)
      as Hexp' by done.
    destruct (decide (value e + 1 = 1)), (decide (value e + 1 > 10)); simpl;
      unfold redis_expire, redis_get; rewrite ?lookup_insert_eq, ?Hexp'; simpl;
      by rewrite ?lookup_insert_eq.
  - destruct (decide (1 = 1)) as [_ | []]; [| done].
    destruct (decide (1 > 10)) as [? | _]; [lia |].
    unfold redis_expire, redis_get. rewrite !lookup_insert_eq. simpl.
    by rewrite !lookup_insert_eq.
Qed.

Lemma rate_limit_run_local (u : string) (arrivals : list (string * Z))
    (r1 r2 : gmap string RedisEntry) :
  r1 !! rate_limit_key u = r2 !! rate_limit_key u →
  outcomes_of u arrivals (rate_limit_run r1 arrivals).2
  = (rate_limit_run r2 (filter (λ a, a.1 = u) arrivals)).2.
Proof.
  revert r1 r2. induction arrivals as [| [v t] arrivals IH]; intros r1 r2 Hk; [done |].
  rewrite rate_limit_run_cons. simpl. rewrite outcomes_of_cons, filter_cons. simpl.
  destruct (decide (v = u)) as [-> | Hne].
  - rewrite rate_limit_run_cons. simpl.
    destruct (rate_limit_local u t r1 r2 Hk) as [-> Hk']. f_equal. by apply IH.
  - apply IH. by rewrite rate_limit_other.
Qed.

(** X15. The limiter keeps users apart: in a run with the commands of many
    users, the answers to one user's commands are those the limiter gives
    when it is run on that user's commands alone. *)
Theorem rate_limit_users_independent (redis : gmap string RedisEntry) (u : string)
    (arrivals : list (string * Z)) :
  outcomes_of u arrivals (rate_limit_run redis arrivals).2
  = (rate_limit_run redis (filter (λ a, a.1 = u) arrivals)).2.
Proof. by apply rate_limit_run_local. Qed.

Lemma count_allowed_cons (o : Limited) (os : list Limited) :
  count_allowed (o :: os)
  = ((if decide (o = Allowed) then 1 else 0) + count_allowed os)%nat.
Proof. unfold count_allowed. rewrite filter_cons. by case_decide. Qed.

(** A command while the key is live: the counter goes up by one and the
    expiry stays, whatever it is. *)
Lemma rate_limit_live_any (u : string) (now : Z) (e : RedisEntry)
    (redis : gmap string RedisEntry) :
  redis_get now redis (rate_limit_key u) = Some e →
  1 <= value e →
  (rate_limit u now redis).2
  = (if decide (value e < 10) then Allowed else RateLimitExceeded)
  ∧ (rate_limit u now redis).1 !! rate_limit_key u
    = Some {| value := value e + 1; expireAt := expireAt e |}.
Proof.
  intros Hget Hc. unfold rate_limit, redis_incr. rewrite Hget. cbn [fst snd].
  destruct (decide (value e + 1 = 1)) as [? | _]; [lia |].
  destruct (decide (value e + 1 > 10)), (decide (value e < 10)); try lia; simpl;
    by rewrite lookup_insert_eq.
Qed.

Lemma redis_get_Some (now : Z) (redis : gmap string RedisEntry) (key : string)
    (e : RedisEntry) :
  redis_get now redis key = Some e → redis !! key = Some e ∧ expired now e = false.
Proof.
  unfold redis_get. destruct (redis !! key) as [e' |]; [| done].
  destruct (expired now e') eqn:He; [done |]. by intros [= <-].
Qed.

Lemma rate_limit_counter_ok (u v : string) (now : Z) (redis : gmap string RedisEntry) :
  counter_ok redis u → counter_ok (rate_limit v now redis).1 u.
Proof.
  intros Hok e. destruct (decide (v = u)) as [-> | Hne].
  - destruct (redis_get now redis (rate_limit_key u)) as [e0 |] eqn:Hget.
    + pose proof Hget as [Hlook _]%redis_get_Some.
      destruct (rate_limit_live_any u now e0 redis Hget (Hok e0 Hlook)) as [_ ->].
      intros [= <-]. simpl. specialize (Hok e0 Hlook). lia.
    + destruct (rate_limit_first u now redis Hget) as [_ ->]. by intros [= <-].
  - rewrite rate_limit_other by done. apply Hok.
Qed.

(** Inside a window that outlasts all of the user's commands to come, at
    most [10 - c] more are allowed when [c] have been counted. *)
Lemma burst_in_window (u : string) (arrivals : list (string * Z))
    (redis : gmap string RedisEntry) (c T : Z) :
  1 <= c →
  redis !! rate_limit_key u = Some {| value := c; expireAt := Some T |} →
  (∀ t, (u, t) ∈ arrivals → t <= T) →
  Z.of_nat (count_allowed (outcomes_of u arrivals (rate_limit_run redis arrivals).2))
  <= Z.max 0 (10 - c).
Proof.
  revert redis c. induction arrivals as [| [v t] arrivals IH]; intros redis c Hc Hkey Hin.
  - unfold outcomes_of, count_allowed. simpl. lia.
  - rewrite rate_limit_run_cons. simpl. rewrite outcomes_of_cons.
    destruct (decide (v = u)) as [-> | Hne].
    + assert (t <= T) as Ht by (apply Hin; by left).
      destruct (rate_limit_live u t c T redis Hkey Ht Hc) as [Ho Hkey1].
      specialize (IH (rate_limit u t redis).1 (c + 1) ltac:(lia) Hkey1
                    ltac:(intros t' Ht'; apply Hin; by right)).
      rewrite count_allowed_cons, Ho.
      destruct (decide (c < 10)); simpl; repeat case_decide; try done; lia.
    + apply (IH _ c); [done | by rewrite rate_limit_other |].
      intros t' Ht'. apply Hin. by right.
Qed.

(** In a span shorter than 60 seconds: what is left of the window the span
    starts in, and one more window. *)
Lemma burst_bound_aux (u : string) (a : Z) (arrivals : list (string * Z))
    (redis : gmap string RedisEntry) :
  counter_ok redis u →
  (∀ t, (u, t) ∈ arrivals → a <= t < a + 60) →
  Z.of_nat (count_allowed (outcomes_of u arrivals (rate_limit_run redis arrivals).2))
  <= match redis !! rate_limit_key u with
     | Some e => Z.max 0 (10 - value e) + 10
     | None => 10
     end.
Proof.
  revert redis. induction arrivals as [| [v t] arrivals IH]; intros redis Hok Hin.
  - unfold outcomes_of, count_allowed. simpl. destruct (redis !! rate_limit_key u); lia.
  - rewrite rate_limit_run_cons. simpl. rewrite outcomes_of_cons.
    destruct (decide (v = u)) as [-> | Hne].
    + assert (a <= t < a + 60) as Ht by (apply Hin; by left).
      rewrite count_allowed_cons.
      destruct (redis_get t redis (rate_limit_key u)) as [e |] eqn:Hget.
      * pose proof Hget as [Hlook _]%redis_get_Some.
        pose proof (Hok e Hlook) as Hc.
        destruct (rate_limit_live_any u t e redis Hget Hc) as [Ho Hkey1].
        specialize (IH (rate_limit u t redis).1
                      (rate_limit_counter_ok u u t redis Hok)
                      ltac:(intros t' Ht'; apply Hin; by right)).
        rewrite Hkey1 in IH. simpl in IH. rewrite Hlook, Ho.
        destruct (decide (value e < 10)); simpl; repeat case_decide; try done; lia.
      * destruct (rate_limit_first u t redis Hget) as [Ho Hkey1].
        pose proof (burst_in_window u arrivals (rate_limit u t redis).1 1 (t + 60)
                      ltac:(lia) Hkey1) as Hrest.
        rewrite Ho. simpl.
        assert (Z.of_nat (count_allowed
                  (outcomes_of u arrivals
                     (rate_limit_run (rate_limit u t redis).1 arrivals).2)) <= 9)
          as Hnine.
        { etrans; [apply Hrest |]; [| lia].
          intros t' Ht'. specialize (Hin t' ltac:(by right)). lia. }
        destruct (redis !! rate_limit_key u); lia.
    + specialize (IH (rate_limit v t redis).1
                    (rate_limit_counter_ok u v t redis Hok)
                    ltac:(intros t' Ht'; apply Hin; by right)).
      by rewrite rate_limit_other in IH.
Qed.

Lemma rate_limit_run_counter_ok (u : string) (arrivals : list (string * Z))
    (redis : gmap string RedisEntry) :
  counter_ok redis u → counter_ok (rate_limit_run redis arrivals).1 u.
Proof.
  revert redis. induction arrivals as [| [v t] arrivals IH]; intros redis Hok; [done |].
  rewrite rate_limit_run_cons. simpl. by apply IH, rate_limit_counter_ok.
Qed.

(** X16. The window of the limiter is fixed, not sliding.  Whatever the
    limiter has seen before, of the commands a user sends within any span
    shorter than 60 seconds at most 19 are allowed, other users' commands
    in between changing nothing; and 19 it can be: nine at the end of one
    window and ten at the start of the next. *)
Theorem rate_limit_burst_bound (u : string) (a : Z) (history arrivals : list (string * Z)) :
  (∀ t, (u, t) ∈ arrivals → a <= t < a + 60) →
  (count_allowed
     (outcomes_of u arrivals
        (rate_limit_run (rate_limit_run ∅ history).1 arrivals).2) <= 19)%nat
  ∧ count_allowed
      (outcomes_of "carol" example_burst
         (rate_limit_run (rate_limit_run ∅ [("carol"%string, 0%Z)]).1 example_burst).2)
    = 19%nat.
Proof.
  intros Hin. split; [| vm_compute; reflexivity].
  assert (counter_ok (rate_limit_run ∅ history).1 u) as Hok.
  { apply rate_limit_run_counter_ok. intros e He. by rewrite lookup_empty in He. }
  pose proof (burst_bound_aux u a arrivals _ Hok Hin) as Hb.
  destruct ((rate_limit_run ∅ history).1 !! rate_limit_key u) as [e |] eqn:He.
  - specialize (Hok e He). lia.
  - lia.
Qed.

Lemma rate_limit_burst_bound_witness :
  (∀ t, ("carol"%string, t) ∈ example_burst → 60 <= t < 60 + 60)
  ∧ (count_allowed
       (outcomes_of "carol" example_burst
          (rate_limit_run (rate_limit_run ∅ [("carol"%string, 0%Z)]).1 example_burst).2)
     <= 19)%nat.
Proof.
  assert (∀ t, ("carol"%string, t) ∈ example_burst → 60 <= t < 60 + 60) as Hin.
  { assert (Forall (λ p, p.1 = "carol"%string → 60 <= p.2 < 60 + 60) example_burst) as HF
      by (apply (bool_decide_unpack _); vm_compute; exact I).
    intros t Ht. rewrite Forall_forall in HF. by apply (HF ("carol"%string, t) Ht). }
  split; [exact Hin |].
  apply (rate_limit_burst_bound "carol" 60 [("carol"%string, 0%Z)] example_burst Hin).
Defined.

End RateLimiterMore.


(* ---------------------------------------------------------------------- *)
(** ** Problem 4: where the three implementations agree *)

Section Problem4More.
Import Problem4.

Lemma sum_to_n_b_nonneg (n : Z) : 0 <= sum_to_n_b n.
Proof. pose proof (sum_to_n_b_exact n). nia. Qed.

(** The closed form does not tell [n] from [-1 - n]. *)
Lemma sum_to_n_b_mirror (n : Z) : sum_to_n_b (-1 - n) = sum_to_n_b n.
Proof.
  pose proof (sum_to_n_b_exact n). pose proof (sum_to_n_b_exact (-1 - n)). nia.
Qed.

(** X17. Where the three implementations agree, as long as the arithmetic
    of the code is exact and the recursion has the stack it needs.  For an
    integer [n] with [|n * (n + 1)| <= 2^53], every number the three
    functions compute is an integer of magnitude at most [2^53], which a
    double holds exactly; and with room for the [max(1, n)] nested calls
    of the recursion: the loop and the closed form return the same number
    exactly from [-1] on, the recursion returns the number of the loop, or
    of the closed form, exactly from [0] on.  The closed form is never
    negative and takes the same value at [n] and [-1 - n]. *)
Theorem sum_to_n_agreement (n : Z) (fuel : nat) :
  Z.abs (n * (n + 1)) <= 2 ^ 53 →
  (sum_to_n_c_calls n <= fuel)%nat →
  (Z.abs n <= 2 ^ 53
   ∧ Z.abs (sum_to_n_a n) <= 2 ^ 53
   ∧ Z.abs (sum_to_n_b n) <= 2 ^ 53
   ∧ Z.abs (sum_to_n_c n) <= 2 ^ 53)
  ∧ (sum_to_n_a n = sum_to_n_b n ↔ -1 <= n)
  ∧ (sum_to_n_c_fuel fuel n = Some (sum_to_n_a n) ↔ 0 <= n)
  ∧ (sum_to_n_c_fuel fuel n = Some (sum_to_n_b n) ↔ 0 <= n)
  ∧ 0 <= sum_to_n_b n
  ∧ sum_to_n_b (-1 - n) = sum_to_n_b n.
Proof.
  intros Hexact Hfuel.
  rewrite (sum_to_n_c_fuel_enough fuel n Hfuel).
  assert (∀ x y : Z, Some x = Some y ↔ x = y) as Hsome
    by (intros x y; split; [by intros [= ->] | by intros ->]).
  rewrite !Hsome.
  pose proof (sum_to_n_b_exact n) as Hb.
  pose proof (sum_to_n_b_nonneg n) as Hb0.
  assert (2 ^ 53 = 9007199254740992) as Hpow by reflexivity.
  rewrite Hpow in *.
  destruct (decide (0 <= n)) as [Hn | Hn].
  - assert (2 * sum_to_n_a n = n * (n + 1)) as Ha
      by (unfold sum_to_n_a; rewrite sum_loop_spec; lia).
    pose proof (sum_to_n_c_spec n Hn) as Hc.
    split; [repeat split; nia |].
    repeat split; try done; try lia; try apply sum_to_n_b_mirror.
  - assert (sum_to_n_a n = 0) as Ha by (apply sum_loop_skip; lia).
    assert (sum_to_n_c n = n) as Hc by (apply sum_to_n_c_base; lia).
    split; [rewrite Ha, Hc; repeat split; nia |].
    repeat split; try done; try lia; try apply sum_to_n_b_mirror.
    + intros Hab. destruct (decide (n = -1)) as [-> | Hne]; [lia |]. nia.
    + intros Hn1. assert (n = -1) as -> by lia. rewrite Ha. reflexivity.
Qed.

Lemma sum_to_n_agreement_witness :
  Z.abs (10 * (10 + 1)) <= 2 ^ 53
  ∧ (sum_to_n_c_calls 10 <= 10)%nat
  ∧ sum_to_n_a 10 = sum_to_n_b 10
  ∧ sum_to_n_c_fuel 10 10 = Some (sum_to_n_a 10)
  ∧ sum_to_n_c_fuel 10 10 = Some (sum_to_n_b 10).
Proof.
  assert (Z.abs (10 * (10 + 1)) <= 2 ^ 53) as Hexact by (vm_compute; discriminate).
  assert (sum_to_n_c_calls 10 <= 10)%nat as Hfuel by (vm_compute; lia).
  split; [exact Hexact |]. split; [exact Hfuel |].
  destruct (sum_to_n_agreement 10 10 Hexact Hfuel) as (_ & Hab & Hca & Hcb & _).
  split; [apply Hab; lia |]. split; [apply Hca; lia | apply Hcb; lia].
Defined.

End Problem4More.
